(** * go-basic: data structures and algorithms, verified over a shallow embedding

    The Go sources are translated function by function.  Go's [int] is
    modelled as [Z]: array elements are only compared and moved, and the
    index arithmetic of the modelled code stays between [-1] and twice the
    length of a slice, so no 64-bit wrap-around can occur in it.  Slices are
    lists; a Go run-time panic (index out of range, nil dereference) is the
    outcome [Panic]. *)

From stdpp Require Import base option list gmap sorting strings.
From Stdlib Require Import ZArith Lia Ascii.

Local Open Scope Z_scope.

(** ** Outcomes of Go code: a value, a run-time panic, or a loop that was
    cut off by the fuel of the model. *)

Inductive outcome (A : Type) : Type :=
| Done (a : A)
| Panic
| OutOfFuel.

Arguments Done {A} a.
Arguments Panic {A}.
Arguments OutOfFuel {A}.

Definition obind {A B : Type} (m : outcome A) (k : A -> outcome B) : outcome B :=
  match m with
  | Done a => k a
  | Panic => Panic
  | OutOfFuel => OutOfFuel
  end.

Notation "'do' x <- m ; k" := (obind m (fun x => k))
  (at level 10, x pattern, m at level 100, k at level 200).

(** [arr[i]]: bounds-checked read. *)
Definition index {A : Type} (arr : list A) (i : Z) : outcome A :=
  if 0 <=? i then
    match arr !! Z.to_nat i with
    | Some v => Done v
    | None => Panic
    end
  else Panic.

(** [arr[i] = v]: bounds-checked write. *)
Definition store {A : Type} (arr : list A) (i : Z) (v : A) : outcome (list A) :=
  if (0 <=? i) && (i <? Z.of_nat (length arr)) then Done (<[Z.to_nat i := v]> arr)
  else Panic.

(** [len(arr)] *)
Definition len {A : Type} (arr : list A) : Z := Z.of_nat (length arr).

(** [arr[lo:hi]], [arr[:hi]] and [arr[lo:]]: bounds-checked slicing. *)
Definition slice {A : Type} (arr : list A) (lo hi : Z) : outcome (list A) :=
  if (0 <=? lo) && (lo <=? hi) && (hi <=? len arr)
  then Done (take (Z.to_nat (hi - lo)) (drop (Z.to_nat lo) arr))
  else Panic.

Definition slice_to {A : Type} (arr : list A) (hi : Z) : outcome (list A) :=
  slice arr 0 hi.

Definition slice_from {A : Type} (arr : list A) (lo : Z) : outcome (list A) :=
  slice arr lo (len arr).

(** Go's [error]: [nil] is [None], [fmt.Errorf(msg)] is [Some msg]. *)
Definition error : Type := option string.

(** Arithmetic on [int] where the operands are data rather than indices:
    64 bits, two's complement, silent wrap-around; [/] truncates and panics
    on a zero divisor. *)
Module Int64.

Definition wrap (z : Z) : Z := (z + 2 ^ 63) mod 2 ^ 64 - 2 ^ 63.

Definition add (a b : Z) : Z := wrap (a + b).

Definition sub (a b : Z) : Z := wrap (a - b).

Definition mul (a b : Z) : Z := wrap (a * b).

Definition quo (a b : Z) : outcome Z :=
  if b =? 0 then Panic else Done (wrap (a ÷ b)).

End Int64.

(** ** 02-data-structures/stack.go *)

Module Stack.

Record Stack : Type := mkStack { items : list Z }.

Definition Push (s : Stack) (item : Z) : Stack :=
  mkStack (items s ++ [item]).

Definition Pop (s : Stack) : outcome ((Z * error) * Stack) :=
  if len (items s) =? 0 then Done ((0, Some "stack is empty"%string), s)
  else
    let index_ := len (items s) - 1 in
    do item <- index (items s) index_;
    do rest <- slice_to (items s) index_;
    Done ((item, None), mkStack rest).

Definition Peek (s : Stack) : outcome (Z * error) :=
  if len (items s) =? 0 then Done (0, Some "stack is empty"%string)
  else
    do item <- index (items s) (len (items s) - 1);
    Done (item, None).

Definition IsEmpty (s : Stack) : bool := len (items s) =? 0.

Definition Size (s : Stack) : Z := len (items s).

End Stack.

(** ** unnamed/part_004: the queue *)

Module Queue.

Record Queue : Type := mkQueue { items : list Z }.

Definition Enqueue (q : Queue) (item : Z) : Queue :=
  mkQueue (items q ++ [item]).

Definition Dequeue (q : Queue) : outcome ((Z * error) * Queue) :=
  if len (items q) =? 0 then Done ((0, Some "queue is empty"%string), q)
  else
    do item <- index (items q) 0;
    do rest <- slice_from (items q) 1;
    Done ((item, None), mkQueue rest).

Definition Peek (q : Queue) : outcome (Z * error) :=
  if len (items q) =? 0 then Done (0, Some "queue is empty"%string)
  else
    do item <- index (items q) 0;
    Done (item, None).

Definition IsEmpty (q : Queue) : bool := len (items q) =? 0.

Definition Size (q : Queue) : Z := len (items q).

End Queue.

(** N pushes (enqueues) in the given order, then N pops (dequeues), collecting
    what each call returned. *)

Definition push_all (vs : list Z) (s : Stack.Stack) : Stack.Stack :=
  foldl Stack.Push s vs.

Fixpoint pop_n (n : nat) (s : Stack.Stack) : outcome (list (Z * error) * Stack.Stack) :=
  match n with
  | O => Done ([], s)
  | S n' =>
      do (r, s') <- Stack.Pop s;
      do (rs, s'') <- pop_n n' s';
      Done (r :: rs, s'')
  end.

Definition enqueue_all (vs : list Z) (q : Queue.Queue) : Queue.Queue :=
  foldl Queue.Enqueue q vs.

Fixpoint dequeue_n (n : nat) (q : Queue.Queue) : outcome (list (Z * error) * Queue.Queue) :=
  match n with
  | O => Done ([], q)
  | S n' =>
      do (r, q') <- Queue.Dequeue q;
      do (rs, q'') <- dequeue_n n' q';
      Done (r :: rs, q'')
  end.

(** ** 02-data-structures/tree.go *)

Module Tree.

(** A [*TreeNode]: the nil pointer or a node with its three fields. *)
Inductive TreeNode : Type :=
| Nil
| Node (Value : Z) (Left Right : TreeNode).

Record BinaryTree : Type := mkTree { Root : TreeNode }.

(** [insertRecursive] mutates the tree below [node]; the model returns the
    updated node.  Reading [node.Value] through a nil pointer panics. *)
Fixpoint insertRecursive (node : TreeNode) (value : Z) : outcome TreeNode :=
  match node with
  | Nil => Panic
  | Node v l r =>
      if value <? v then
        match l with
        | Nil => Done (Node v (Node value Nil Nil) r)
        | Node _ _ _ => do l' <- insertRecursive l value; Done (Node v l' r)
        end
      else
        match r with
        | Nil => Done (Node v l (Node value Nil Nil))
        | Node _ _ _ => do r' <- insertRecursive r value; Done (Node v l r')
        end
  end.

Definition Insert (t : BinaryTree) (value : Z) : outcome BinaryTree :=
  match Root t with
  | Nil => Done (mkTree (Node value Nil Nil))
  | Node _ _ _ => do root <- insertRecursive (Root t) value; Done (mkTree root)
  end.

Fixpoint searchRecursive (node : TreeNode) (value : Z) : bool :=
  match node with
  | Nil => false
  | Node v l r =>
      if v =? value then true
      else if value <? v then searchRecursive l value
      else searchRecursive r value
  end.

Definition Search (t : BinaryTree) (value : Z) : bool :=
  searchRecursive (Root t) value.

(** [result] is the slice behind the shared pointer [*[]int]. *)
Fixpoint inorderRecursive (node : TreeNode) (result : list Z) : list Z :=
  match node with
  | Nil => result
  | Node v l r => inorderRecursive r (inorderRecursive l result ++ [v])
  end.

Definition InorderTraversal (t : BinaryTree) : list Z :=
  inorderRecursive (Root t) [].

Fixpoint preorderRecursive (node : TreeNode) (result : list Z) : list Z :=
  match node with
  | Nil => result
  | Node v l r => preorderRecursive r (preorderRecursive l (result ++ [v]))
  end.

Definition PreorderTraversal (t : BinaryTree) : list Z :=
  preorderRecursive (Root t) [].

Fixpoint postorderRecursive (node : TreeNode) (result : list Z) : list Z :=
  match node with
  | Nil => result
  | Node v l r => postorderRecursive r (postorderRecursive l result) ++ [v]
  end.

Definition PostorderTraversal (t : BinaryTree) : list Z :=
  postorderRecursive (Root t) [].

(** A sequence of [Insert] calls, in order. *)
Fixpoint insert_all (values : list Z) (t : BinaryTree) : outcome BinaryTree :=
  match values with
  | [] => Done t
  | v :: rest => do t' <- Insert t v; insert_all rest t'
  end.

(** The values stored below a node. *)
Fixpoint values_of (node : TreeNode) : list Z :=
  match node with
  | Nil => []
  | Node v l r => values_of l ++ v :: values_of r
  end.

(** The ordering invariant of the file header, at every node: left
    descendants strictly smaller, right descendants strictly larger. *)
Fixpoint strict_bst (node : TreeNode) : Prop :=
  match node with
  | Nil => True
  | Node v l r =>
      Forall (fun x => x < v) (values_of l) /\
      Forall (fun x => v < x) (values_of r) /\
      strict_bst l /\ strict_bst r
  end.

(** What [insertRecursive] keeps: right descendants are larger or equal. *)
Fixpoint weak_bst (node : TreeNode) : Prop :=
  match node with
  | Nil => True
  | Node v l r =>
      Forall (fun x => x < v) (values_of l) /\
      Forall (fun x => v <= x) (values_of r) /\
      weak_bst l /\ weak_bst r
  end.

End Tree.

(** ** unnamed/part_003: searching *)

Module Search.

Definition min (a b : Z) : Z := if a <? b then a else b.

(** [for i, value := range arr] *)
Fixpoint linear_range (arr : list Z) (i : Z) (target : Z) : Z :=
  match arr with
  | [] => -1
  | value :: rest => if value =? target then i else linear_range rest (i + 1) target
  end.

Definition LinearSearch (arr : list Z) (target : Z) : Z :=
  linear_range arr 0 target.

(** [for left <= right { ... }]; Go's [/] on [int] truncates ([Z.quot]). *)
Fixpoint binary_loop (fuel : nat) (arr : list Z) (target left right : Z) : outcome Z :=
  match fuel with
  | O => OutOfFuel
  | S fuel' =>
      if left <=? right then
        let mid := left + (right - left) ÷ 2 in
        do v <- index arr mid;
        if v =? target then Done mid
        else
          do v' <- index arr mid;
          if v' <? target then binary_loop fuel' arr target (mid + 1) right
          else binary_loop fuel' arr target left (mid - 1)
      else Done (-1)
  end.

Definition BinarySearch (arr : list Z) (target : Z) : outcome Z :=
  binary_loop (S (length arr)) arr target 0 (len arr - 1).

(** [int(math.Sqrt(float64(n)))]: for a slice length [n] (below [2^52]) the
    conversion to [float64] is exact and the truncated correctly rounded
    square root is the integer square root. *)
Definition isqrt (n : Z) : Z := Z.sqrt n.

(** First loop of [JumpSearch]: the condition reads [arr[minStep]]. *)
Fixpoint jump_block (fuel : nat) (arr : list Z) (target n prev step minStep : Z)
  : outcome (option Z * Z * Z) :=
  match fuel with
  | O => OutOfFuel
  | S fuel' =>
      do v <- index arr minStep;
      if v <? target then
        let prev := step in
        let step := step + isqrt n in
        if n <=? prev then Done (Some (-1), prev, step)
        else jump_block fuel' arr target n prev step (min step n - 1)
      else Done (None, prev, step)
  end.

(** Second loop: linear scan from [prev]. *)
Fixpoint jump_linear (fuel : nat) (arr : list Z) (target n prev step : Z)
  : outcome (option Z * Z) :=
  match fuel with
  | O => OutOfFuel
  | S fuel' =>
      do v <- index arr prev;
      if v <? target then
        let prev := prev + 1 in
        if prev =? min step n then Done (Some (-1), prev)
        else jump_linear fuel' arr target n prev step
      else Done (None, prev)
  end.

Definition JumpSearch (arr : list Z) (target : Z) : outcome Z :=
  let n := len arr in
  let step := isqrt n in
  let prev := 0 in
  do (ret, prev, step) <- jump_block (S (length arr)) arr target n prev step (min step n - 1);
  match ret with
  | Some r => Done r
  | None =>
      do (ret, prev) <- jump_linear (S (length arr)) arr target n prev step;
      match ret with
      | Some r => Done r
      | None =>
          do v <- index arr prev;
          if v =? target then Done prev else Done (-1)
      end
  end.

(** [for low <= high && target >= arr[low] && target <= arr[high]]: the
    conjuncts are evaluated left to right and only as far as needed.  The
    probe mixes indices with element values, so it is computed in 64 bits. *)
Fixpoint interpolation_loop (fuel : nat) (arr : list Z) (target low high : Z) : outcome Z :=
  match fuel with
  | O => OutOfFuel
  | S fuel' =>
      if low <=? high then
        do a <- index arr low;
        if target >=? a then
          do b <- index arr high;
          if target <=? b then
            if low =? high then
              do a1 <- index arr low;
              if a1 =? target then Done low else Done (-1)
            else
              do a2 <- index arr low;
              do b2 <- index arr high;
              do a3 <- index arr low;
              do q <- Int64.quo (Int64.mul (Int64.sub high low) (Int64.sub target a2))
                                (Int64.sub b2 a3);
              let pos := Int64.add low q in
              do p <- index arr pos;
              if p =? target then Done pos
              else
                do p' <- index arr pos;
                if p' <? target then interpolation_loop fuel' arr target (pos + 1) high
                else interpolation_loop fuel' arr target low (pos - 1)
          else Done (-1)
        else Done (-1)
      else Done (-1)
  end.

Definition InterpolationSearch (arr : list Z) (target : Z) : outcome Z :=
  interpolation_loop (S (length arr)) arr target 0 (len arr - 1).

End Search.

(** ** 03-algorithms/sorting.go, string algorithms: Knuth-Morris-Pratt.  A Go
    string is indexed by byte; it is modelled as the list of its bytes.  Each
    round of either loop advances [i] or shortens the matched prefix, so
    twice the length bounds the rounds. *)

Module KMP.

Definition bytes (s : string) : list ascii := String.list_ascii_of_string s.

Definition byte_eqb (a b : ascii) : bool := Ascii.eqb a b.

Fixpoint lps_loop (fuel : nat) (pattern : list ascii) (lps : list Z) (length_ i : Z)
  : outcome (list Z) :=
  match fuel with
  | O => OutOfFuel
  | S fuel' =>
      if i <? len pattern then
        do a <- index pattern i;
        do b <- index pattern length_;
        if byte_eqb a b then
          let length_ := length_ + 1 in
          do lps <- store lps i length_;
          lps_loop fuel' pattern lps length_ (i + 1)
        else
          if negb (length_ =? 0) then
            do l <- index lps (length_ - 1);
            lps_loop fuel' pattern lps l i
          else
            do lps <- store lps i 0;
            lps_loop fuel' pattern lps length_ (i + 1)
      else Done lps
  end.

Definition computeLPSArray (pattern : list ascii) : outcome (list Z) :=
  let lps := replicate (length pattern) 0 in
  lps_loop (S (2 * length pattern)) pattern lps 0 1.

Fixpoint kmp_loop (fuel : nat) (text pattern : list ascii) (lps matches : list Z) (i j : Z)
  : outcome (list Z) :=
  match fuel with
  | O => OutOfFuel
  | S fuel' =>
      if i <? len text then
        do p <- index pattern j;
        do t <- index text i;
        let '(i, j) := if byte_eqb p t then (i + 1, j + 1) else (i, j) in
        if j =? len pattern then
          let matches := matches ++ [i - j] in
          do j <- index lps (j - 1);
          kmp_loop fuel' text pattern lps matches i j
        else
          if i <? len text then
            do p <- index pattern j;
            do t <- index text i;
            if negb (byte_eqb p t) then
              if negb (j =? 0) then
                do j <- index lps (j - 1);
                kmp_loop fuel' text pattern lps matches i j
              else kmp_loop fuel' text pattern lps matches (i + 1) j
            else kmp_loop fuel' text pattern lps matches i j
          else kmp_loop fuel' text pattern lps matches i j
      else Done matches
  end.

Definition KMPSearch (text pattern : string) : outcome (list Z) :=
  do lps <- computeLPSArray (bytes pattern);
  kmp_loop (S (2 * length (bytes text))) (bytes text) (bytes pattern) lps [] 0 0.

End KMP.

(** ** 03-algorithms/sorting.go *)

Module Sorting.

(** [arr[i], arr[j] = arr[j], arr[i]]: both operands are read, then both
    elements are assigned, left to right. *)
Definition swap (arr : list Z) (i j : Z) : outcome (list Z) :=
  do x <- index arr j;
  do y <- index arr i;
  do arr <- store arr i x;
  store arr j y.

(** *** BubbleSort *)

Fixpoint bubble_inner (fuel : nat) (arr : list Z) (n i j : Z) (swapped : bool)
  : outcome (list Z * bool) :=
  match fuel with
  | O => OutOfFuel
  | S fuel' =>
      if j <? n - i - 1 then
        do a <- index arr j;
        do b <- index arr (j + 1);
        if a >? b then
          do arr <- swap arr j (j + 1);
          bubble_inner fuel' arr n i (j + 1) true
        else bubble_inner fuel' arr n i (j + 1) swapped
      else Done (arr, swapped)
  end.

Fixpoint bubble_outer (fuel : nat) (arr : list Z) (n i : Z) : outcome (list Z) :=
  match fuel with
  | O => OutOfFuel
  | S fuel' =>
      if i <? n - 1 then
        do (arr, swapped) <- bubble_inner (S (length arr)) arr n i 0 false;
        if negb swapped then Done arr
        else bubble_outer fuel' arr n (i + 1)
      else Done arr
  end.

Definition BubbleSort (arr : list Z) : outcome (list Z) :=
  bubble_outer (S (length arr)) arr (len arr) 0.

(** *** QuickSort *)

Fixpoint partition_loop (fuel : nat) (arr : list Z) (high pivot i j : Z)
  : outcome (list Z * Z) :=
  match fuel with
  | O => OutOfFuel
  | S fuel' =>
      if j <? high then
        do v <- index arr j;
        if v <=? pivot then
          let i := i + 1 in
          do arr <- swap arr i j;
          partition_loop fuel' arr high pivot i (j + 1)
        else partition_loop fuel' arr high pivot i (j + 1)
      else Done (arr, i)
  end.

Definition partition (arr : list Z) (low high : Z) : outcome (list Z * Z) :=
  do pivot <- index arr high;
  let i := low - 1 in
  do (arr, i) <- partition_loop (S (length arr)) arr high pivot i low;
  do arr <- swap arr (i + 1) high;
  Done (arr, i + 1).

Fixpoint quickSortHelper (fuel : nat) (arr : list Z) (low high : Z) : outcome (list Z) :=
  match fuel with
  | O => OutOfFuel
  | S fuel' =>
      if low <? high then
        do (arr, pi) <- partition arr low high;
        do arr <- quickSortHelper fuel' arr low (pi - 1);
        quickSortHelper fuel' arr (pi + 1) high
      else Done arr
  end.

Definition QuickSort (arr : list Z) : outcome (list Z) :=
  quickSortHelper (S (length arr)) arr 0 (len arr - 1).

(** *** MergeSort *)

Fixpoint merge_loop (fuel : nat) (left right result : list Z) (i j : Z)
  : outcome (list Z * Z * Z) :=
  match fuel with
  | O => OutOfFuel
  | S fuel' =>
      if (i <? len left) && (j <? len right) then
        do a <- index left i;
        do b <- index right j;
        if a <=? b then merge_loop fuel' left right (result ++ [a]) (i + 1) j
        else merge_loop fuel' left right (result ++ [b]) i (j + 1)
      else Done (result, i, j)
  end.

Definition merge (left right : list Z) : outcome (list Z) :=
  let result := [] in
  do (result, i, j) <- merge_loop (S (length left + length right)) left right result 0 0;
  do restl <- slice_from left i;
  let result := result ++ restl in
  do restr <- slice_from right j;
  let result := result ++ restr in
  Done result.

Fixpoint MergeSort_rec (fuel : nat) (arr : list Z) : outcome (list Z) :=
  match fuel with
  | O => OutOfFuel
  | S fuel' =>
      if len arr <=? 1 then Done arr
      else
        let mid := len arr ÷ 2 in
        do a <- slice_to arr mid;
        do left' <- MergeSort_rec fuel' a;
        do b <- slice_from arr mid;
        do right' <- MergeSort_rec fuel' b;
        merge left' right'
  end.

Definition MergeSort (arr : list Z) : outcome (list Z) :=
  MergeSort_rec (S (length arr)) arr.

(** *** InsertionSort *)

(** [for j >= 0 && arr[j] > key]: [arr[j]] is read only when [j >= 0]. *)
Fixpoint insertion_inner (fuel : nat) (arr : list Z) (key j : Z) : outcome (list Z * Z) :=
  match fuel with
  | O => OutOfFuel
  | S fuel' =>
      if 0 <=? j then
        do v <- index arr j;
        if v >? key then
          do w <- index arr j;
          do arr <- store arr (j + 1) w;
          insertion_inner fuel' arr key (j - 1)
        else Done (arr, j)
      else Done (arr, j)
  end.

Fixpoint insertion_outer (fuel : nat) (arr : list Z) (i : Z) : outcome (list Z) :=
  match fuel with
  | O => OutOfFuel
  | S fuel' =>
      if i <? len arr then
        do key <- index arr i;
        let j := i - 1 in
        do (arr, j) <- insertion_inner (S (length arr)) arr key j;
        do arr <- store arr (j + 1) key;
        insertion_outer fuel' arr (i + 1)
      else Done arr
  end.

Definition InsertionSort (arr : list Z) : outcome (list Z) :=
  insertion_outer (S (length arr)) arr 1.

(** [isSorted], the checker used by [main]. *)
Fixpoint isSorted_loop (fuel : nat) (arr : list Z) (i : Z) : outcome bool :=
  match fuel with
  | O => OutOfFuel
  | S fuel' =>
      if i <? len arr then
        do a <- index arr i;
        do b <- index arr (i - 1);
        if a <? b then Done false else isSorted_loop fuel' arr (i + 1)
      else Done true
  end.

Definition isSorted (arr : list Z) : outcome bool :=
  isSorted_loop (S (length arr)) arr 1.

End Sorting.

(** ** 02-data-structures/graph.go *)

Module Graph.

Record Graph : Type := mkGraph { vertices : gmap Z (list Z) }.

Definition NewGraph : Graph := mkGraph ∅.

(** [g.vertices[vertex]]: a missing key reads as the nil slice. *)
Definition adjacent (g : Graph) (vertex : Z) : list Z :=
  default [] (vertices g !! vertex).

Definition AddVertex (g : Graph) (vertex : Z) : Graph :=
  match vertices g !! vertex with
  | Some _ => g
  | None => mkGraph (<[vertex := []]> (vertices g))
  end.

Definition AddEdge (g : Graph) (vertex1 vertex2 : Z) : Graph :=
  let g1 := mkGraph (<[vertex1 := adjacent g vertex1 ++ [vertex2]]> (vertices g)) in
  mkGraph (<[vertex2 := adjacent g1 vertex2 ++ [vertex1]]> (vertices g1)).

Definition GetNeighbors (g : Graph) (vertex : Z) : list Z := adjacent g vertex.

(** [visited[v]] on a [map[int]bool]: a missing key reads as [false]. *)
Definition is_visited (visited : gmap Z bool) (v : Z) : bool :=
  default false (visited !! v).

(** Inner [range] loop of [BFS]. *)
Fixpoint bfs_range (neighbors : list Z) (visited : gmap Z bool) (queue : list Z)
  : gmap Z bool * list Z :=
  match neighbors with
  | [] => (visited, queue)
  | neighbor :: rest =>
      if negb (is_visited visited neighbor) then
        bfs_range rest (<[neighbor := true]> visited) (queue ++ [neighbor])
      else bfs_range rest visited queue
  end.

Fixpoint bfs_loop (fuel : nat) (g : Graph) (visited : gmap Z bool) (queue result : list Z)
  : outcome (list Z) :=
  match fuel with
  | O => OutOfFuel
  | S fuel' =>
      if len queue >? 0 then
        do vertex <- index queue 0;
        do queue <- slice_from queue 1;
        let result := result ++ [vertex] in
        let '(visited, queue) := bfs_range (adjacent g vertex) visited queue in
        bfs_loop fuel' g visited queue result
      else Done result
  end.

(** Every vertex the traversals can meet: the start, the keys and the
    entries of the adjacency lists.  Its size bounds the loops. *)
Definition universe (g : Graph) (start : Z) : gset Z :=
  {[start]} ∪ dom (vertices g) ∪ list_to_set (concat (map_to_list (vertices g)).*2).

Definition BFS (g : Graph) (start : Z) : outcome (list Z) :=
  let visited : gmap Z bool := ∅ in
  let queue := [start] in
  let visited := <[start := true]> visited in
  let result := [] in
  bfs_loop (S (size (universe g start))) g visited queue result.

(** The [range] loop of [dfsUtil], over the recursive call [rec]. *)
Fixpoint dfs_range (rec : Z -> gmap Z bool * list Z -> outcome (gmap Z bool * list Z))
    (neighbors : list Z) (st : gmap Z bool * list Z) : outcome (gmap Z bool * list Z) :=
  match neighbors with
  | [] => Done st
  | neighbor :: rest =>
      if negb (is_visited st.1 neighbor) then
        do st <- rec neighbor st;
        dfs_range rec rest st
      else dfs_range rec rest st
  end.

(** [visited] and [*result] are shared by all recursive calls: the pair is
    threaded through them. *)
Fixpoint dfsUtil (fuel : nat) (g : Graph) (vertex : Z) (st : gmap Z bool * list Z)
  : outcome (gmap Z bool * list Z) :=
  match fuel with
  | O => OutOfFuel
  | S fuel' =>
      let visited := <[vertex := true]> st.1 in
      let result := st.2 ++ [vertex] in
      dfs_range (dfsUtil fuel' g) (adjacent g vertex) (visited, result)
  end.

Definition DFS (g : Graph) (start : Z) : outcome (list Z) :=
  let visited : gmap Z bool := ∅ in
  let result := [] in
  do st <- dfsUtil (S (size (universe g start))) g start (visited, result);
  Done st.2.

(** The calls that build a graph. *)
Inductive op : Type :=
| OpAddVertex (vertex : Z)
| OpAddEdge (vertex1 vertex2 : Z).

Definition apply_op (g : Graph) (o : op) : Graph :=
  match o with
  | OpAddVertex v => AddVertex g v
  | OpAddEdge v1 v2 => AddEdge g v1 v2
  end.

Definition build (ops : list op) : Graph := foldl apply_op NewGraph ops.

(** [v] is directly connected to [u]. *)
Definition edge (g : Graph) (u v : Z) : Prop := v ∈ adjacent g u.

(** Reachability: the reflexive-transitive closure of [edge]. *)
Definition reachable (g : Graph) (start v : Z) : Prop := rtc (edge g) start v.

End Graph.

(** ** Go's built-in conversions [rune(n)] and [string(r)]

    They are part of the language, not of the repository: [rune] is [int32],
    the conversion of an [int] keeps its low 32 bits, and [string(r)] is the
    UTF-8 encoding of the code point [r], or of U+FFFD when [r] is not a
    valid code point.  A Go string is the sequence of its bytes. *)

Module GoString.

Definition rune_of_int (n : Z) : Z := (n + 2 ^ 31) mod 2 ^ 32 - 2 ^ 31.

Definition RuneError : Z := 0xFFFD.

Definition valid_rune (r : Z) : bool :=
  (0 <=? r) && (r <=? 0x10FFFF) && negb ((0xD800 <=? r) && (r <=? 0xDFFF)).

Definition encode_rune (r : Z) : list Z :=
  if r <=? 0x7F then [r]
  else if r <=? 0x7FF then
    [Z.lor 0xC0 (Z.shiftr r 6); Z.lor 0x80 (Z.land r 0x3F)]
  else if r <=? 0xFFFF then
    [Z.lor 0xE0 (Z.shiftr r 12);
     Z.lor 0x80 (Z.land (Z.shiftr r 6) 0x3F);
     Z.lor 0x80 (Z.land r 0x3F)]
  else
    [Z.lor 0xF0 (Z.shiftr r 18);
     Z.lor 0x80 (Z.land (Z.shiftr r 12) 0x3F);
     Z.lor 0x80 (Z.land (Z.shiftr r 6) 0x3F);
     Z.lor 0x80 (Z.land r 0x3F)].

Definition byte_of_Z (b : Z) : ascii := ascii_of_N (Z.to_N b).

Definition Z_of_byte (a : ascii) : Z := Z.of_N (N_of_ascii a).

Definition string_of_bytes (bs : list Z) : string :=
  String.string_of_list_ascii (byte_of_Z <$> bs).

Definition bytes_of_string (s : string) : list Z :=
  Z_of_byte <$> String.list_ascii_of_string s.

Definition string_of_rune (r : Z) : string :=
  string_of_bytes (encode_rune (if valid_rune r then r else RuneError)).

End GoString.

(** ** 04-design-patterns/structural/facade.go *)

Module Facade.

Definition HardDrive_Read (position : string) (size : Z) : string :=
  (("HardDrive: Reading data of size " +:+ GoString.string_of_rune (GoString.rune_of_int size))
     +:+ " from ") +:+ position.

End Facade.

(** ** 04-design-patterns/behavioral/chain_of_responsibility.go (payment
    strategies) and unnamed/part_002 (observer)

    The amounts are [float64].  Floating point is left abstract: [float64]
    is any type and [rune_of_float64] is Go's conversion [rune(amount)],
    which truncates towards zero and is implementation-dependent when the
    value does not fit [int32]. *)

Module Behavioral.
Section Float.
Variable float64 : Type.
Variable rune_of_float64 : float64 -> Z.

Definition CreditCardStrategy_Pay (amount : float64) : string :=
  ("Paid " +:+ GoString.string_of_rune (rune_of_float64 amount)) +:+ " using Credit Card".

Definition PayPalStrategy_Pay (amount : float64) : string :=
  ("Paid " +:+ GoString.string_of_rune (rune_of_float64 amount)) +:+ " using PayPal".

Definition BitcoinStrategy_Pay (amount : float64) : string :=
  ("Paid " +:+ GoString.string_of_rune (rune_of_float64 amount)) +:+ " using Bitcoin".

Definition TemperatureDisplay_display (name : string) (temperature : float64) : string :=
  (("Display " +:+ name) +:+ " shows temperature: ")
    +:+ GoString.string_of_rune (rune_of_float64 temperature).

End Float.
End Behavioral.


(** ** Vocabulary of the specifications *)

(** A list is non-decreasing by index. *)
Definition sorted_idx (arr : list Z) : Prop :=
  forall (i j : nat) (a b : Z),
    (i <= j)%nat -> arr !! i = Some a -> arr !! j = Some b -> a <= b.

(** Total views of a read and a write at an index known to be in range. *)
Definition zget (arr : list Z) (k : Z) : Z := default 0 (arr !! Z.to_nat k).

Definition zset (arr : list Z) (k : Z) (v : Z) : list Z := <[Z.to_nat k := v]> arr.

(** [arr[lo..hi]] (bounds included) is non-decreasing. *)
Definition seg_sorted (arr : list Z) (lo hi : Z) : Prop :=
  forall k1 k2, lo <= k1 -> k1 <= k2 -> k2 <= hi -> zget arr k1 <= zget arr k2.

Definition seg_le (arr : list Z) (lo hi x : Z) : Prop :=
  forall k, lo <= k <= hi -> zget arr k <= x.

Definition seg_ge (arr : list Z) (lo hi x : Z) : Prop :=
  forall k, lo <= k <= hi -> x <= zget arr k.

(** [arr'] is [arr] with the elements of [arr[lo..hi]] rearranged: same
    length, same elements, nothing moved outside the segment, and every bound
    on the segment still a bound. *)
Record seg_step (arr arr' : list Z) (lo hi : Z) : Prop := mk_seg_step {
  step_len : len arr' = len arr;
  step_perm : arr' ≡ₚ arr;
  step_outside : forall k, 0 <= k < len arr -> k < lo \/ hi < k -> zget arr' k = zget arr k;
  step_le : forall x, seg_le arr lo hi x -> seg_le arr' lo hi x;
  step_ge : forall x, seg_ge arr lo hi x -> seg_ge arr' lo hi x
}.

(** The visited map marks exactly the vertices of [l]. *)
Definition marks (visited : gmap Z bool) (l : list Z) : Prop :=
  forall x, Graph.is_visited visited x = true <-> x ∈ l.

(** Every neighbour of a vertex of [l] is in [l']. *)
Definition closed_in (g : Graph.Graph) (l l' : list Z) : Prop :=
  forall x y, x ∈ l -> Graph.edge g x y -> y ∈ l'.

(** A traversal state: the visited map marks exactly the listed vertices,
    none of them twice, and all of them reachable from [start]. *)
Definition dfs_inv (g : Graph.Graph) (start : Z) (st : gmap Z bool * list Z) : Prop :=
  marks st.1 st.2 /\ NoDup st.2 /\ (forall x, x ∈ st.2 -> Graph.reachable g start x).

(** What a completed (part of a) depth-first traversal adds to the state:
    the result list only grows, by vertices whose neighbours are all in it. *)
Definition dfs_post (g : Graph.Graph) (start : Z) (st st' : gmap Z bool * list Z) : Prop :=
  dfs_inv g start st' /\ exists new, st'.2 = st.2 ++ new /\ closed_in g new st'.2.

(** The loop invariant of [BFS]: visited vertices are those dequeued or
    queued; the neighbours of a dequeued vertex are all visited. *)
Definition bfs_inv (g : Graph.Graph) (start : Z)
    (visited : gmap Z bool) (queue result : list Z) : Prop :=
  marks visited (result ++ queue) /\ NoDup (result ++ queue) /\
  (forall x, x ∈ result ++ queue -> Graph.reachable g start x) /\
  closed_in g result (result ++ queue) /\ start ∈ result ++ queue.

(** *** Reading a Go string back as text *)

Definition is_continuation (b : Z) : bool := (0x80 <=? b) && (b <=? 0xBF).

(** One UTF-8 sequence at the head of [bs]: its code point and the rest.
    Overlong forms, surrogates and values above U+10FFFF are rejected. *)
Definition decode_rune (bs : list Z) : option (Z * list Z) :=
  match bs with
  | [] => None
  | b0 :: rest =>
      if b0 <? 0x80 then (if 0 <=? b0 then Some (b0, rest) else None)
      else if b0 <? 0xC0 then None
      else if b0 <? 0xE0 then
        match rest with
        | b1 :: rest =>
            let r := Z.lor (Z.shiftl (Z.land b0 0x1F) 6) (Z.land b1 0x3F) in
            if is_continuation b1 && (0x80 <=? r) then Some (r, rest) else None
        | _ => None
        end
      else if b0 <? 0xF0 then
        match rest with
        | b1 :: b2 :: rest =>
            let r := Z.lor (Z.shiftl (Z.land b0 0x0F) 12)
                       (Z.lor (Z.shiftl (Z.land b1 0x3F) 6) (Z.land b2 0x3F)) in
            if is_continuation b1 && is_continuation b2 && (0x800 <=? r)
               && negb ((0xD800 <=? r) && (r <=? 0xDFFF))
            then Some (r, rest) else None
        | _ => None
        end
      else if b0 <? 0xF8 then
        match rest with
        | b1 :: b2 :: b3 :: rest =>
            let r := Z.lor (Z.shiftl (Z.land b0 0x07) 18)
                       (Z.lor (Z.shiftl (Z.land b1 0x3F) 12)
                          (Z.lor (Z.shiftl (Z.land b2 0x3F) 6) (Z.land b3 0x3F))) in
            if is_continuation b1 && is_continuation b2 && is_continuation b3
               && (0x10000 <=? r) && (r <=? 0x10FFFF)
            then Some (r, rest) else None
        | _ => None
        end
      else None
  end.

Fixpoint decode_runes (fuel : nat) (bs : list Z) : option (list Z) :=
  match bs with
  | [] => Some []
  | _ :: _ =>
      match fuel with
      | O => None
      | S fuel' =>
          match decode_rune bs with
          | Some (r, rest) =>
              match decode_runes fuel' rest with
              | Some rs => Some (r :: rs)
              | None => None
              end
          | None => None
          end
      end
  end.

(** The code points of the characters of a string, when it is valid UTF-8. *)
Definition utf8_decode (s : string) : option (list Z) :=
  let bs := GoString.bytes_of_string s in decode_runes (length bs) bs.

(** [HardDrive.Read(position, size)] is the fixed text around one character
    whose code point is [size]. *)
Definition embeds_code_point (position : string) (size : Z) : Prop :=
  exists s : string,
    Facade.HardDrive_Read position size
      = (("HardDrive: Reading data of size " +:+ s) +:+ " from ") +:+ position /\
    utf8_decode s = Some [size].

(** The decimal representation of an integer ([strconv.Itoa]). *)
Fixpoint decimal_digits (fuel : nat) (n : Z) (acc : string) : string :=
  match fuel with
  | O => acc
  | S fuel' =>
      let acc := String (GoString.byte_of_Z (48 + n mod 10)) acc in
      if n / 10 =? 0 then acc else decimal_digits fuel' (n / 10) acc
  end.

Definition decimal (n : Z) : string :=
  if n <? 0 then String "-"%char (decimal_digits (S (Z.to_nat (Z.log2 (- n)))) (- n) "")
  else decimal_digits (S (Z.to_nat (Z.log2 n))) n "".


(** ** More of the sources *)

(** [for _, ch := range s]: the code points of a string in order; a byte
    that starts no valid UTF-8 sequence is read as U+FFFD and skipped alone. *)
Fixpoint range_bytes (fuel : nat) (bs : list Z) : list Z :=
  match fuel with
  | O => []
  | S fuel' =>
      match bs with
      | [] => []
      | _ :: rest =>
          match decode_rune bs with
          | Some (r, rest') => r :: range_bytes fuel' rest'
          | None => GoString.RuneError :: range_bytes fuel' rest
          end
      end
  end.

Definition range_runes (s : string) : list Z :=
  let bs := GoString.bytes_of_string s in range_bytes (length bs) bs.

(** *** 02-data-structures/stack.go: the bracket checker *)

Module Brackets.

(** The loop of [isValidBrackets]: [Some b] when the loop returned [b]. *)
Fixpoint brackets_range (runes : list Z) (stack : Stack.Stack)
  : outcome (option bool * Stack.Stack) :=
  match runes with
  | [] => Done (None, stack)
  | ch :: rest =>
      if ch =? 40 then brackets_range rest (Stack.Push stack 1)
      else if ch =? 41 then
        if Stack.IsEmpty stack then Done (Some false, stack)
        else
          do (_, stack) <- Stack.Pop stack;
          brackets_range rest stack
      else brackets_range rest stack
  end.

Definition isValidBrackets (s : string) : outcome bool :=
  let stack := Stack.mkStack [] in
  do (ret, stack) <- brackets_range (range_runes s) stack;
  match ret with
  | Some b => Done b
  | None => Done (Stack.IsEmpty stack)
  end.

(** Balanced texts: other characters anywhere, and every ['('] (40) closed
    by a later [')'] (41). *)
Inductive balanced : list Z -> Prop :=
| balanced_nil : balanced []
| balanced_other c l : c <> 40 -> c <> 41 -> balanced l -> balanced (c :: l)
| balanced_pair l1 l2 : balanced l1 -> balanced l2 -> balanced (40 :: l1 ++ 41 :: l2).

(** [l] closes [n] brackets opened before it and is balanced otherwise. *)
Fixpoint closes (n : nat) (l : list Z) : Prop :=
  match n with
  | O => balanced l
  | S n' => exists l1 l2, l = l1 ++ 41 :: l2 /\ balanced l1 /\ closes n' l2
  end.

(** The same scan with a counter for the stack. *)
Fixpoint depth_run (n : nat) (l : list Z) : bool :=
  match l with
  | [] => match n with O => true | S _ => false end
  | ch :: rest =>
      if ch =? 40 then depth_run (S n) rest
      else if ch =? 41 then
        match n with O => false | S n' => depth_run n' rest end
      else depth_run n rest
  end.

End Brackets.

(** *** 03-algorithms/sorting.go, string algorithms: Rabin-Karp

    The hashes stay below [101] and every intermediate value below [2^23] in
    absolute value, so the arithmetic is written without wrap-around; Go's
    [%] is the truncated remainder [Z.rem]. *)

Module RabinKarp.

Definition base : Z := 256.
Definition prime : Z := 101.

(** [int(s[i])] *)
Definition int_of_byte (a : ascii) : Z := GoString.Z_of_byte a.

(** First loop: the hashes of the pattern and of the first window. *)
Fixpoint hash_loop (fuel : nat) (text pattern : list ascii) (patternHash windowHash i : Z)
  : outcome (Z * Z) :=
  match fuel with
  | O => OutOfFuel
  | S fuel' =>
      if i <? len pattern then
        do p <- index pattern i;
        let patternHash := Z.rem (patternHash * base + int_of_byte p) prime in
        do t <- index text i;
        let windowHash := Z.rem (windowHash * base + int_of_byte t) prime in
        hash_loop fuel' text pattern patternHash windowHash (i + 1)
      else Done (patternHash, windowHash)
  end.

(** Second loop: the weight of the leading byte. *)
Fixpoint h_loop (fuel : nat) (pattern : list ascii) (h i : Z) : outcome Z :=
  match fuel with
  | O => OutOfFuel
  | S fuel' =>
      if i <? len pattern - 1 then h_loop fuel' pattern (Z.rem (h * base) prime) (i + 1)
      else Done h
  end.

(** The character-by-character check at position [i]; the result is the
    final value of [match]. *)
Fixpoint check_loop (fuel : nat) (text pattern : list ascii) (i j : Z) : outcome bool :=
  match fuel with
  | O => OutOfFuel
  | S fuel' =>
      if j <? len pattern then
        do t <- index text (i + j);
        do p <- index pattern j;
        if negb (KMP.byte_eqb t p) then Done false
        else check_loop fuel' text pattern i (j + 1)
      else Done true
  end.

Fixpoint slide_loop (fuel : nat) (text pattern : list ascii)
    (patternHash h : Z) (matches : list Z) (windowHash i : Z) : outcome (list Z) :=
  match fuel with
  | O => OutOfFuel
  | S fuel' =>
      if i <=? len text - len pattern then
        do matches <-
          (if patternHash =? windowHash then
             do match_ <- check_loop (S (length pattern)) text pattern i 0;
             if match_ then Done (matches ++ [i]) else Done matches
           else Done matches);
        do windowHash <-
          (if i <? len text - len pattern then
             do t <- index text i;
             do t' <- index text (i + len pattern);
             let windowHash :=
               Z.rem (base * (windowHash - int_of_byte t * h) + int_of_byte t') prime in
             if windowHash <? 0 then Done (windowHash + prime) else Done windowHash
           else Done windowHash);
        slide_loop fuel' text pattern patternHash h matches windowHash (i + 1)
      else Done matches
  end.

Definition RabinKarp (text pattern : string) : outcome (list Z) :=
  let text := KMP.bytes text in
  let pattern := KMP.bytes pattern in
  if len pattern >? len text then Done []
  else
    let matches := [] in
    do (patternHash, windowHash) <- hash_loop (S (length pattern)) text pattern 0 0 0;
    do h <- h_loop (S (length pattern)) pattern 1 0;
    slide_loop (S (S (length text))) text pattern patternHash h matches windowHash 0.

(** The pattern occurs in the text at byte offset [i]. *)
Definition occurs_at (text pattern : list ascii) (i : Z) : Prop :=
  0 <= i /\ take (length pattern) (drop (Z.to_nat i) text) = pattern.

(** The value of a byte string read as a number in base 256, and the hash. *)
Definition poly (l : list ascii) : Z :=
  fold_left (fun acc c => acc * base + int_of_byte c) l 0.

Definition hash (l : list ascii) : Z := poly l mod prime.

End RabinKarp.

(** ** 03-algorithms/sorting.go: dynamic programming *)

Module DP.

(** [make([]int, n)]: a negative length panics.  The allocation itself is
    taken to succeed; the statements keep the lengths small. *)
Definition make_ints (n : Z) : outcome (list Z) :=
  if n <? 0 then Panic else Done (replicate (Z.to_nat n) 0).

(** The recursion of [FibonacciRecursive]; [fuel] bounds its depth. *)
Fixpoint fib_rec (fuel : nat) (n : Z) : outcome Z :=
  match fuel with
  | O => OutOfFuel
  | S fuel' =>
      if n <=? 1 then Done n
      else
        do a <- fib_rec fuel' (Int64.sub n 1);
        do b <- fib_rec fuel' (Int64.sub n 2);
        Done (Int64.add a b)
  end.

Definition FibonacciRecursive (n : Z) : outcome Z := fib_rec (S (Z.to_nat n)) n.

Fixpoint fib_loop (fuel : nat) (dp : list Z) (n i : Z) : outcome (list Z) :=
  match fuel with
  | O => OutOfFuel
  | S fuel' =>
      if i <=? n then
        do a <- index dp (Int64.sub i 1);
        do b <- index dp (Int64.sub i 2);
        do dp <- store dp i (Int64.add a b);
        fib_loop fuel' dp n (Int64.add i 1)
      else Done dp
  end.

Definition FibonacciDP (n : Z) : outcome Z :=
  if n <=? 1 then Done n
  else
    do dp <- make_ints (Int64.add n 1);
    do dp <- store dp 0 0;
    do dp <- store dp 1 1;
    do dp <- fib_loop (S (Z.to_nat n)) dp n 2;
    index dp n.

(** [min] and [max] of the file. *)
Definition min (a b : Z) : Z := if a <? b then a else b.

Definition max (a b : Z) : Z := if a >? b then a else b.

(** [for i := range dp { dp[i] = v }], over the [n] indices from [i] on. *)
Fixpoint fill_range (n : nat) (dp : list Z) (i v : Z) : outcome (list Z) :=
  match n with
  | O => Done dp
  | S n' =>
      do dp <- store dp i v;
      fill_range n' dp (i + 1) v
  end.

(** The [range] loop of [CoinChange] over the coins, for the amount [i]. *)
Fixpoint coin_range (coins : list Z) (dp : list Z) (i : Z) : outcome (list Z) :=
  match coins with
  | [] => Done dp
  | coin :: rest =>
      if coin <=? i then
        do a <- index dp i;
        do b <- index dp (Int64.sub i coin);
        do dp <- store dp i (min a (Int64.add b 1));
        coin_range rest dp i
      else coin_range rest dp i
  end.

Fixpoint coin_loop (fuel : nat) (coins : list Z) (dp : list Z) (amount i : Z)
  : outcome (list Z) :=
  match fuel with
  | O => OutOfFuel
  | S fuel' =>
      if i <=? amount then
        do dp <- coin_range coins dp i;
        coin_loop fuel' coins dp amount (Int64.add i 1)
      else Done dp
  end.

Definition CoinChange (coins : list Z) (amount : Z) : outcome Z :=
  do dp <- make_ints (Int64.add amount 1);
  do dp <- fill_range (length dp) dp 0 (Int64.add amount 1);
  do dp <- store dp 0 0;
  do dp <- coin_loop (S (Z.to_nat amount)) coins dp amount 1;
  do r <- index dp amount;
  if r >? amount then Done (-1) else Done r.

(** [cs] pays the amount [k] with coins of [coins]. *)
Definition pays (coins cs : list Z) (k : Z) : Prop :=
  Forall (fun c => c ∈ coins) cs /\ foldr Z.add 0 cs = k.

(** What the table of [CoinChange] holds for the amount [k]: a count [d]
    between 0 and the impossible value [amount + 1] that is at most the
    length of every payment of [k] and, unless it is the impossible value,
    the length of one. *)
Definition table_entry (coins : list Z) (amount k d : Z) : Prop :=
  0 <= d <= amount + 1 /\
  (d <= amount -> exists cs, pays coins cs k /\ len cs = d) /\
  (forall cs, pays coins cs k -> d <= len cs).

(** *** Two-dimensional tables

    A [[][]int] is a slice of rows; every row is made on its own, so no two
    rows share their elements and a write to [dp[i][j]] changes row [i]
    only. *)

(** [make([][]int, n)]: [n] nil slices. *)
Definition make_slices (n : Z) : outcome (list (list Z)) :=
  if n <? 0 then Panic else Done (replicate (Z.to_nat n) []).

(** [for i := range dp { dp[i] = make([]int, cols) }], over the [k] indices
    from [i] on. *)
Fixpoint fill_rows (k : nat) (dp : list (list Z)) (i cols : Z) : outcome (list (list Z)) :=
  match k with
  | O => Done dp
  | S k' =>
      do row <- make_ints cols;
      do dp <- store dp i row;
      fill_rows k' dp (i + 1) cols
  end.

(** [dp[i][j]] *)
Definition index2 (dp : list (list Z)) (i j : Z) : outcome Z :=
  do row <- index dp i;
  index row j.

(** [dp[i][j] = v] *)
Definition store2 (dp : list (list Z)) (i j v : Z) : outcome (list (list Z)) :=
  do row <- index dp i;
  do row <- store row j v;
  store dp i row.

(** Total views of a table with [rows] rows of [cols] elements. *)
Definition row (dp : list (list Z)) (i : Z) : list Z := default [] (dp !! Z.to_nat i).

Definition tget (dp : list (list Z)) (i j : Z) : Z := zget (row dp i) j.

Definition tset (dp : list (list Z)) (i j v : Z) : list (list Z) :=
  <[Z.to_nat i := zset (row dp i) j v]> dp.

Definition shaped (dp : list (list Z)) (rows cols : Z) : Prop :=
  len dp = rows /\ forall i, 0 <= i < rows -> len (row dp i) = cols.

(** *** Longest common subsequence *)

Fixpoint lcs_inner (fuel : nat) (text1 text2 : list ascii) (dp : list (list Z)) (i j : Z)
  : outcome (list (list Z)) :=
  match fuel with
  | O => OutOfFuel
  | S fuel' =>
      if j <=? len text2 then
        do a <- index text1 (i - 1);
        do b <- index text2 (j - 1);
        if KMP.byte_eqb a b then
          do d <- index2 dp (i - 1) (j - 1);
          do dp <- store2 dp i j (Int64.add d 1);
          lcs_inner fuel' text1 text2 dp i (j + 1)
        else
          do x <- index2 dp (i - 1) j;
          do y <- index2 dp i (j - 1);
          do dp <- store2 dp i j (max x y);
          lcs_inner fuel' text1 text2 dp i (j + 1)
      else Done dp
  end.

Fixpoint lcs_outer (fuel : nat) (text1 text2 : list ascii) (dp : list (list Z)) (i : Z)
  : outcome (list (list Z)) :=
  match fuel with
  | O => OutOfFuel
  | S fuel' =>
      if i <=? len text1 then
        do dp <- lcs_inner (S (length text2)) text1 text2 dp i 1;
        lcs_outer fuel' text1 text2 dp (i + 1)
      else Done dp
  end.

Definition LongestCommonSubsequence (text1 text2 : string) : outcome Z :=
  let text1 := KMP.bytes text1 in
  let text2 := KMP.bytes text2 in
  let m := len text1 in
  let n := len text2 in
  do dp <- make_slices (m + 1);
  do dp <- fill_rows (length dp) dp 0 (n + 1);
  do dp <- lcs_outer (S (length text1)) text1 text2 dp 1;
  index2 dp m n.

(** [d] is the length of a longest common subsequence of [a] and [b]. *)
Definition is_lcs (a b : list ascii) (d : Z) : Prop :=
  (exists s, sublist s a /\ sublist s b /\ len s = d) /\
  (forall s, sublist s a -> sublist s b -> len s <= d).

(** *** 0/1 knapsack *)

Fixpoint knapsack_inner (fuel : nat) (values weights : list Z) (dp : list (list Z))
    (capacity i w : Z) : outcome (list (list Z)) :=
  match fuel with
  | O => OutOfFuel
  | S fuel' =>
      if w <=? capacity then
        do wt <- index weights (i - 1);
        if wt <=? w then
          do v <- index values (i - 1);
          do wt <- index weights (i - 1);
          do d1 <- index2 dp (i - 1) (Int64.sub w wt);
          do d2 <- index2 dp (i - 1) w;
          do dp <- store2 dp i w (max (Int64.add v d1) d2);
          knapsack_inner fuel' values weights dp capacity i (Int64.add w 1)
        else
          do d <- index2 dp (i - 1) w;
          do dp <- store2 dp i w d;
          knapsack_inner fuel' values weights dp capacity i (Int64.add w 1)
      else Done dp
  end.

Fixpoint knapsack_outer (fuel : nat) (values weights : list Z) (dp : list (list Z))
    (capacity i : Z) : outcome (list (list Z)) :=
  match fuel with
  | O => OutOfFuel
  | S fuel' =>
      if i <=? len values then
        do dp <- knapsack_inner (S (Z.to_nat (capacity + 1))) values weights dp capacity i 0;
        knapsack_outer fuel' values weights dp capacity (i + 1)
      else Done dp
  end.

Definition KnapsackProblem (values weights : list Z) (capacity : Z) : outcome Z :=
  let n := len values in
  do dp <- make_slices (n + 1);
  do dp <- fill_rows (length dp) dp 0 (Int64.add capacity 1);
  do dp <- knapsack_outer (S (length values)) values weights dp capacity 1;
  index2 dp n capacity.

(** The total of the entries of [xs] that the selection [sel] takes. *)
Fixpoint total (sel : list bool) (xs : list Z) : Z :=
  match sel, xs with
  | b :: sel', x :: xs' => (if b then x else 0) + total sel' xs'
  | _, _ => 0
  end.

(** [d] is the best value of a selection among the items [values],
    [weights] whose weight is at most [w]. *)
Definition best_value (values weights : list Z) (w d : Z) : Prop :=
  (exists sel, length sel = length values /\ total sel weights <= w /\
               total sel values = d) /\
  (forall sel, length sel = length values -> total sel weights <= w ->
               total sel values <= d).

(** The Fibonacci numbers. *)
Fixpoint fib (n : nat) : Z :=
  match n with
  | O => 0
  | S m => match m with
           | O => 1
           | S k => fib m + fib k
           end
  end.

End DP.

(** ** 03-algorithms/sorting.go: the singly linked list *)

Module LinkedList.

(** A [*Node]: nil, or a node with its data and its [next] pointer.  The
    list owns its nodes, so an update in place of a node is written as the
    chain rebuilt around it. *)
Inductive Node : Type :=
| nil_node
| mkNode (data : Z) (next : Node).

Record LinkedList : Type := mkList { head : Node }.

(** The traversal of [Insert] to the last node, started at a node that is
    not nil, and the assignment [current.next = newNode] there. *)
Fixpoint insert_after_last (data : Z) (next : Node) (newNode : Node) : Node :=
  match next with
  | nil_node => mkNode data newNode
  | mkNode data' next' => mkNode data (insert_after_last data' next' newNode)
  end.

Definition Insert (l : LinkedList) (data : Z) : LinkedList :=
  let newNode := mkNode data nil_node in
  match head l with
  | nil_node => mkList newNode
  | mkNode d next => mkList (insert_after_last d next newNode)
  end.

(** The loop of [Delete] at [current], a node that is not nil: the chain
    from [current] on after the call, and the value returned. *)
Fixpoint delete_loop (cdata : Z) (cnext : Node) (data : Z) : Node * bool :=
  match cnext with
  | nil_node => (mkNode cdata nil_node, false)
  | mkNode ndata nnext =>
      if ndata =? data then (mkNode cdata nnext, true)
      else
        let (rest, found) := delete_loop ndata nnext data in
        (mkNode cdata rest, found)
  end.

Definition Delete (l : LinkedList) (data : Z) : LinkedList * bool :=
  match head l with
  | nil_node => (l, false)
  | mkNode hdata hnext =>
      if hdata =? data then (mkList hnext, true)
      else
        let (chain, found) := delete_loop hdata hnext data in
        (mkList chain, found)
  end.

(** The data of the nodes from [n] on, in list order: what [Print] walks
    through. *)
Fixpoint elements_from (n : Node) : list Z :=
  match n with
  | nil_node => []
  | mkNode data next => data :: elements_from next
  end.

Definition elements (l : LinkedList) : list Z := elements_from (head l).

End LinkedList.

(** ** 04-design-patterns/behavioral/chain_of_responsibility.go: the chain
    of loggers

    The loggers are objects that point to each other and [SetNext] updates
    one in place, so they live in a store: a logger is named by its
    address, the index of its object in the store. *)

Module Logging.

Definition INFO : Z := 0.
Definition DEBUG : Z := 1.
Definition ERROR : Z := 2.

Record LogEntry : Type := mkLogEntry { Message : string; Level : Z }.

(** The three implementations of [Logger]. *)
Inductive LoggerType : Type := InfoLogger | DebugLogger | ErrorLogger.

(** A logger object: its type and the [next] field of its [BaseLogger], a
    [Logger] interface value that is nil or the address of a logger. *)
Record LoggerObject : Type := mkLogger { type_of : LoggerType; next : option Z }.

Definition store_t : Type := list LoggerObject.

(** [&InfoLogger{}] and the like: a new object at the end of the store. *)
Definition new_logger (t : LoggerType) (st : store_t) : Z * store_t :=
  (len st, st ++ [mkLogger t None]).

Definition NewInfoLogger := new_logger InfoLogger.
Definition NewDebugLogger := new_logger DebugLogger.
Definition NewErrorLogger := new_logger ErrorLogger.

(** [l.next = logger] *)
Definition SetNext (st : store_t) (l : Z) (logger : option Z) : outcome store_t :=
  do o <- index st l;
  store st l (mkLogger (type_of o) logger).

Definition handled_level (t : LoggerType) : Z :=
  match t with
  | InfoLogger => INFO
  | DebugLogger => DEBUG
  | ErrorLogger => ERROR
  end.

Definition prefix_of (t : LoggerType) : string :=
  match t with
  | InfoLogger => "Info: "
  | DebugLogger => "Debug: "
  | ErrorLogger => "Error: "
  end.

(** The [Log] methods; [fuel] bounds the calls passed along the chain. *)
Fixpoint Log_rec (fuel : nat) (st : store_t) (l : Z) (entry : LogEntry) : outcome string :=
  match fuel with
  | O => OutOfFuel
  | S fuel' =>
      do o <- index st l;
      if Level entry =? handled_level (type_of o) then
        Done (prefix_of (type_of o) +:+ Message entry)
      else
        match next o with
        | Some n => Log_rec fuel' st n entry
        | None => Done EmptyString
        end
  end.

(** A chain without a cycle passes a call along at most once per object. *)
Definition Log (st : store_t) (l : Z) (entry : LogEntry) : outcome string :=
  Log_rec (S (length st)) st l entry.

Record LoggerChain : Type := mkChain { firstLogger : option Z }.

Definition NewLoggerChain (st : store_t) : outcome (LoggerChain * store_t) :=
  let (infoLogger, st) := NewInfoLogger st in
  let (debugLogger, st) := NewDebugLogger st in
  let (errorLogger, st) := NewErrorLogger st in
  do st <- SetNext st infoLogger (Some debugLogger);
  do st <- SetNext st debugLogger (Some errorLogger);
  Done (mkChain (Some infoLogger), st).

(** [c.firstLogger.Log(entry)]: a nil first logger panics. *)
Definition LoggerChain_Log (st : store_t) (c : LoggerChain) (entry : LogEntry)
  : outcome string :=
  match firstLogger c with
  | Some l => Log st l entry
  | None => Panic
  end.

End Logging.

(** ** unnamed/part_002: the weather station and its observers

    An [Observer] value is the address of the observing object, and [==]
    on two of them compares the addresses.  What [Update] does is up to the
    observer: [NotifyObservers] is modelled by the calls it makes. *)

Module Observer.
Section Float.
Variable float64 : Type.

Record WeatherStation : Type := mkStation {
observers : list Z;
temperature : float64
}.

Definition NewWeatherStation (zero : float64) : WeatherStation := mkStation [] zero.

Definition RegisterObserver (w : WeatherStation) (o : Z) : WeatherStation :=
mkStation (observers w ++ [o]) (temperature w).

(** The [range] loop of [RemoveObserver]: [rest] is what is left to visit
  and [i] the index of its head. *)
Fixpoint remove_range (observers rest : list Z) (i : Z) (o : Z) : outcome (list Z) :=
match rest with
| [] => Done observers
| observer :: rest' =>
    if observer =? o then
      do before <- slice_to observers i;
      do after <- slice_from observers (i + 1);
      Done (before ++ after)
    else remove_range observers rest' (i + 1) o
end.

Definition RemoveObserver (w : WeatherStation) (o : Z) : outcome WeatherStation :=
do obs <- remove_range (observers w) (observers w) 0 o;
Done (mkStation obs (temperature w)).

(** The [Update] calls made, in order: the observer and the argument. *)
Definition NotifyObservers (w : WeatherStation) : list (Z * float64) :=
map (fun observer => (observer, temperature w)) (observers w).

Definition SetTemperature (w : WeatherStation) (temp : float64)
: WeatherStation * list (Z * float64) :=
let w := mkStation (observers w) temp in
(w, NotifyObservers w).

End Float.
End Observer.

(** ** Vocabulary for the string searches

    Bytes are read by position, with [bget]; positions and lengths are
    integers as in the code. *)

Definition bget (l : list ascii) (k : Z) : ascii := default Ascii.zero (l !! Z.to_nat k).

(** The first [k] bytes of [p] stand in [text] from position [s] on. *)
Definition prefix_at (text p : list ascii) (s k : Z) : Prop :=
  forall t, 0 <= t < k -> bget text (s + t) = bget p t.

(** [p] occurs in [text] at [s], position by position. *)
Definition occurs (text p : list ascii) (s : Z) : Prop :=
  0 <= s /\ s + len p <= len text /\ prefix_at text p s (len p).

(** The first [k] bytes of [p] are also the last [k] of its first [n]. *)
Definition border (p : list ascii) (n k : Z) : Prop :=
  0 <= k <= n /\ forall t, 0 <= t < k -> bget p t = bget p (n - k + t).

(** [b] is the length of the longest proper prefix of [p[0..n)] that is
    also a suffix of it: what [lps[n-1]] is meant to hold. *)
Definition is_lps (p : list ascii) (n b : Z) : Prop :=
  0 <= b < n /\ border p n b /\ forall k, 0 <= k < n -> border p n k -> k <= b.

(** The table [lps] is right up to index [i] (excluded). *)
Definition lps_upto (p : list ascii) (lps : list Z) (i : Z) : Prop :=
  forall q, 0 <= q < i -> is_lps p (q + 1) (zget lps q).

(** The loop invariant of [computeLPSArray]. *)
Definition lps_inv (p : list ascii) (lps : list Z) (length_ i : Z) : Prop :=
  1 <= i /\ 0 <= length_ < i /\ len lps = len p /\
  border p i length_ /\ lps_upto p lps i /\
  (i < len p -> forall k, 0 <= k <= i -> border p (i + 1) k -> k <= length_ + 1).

(** The loop invariant of [KMPSearch]: the last [j] bytes read are the
    first [j] of the pattern; the matches found are occurrences, in
    increasing order, that end at or before [i]; and every occurrence that
    starts before [i - j] has been found. *)
Definition kmp_inv (text p : list ascii) (matches : list Z) (i j : Z) : Prop :=
  0 <= j < len p /\ j <= i <= len text /\
  prefix_at text p (i - j) j /\
  Sorted Z.lt matches /\
  (forall s, s ∈ matches -> occurs text p s /\ s + len p <= i) /\
  (forall s, 0 <= s < i - j -> occurs text p s -> s ∈ matches).

(** The loop invariant of [LongestCommonSubsequence], at row [i] and
    column [j]: the table has its shape, and the cells of row and column 0,
    of the rows before [i] and of row [i] before [j] hold the answers for
    the prefixes they stand for. *)
Definition lcs_inv (a b : list ascii) (dp : list (list Z)) (i j : Z) : Prop :=
  DP.shaped dp (len a + 1) (len b + 1) /\
  forall i' j', 0 <= i' <= len a -> 0 <= j' <= len b ->
    i' = 0 \/ j' = 0 \/ i' < i \/ (i' = i /\ j' < j) ->
    DP.is_lcs (take (Z.to_nat i') a) (take (Z.to_nat j') b) (DP.tget dp i' j').

(** The loop invariant of [KnapsackProblem], at item [i] and weight [w]:
    the cells of the rows before [i], and of row [i] before [w], hold the
    best values for the items and the weight they stand for. *)
Definition knapsack_inv (values weights : list Z) (capacity : Z)
    (dp : list (list Z)) (i w : Z) : Prop :=
  DP.shaped dp (len values + 1) (capacity + 1) /\
  forall i' w', 0 <= i' <= len values -> 0 <= w' <= capacity ->
    i' < i \/ (i' = i /\ w' < w) ->
    DP.best_value (take (Z.to_nat i') values) (take (Z.to_nat i') weights) w'
      (DP.tget dp i' w').

(** ** 03-algorithms/sorting.go: Levenshtein distance *)

Module Levenshtein.

(** [min] of three integers. *)
Definition min (a b c : Z) : Z :=
  if a <? b then (if a <? c then a else c)
  else if b <? c then b else c.

(** [for i := 0; i <= m; i++ { dp[i][0] = i }] *)
Fixpoint first_column (fuel : nat) (dp : list (list Z)) (m i : Z) : outcome (list (list Z)) :=
  match fuel with
  | O => OutOfFuel
  | S fuel' =>
      if i <=? m then
        do dp <- DP.store2 dp i 0 i;
        first_column fuel' dp m (i + 1)
      else Done dp
  end.

(** [for j := 0; j <= n; j++ { dp[0][j] = j }] *)
Fixpoint first_row (fuel : nat) (dp : list (list Z)) (n j : Z) : outcome (list (list Z)) :=
  match fuel with
  | O => OutOfFuel
  | S fuel' =>
      if j <=? n then
        do dp <- DP.store2 dp 0 j j;
        first_row fuel' dp n (j + 1)
      else Done dp
  end.

Fixpoint inner (fuel : nat) (s1 s2 : list ascii) (dp : list (list Z)) (i j : Z)
  : outcome (list (list Z)) :=
  match fuel with
  | O => OutOfFuel
  | S fuel' =>
      if j <=? len s2 then
        do a <- index s1 (i - 1);
        do b <- index s2 (j - 1);
        if KMP.byte_eqb a b then
          do d <- DP.index2 dp (i - 1) (j - 1);
          do dp <- DP.store2 dp i j d;
          inner fuel' s1 s2 dp i (j + 1)
        else
          do x <- DP.index2 dp (i - 1) j;
          do y <- DP.index2 dp i (j - 1);
          do z <- DP.index2 dp (i - 1) (j - 1);
          do dp <- DP.store2 dp i j (Int64.add 1 (min x y z));
          inner fuel' s1 s2 dp i (j + 1)
      else Done dp
  end.

Fixpoint outer (fuel : nat) (s1 s2 : list ascii) (dp : list (list Z)) (i : Z)
  : outcome (list (list Z)) :=
  match fuel with
  | O => OutOfFuel
  | S fuel' =>
      if i <=? len s1 then
        do dp <- inner (S (length s2)) s1 s2 dp i 1;
        outer fuel' s1 s2 dp (i + 1)
      else Done dp
  end.

Definition LevenshteinDistance (s1 s2 : string) : outcome Z :=
  let s1 := KMP.bytes s1 in
  let s2 := KMP.bytes s2 in
  let m := len s1 in
  let n := len s2 in
  do dp <- DP.make_slices (m + 1);
  do dp <- DP.fill_rows (length dp) dp 0 (n + 1);
  do dp <- first_column (S (S (length s1))) dp m 0;
  do dp <- first_row (S (S (length s2))) dp n 0;
  do dp <- outer (S (length s1)) s1 s2 dp 1;
  DP.index2 dp m n.

(** [edits a b n]: [a] is changed into [b] by [n] single-character edits,
    read off an alignment of the two strings from left to right: a
    character is kept, replaced by another, deleted from [a], or inserted
    from [b]. *)
Inductive edits : list ascii -> list ascii -> Z -> Prop :=
| edits_nil : edits [] [] 0
| edits_keep x a b n : edits a b n -> edits (x :: a) (x :: b) n
| edits_replace x y a b n : edits a b n -> edits (x :: a) (y :: b) (n + 1)
| edits_delete x a b n : edits a b n -> edits (x :: a) b (n + 1)
| edits_insert y a b n : edits a b n -> edits a (y :: b) (n + 1).

(** [d] is the least number of edits that change [a] into [b]. *)
Definition is_distance (a b : list ascii) (d : Z) : Prop :=
  edits a b d /\ forall n, edits a b n -> d <= n.

(** The loop invariant of the main loops, at row [i] and column [j]. *)
Definition inv (a b : list ascii) (dp : list (list Z)) (i j : Z) : Prop :=
  DP.shaped dp (len a + 1) (len b + 1) /\
  forall i' j', 0 <= i' <= len a -> 0 <= j' <= len b ->
    i' = 0 \/ j' = 0 \/ i' < i \/ (i' = i /\ j' < j) ->
    is_distance (take (Z.to_nat i') a) (take (Z.to_nat j') b) (DP.tget dp i' j').

End Levenshtein.

(** ** 03-algorithms/sorting.go: longest palindromic substring *)

Module Palindrome.

(** [make([]bool, n)] and [make([][]bool, n)] *)
Definition make_bools (n : Z) : outcome (list bool) :=
  if n <? 0 then Panic else Done (replicate (Z.to_nat n) false).

Definition make_slices (n : Z) : outcome (list (list bool)) :=
  if n <? 0 then Panic else Done (replicate (Z.to_nat n) []).

(** [table[i][j]] and [table[i][j] = v] *)
Definition index2 (table : list (list bool)) (i j : Z) : outcome bool :=
  do row <- index table i;
  index row j.

Definition store2 (table : list (list bool)) (i j : Z) (v : bool)
  : outcome (list (list bool)) :=
  do row <- index table i;
  do row <- store row j v;
  store table i row.

(** The first loop: the rows are made and the diagonal is set; over the
    [k] indices from [i] on. *)
Fixpoint init_rows (k : nat) (table : list (list bool)) (i n : Z)
  : outcome (list (list bool)) :=
  match k with
  | O => Done table
  | S k' =>
      do row <- make_bools n;
      do table <- store table i row;
      do table <- store2 table i i true;
      init_rows k' table (i + 1) n
  end.

(** The loop over the substrings of length 2. *)
Fixpoint pairs (fuel : nat) (s : list ascii) (table : list (list bool))
    (start maxLength i : Z) : outcome (list (list bool) * Z * Z) :=
  match fuel with
  | O => OutOfFuel
  | S fuel' =>
      if i <? len s - 1 then
        do a <- index s i;
        do b <- index s (i + 1);
        if KMP.byte_eqb a b then
          do table <- store2 table i (i + 1) true;
          pairs fuel' s table i 2 (i + 1)
        else pairs fuel' s table start maxLength (i + 1)
      else Done (table, start, maxLength)
  end.

(** The loops over the substrings of length [length_], from 3 on. *)
Fixpoint inner (fuel : nat) (s : list ascii) (table : list (list bool))
    (start maxLength length_ i : Z) : outcome (list (list bool) * Z * Z) :=
  match fuel with
  | O => OutOfFuel
  | S fuel' =>
      if i <? len s - length_ + 1 then
        let j := i + length_ - 1 in
        do t <- index2 table (i + 1) (j - 1);
        if t then
          do a <- index s i;
          do b <- index s j;
          if KMP.byte_eqb a b then
            do table <- store2 table i j true;
            if length_ >? maxLength then inner fuel' s table i length_ length_ (i + 1)
            else inner fuel' s table start maxLength length_ (i + 1)
          else inner fuel' s table start maxLength length_ (i + 1)
        else inner fuel' s table start maxLength length_ (i + 1)
      else Done (table, start, maxLength)
  end.

Fixpoint outer (fuel : nat) (s : list ascii) (table : list (list bool))
    (start maxLength length_ : Z) : outcome (list (list bool) * Z * Z) :=
  match fuel with
  | O => OutOfFuel
  | S fuel' =>
      if length_ <=? len s then
        do (table, start, maxLength) <-
          inner (S (length s)) s table start maxLength length_ 0;
        outer fuel' s table start maxLength (length_ + 1)
      else Done (table, start, maxLength)
  end.

Definition LongestPalindromicSubstring (s : string) : outcome string :=
  let bs := KMP.bytes s in
  let n := len bs in
  if n <? 2 then Done s
  else
    do table <- make_slices n;
    do table <- init_rows (length table) table 0 n;
    do (table, start, maxLength) <- pairs (S (length bs)) bs table 0 1 0;
    do (table, start, maxLength) <- outer (S (length bs)) bs table start maxLength 3;
    do r <- slice bs start (start + maxLength);
    Done (String.string_of_list_ascii r).

(** [s[i..j]], both ends included, reads the same in both directions. *)
Definition pal (s : list ascii) (i j : Z) : Prop :=
  forall t, 0 <= t <= j - i -> bget s (i + t) = bget s (j - t).

(** Total views of the table. *)
Definition row (table : list (list bool)) (i : Z) : list bool :=
  default [] (table !! Z.to_nat i).

Definition tget (table : list (list bool)) (i j : Z) : bool :=
  default false (row table i !! Z.to_nat j).

Definition tset (table : list (list bool)) (i j : Z) (v : bool) : list (list bool) :=
  <[Z.to_nat i := <[Z.to_nat j := v]> (row table i)]> table.

Definition shaped (table : list (list bool)) (n : Z) : Prop :=
  len table = n /\ forall i, 0 <= i < n -> len (row table i) = n.

(** The substrings looked at so far: those shorter than [length_], and
    those of that length that start before [i]. *)
Definition seen (length_ i i' j' : Z) : Prop :=
  j' - i' + 1 < length_ \/ (j' - i' + 1 = length_ /\ i' < i).

(** The loop invariant: the table marks exactly the palindromes among the
    substrings seen, and [start], [maxLength] name a longest one of them. *)
Definition inv (s : list ascii) (table : list (list bool))
    (start maxLength length_ i : Z) : Prop :=
  shaped table (len s) /\
  (forall i' j', 0 <= i' -> i' <= j' -> j' < len s ->
     tget table i' j' = true <-> pal s i' j' /\ seen length_ i i' j') /\
  0 <= start /\ 1 <= maxLength /\ start + maxLength <= len s /\
  pal s start (start + maxLength - 1) /\
  (forall i' j', 0 <= i' -> i' <= j' -> j' < len s ->
     pal s i' j' -> seen length_ i i' j' -> j' - i' + 1 <= maxLength).

End Palindrome.


(** * Array primitives *)

Section ArrayFacts.
Context {A : Type}.
Implicit Types (arr : list A) (i : Z) (v : A).

Lemma index_Done arr i v :
  index arr i = Done v <-> 0 <= i /\ arr !! Z.to_nat i = Some v.
Proof.
  unfold index. destruct (Z.leb_spec 0 i) as [Hi|Hi].
  - destruct (arr !! Z.to_nat i) eqn:E; split; intros H.
    + inversion H; subst; auto.
    + destruct H as [_ H]. congruence.
    + discriminate.
    + destruct H as [_ H]. discriminate.
  - split; [discriminate | lia].
Qed.

Lemma index_in_range arr i :
  0 <= i < len arr -> exists v, index arr i = Done v /\ arr !! Z.to_nat i = Some v.
Proof.
  intros [H0 H1]. unfold len in H1.
  destruct (lookup_lt_is_Some_2 arr (Z.to_nat i)) as [v Hv]; [lia|].
  exists v. split; [|done]. apply index_Done. auto.
Qed.

Lemma index_out_of_range arr i :
  ~ (0 <= i < len arr) -> index arr i = Panic.
Proof.
  intros H. unfold index, len in *. destruct (Z.leb_spec 0 i); [|done].
  rewrite lookup_ge_None_2; [done | lia].
Qed.

Lemma store_in_range arr i v :
  0 <= i < len arr -> store arr i v = Done (<[Z.to_nat i := v]> arr).
Proof.
  intros [H0 H1]. unfold store, len in *.
  destruct (Z.leb_spec 0 i); [|lia]. destruct (Z.ltb_spec i (Z.of_nat (length arr))); [done | lia].
Qed.

Lemma slice_in_range arr lo hi :
  0 <= lo <= hi -> hi <= len arr ->
  slice arr lo hi = Done (take (Z.to_nat (hi - lo)) (drop (Z.to_nat lo) arr)).
Proof.
  intros [H0 H1] H2. unfold slice.
  destruct (Z.leb_spec 0 lo); [|lia]. destruct (Z.leb_spec lo hi); [|lia].
  destruct (Z.leb_spec hi (len arr)); [done | lia].
Qed.

Lemma slice_to_in_range arr hi :
  0 <= hi <= len arr -> slice_to arr hi = Done (take (Z.to_nat hi) arr).
Proof.
  intros H. unfold slice_to. rewrite slice_in_range by lia.
  rewrite Z.sub_0_r. done.
Qed.

Lemma slice_from_in_range arr lo :
  0 <= lo <= len arr -> slice_from arr lo = Done (drop (Z.to_nat lo) arr).
Proof.
  intros H. unfold slice_from. rewrite slice_in_range by lia.
  f_equal. apply take_ge. rewrite length_drop. unfold len. lia.
Qed.

Lemma len_app arr1 arr2 : len (arr1 ++ arr2) = len arr1 + len arr2.
Proof. unfold len. rewrite length_app. lia. Qed.

Lemma len_nonneg arr : 0 <= len arr.
Proof. unfold len. lia. Qed.

End ArrayFacts.


(** * Stack and queue *)

Section StackQueue.

Lemma stack_items_nil (s : Stack.Stack) : Stack.Size s = 0 -> s = Stack.mkStack [].
Proof.
  destruct s as [l]. unfold Stack.Size, len. simpl.
  destruct l; [done | simpl; lia].
Qed.

Lemma queue_items_nil (q : Queue.Queue) : Queue.Size q = 0 -> q = Queue.mkQueue [].
Proof.
  destruct q as [l]. unfold Queue.Size, len. simpl.
  destruct l; [done | simpl; lia].
Qed.

Lemma push_all_items vs l :
  push_all vs (Stack.mkStack l) = Stack.mkStack (l ++ vs).
Proof.
  revert l. induction vs as [|v vs IH]; intros l; simpl.
  - by rewrite app_nil_r.
  - change (push_all vs (Stack.Push (Stack.mkStack l) v) = Stack.mkStack (l ++ v :: vs)).
    unfold Stack.Push. simpl. rewrite IH. by rewrite <- app_assoc.
Qed.

Lemma enqueue_all_items vs l :
  enqueue_all vs (Queue.mkQueue l) = Queue.mkQueue (l ++ vs).
Proof.
  revert l. induction vs as [|v vs IH]; intros l; simpl.
  - by rewrite app_nil_r.
  - change (enqueue_all vs (Queue.Enqueue (Queue.mkQueue l) v) = Queue.mkQueue (l ++ v :: vs)).
    unfold Queue.Enqueue. simpl. rewrite IH. by rewrite <- app_assoc.
Qed.

Lemma Pop_snoc l x :
  Stack.Pop (Stack.mkStack (l ++ [x])) = Done ((x, None), Stack.mkStack l).
Proof.
  unfold Stack.Pop. simpl Stack.items.
  assert (Hlen : len (l ++ [x]) = len l + 1) by (rewrite len_app; done).
  pose proof (len_nonneg l) as Hl.
  destruct (Z.eqb_spec (len (l ++ [x])) 0) as [E|_]; [lia|].
  replace (len (l ++ [x]) - 1) with (len l) by lia.
  assert (Hix : index (l ++ [x]) (len l) = Done x).
  { apply index_Done. split; [done|]. unfold len. rewrite Nat2Z.id.
    by rewrite list_lookup_middle. }
  rewrite Hix. simpl. rewrite slice_to_in_range by lia. simpl.
  unfold len. rewrite Nat2Z.id, take_app_length. done.
Qed.

Lemma Dequeue_cons x l :
  Queue.Dequeue (Queue.mkQueue (x :: l)) = Done ((x, None), Queue.mkQueue l).
Proof.
  unfold Queue.Dequeue. simpl Queue.items.
  pose proof (len_nonneg l) as Hl.
  assert (Hlen : len (x :: l) = len l + 1) by (unfold len; simpl; lia).
  destruct (Z.eqb_spec (len (x :: l)) 0) as [E|_]; [lia|].
  simpl. rewrite slice_from_in_range by lia. done.
Qed.

Lemma pop_n_app l vs :
  pop_n (length vs) (Stack.mkStack (l ++ vs))
  = Done ((fun v => (v, None)) <$> reverse vs, Stack.mkStack l).
Proof.
  induction vs as [|x vs IH] using rev_ind; simpl.
  - by rewrite app_nil_r.
  - rewrite length_app, Nat.add_comm. simpl.
    rewrite app_assoc, Pop_snoc. simpl. rewrite IH. simpl.
    by rewrite reverse_app.
Qed.

Lemma dequeue_n_all vs :
  dequeue_n (length vs) (Queue.mkQueue vs)
  = Done ((fun v => (v, None)) <$> vs, Queue.mkQueue []).
Proof.
  induction vs as [|x vs IH]; simpl; [done|].
  rewrite Dequeue_cons. simpl. rewrite IH. done.
Qed.

End StackQueue.

(** C4: on an empty stack [Pop] and [Peek], and on an empty queue [Dequeue]
    and [Peek], complete without a panic, return a non-nil error, and leave
    the container as it was, with [Size] still [0]. *)
Theorem empty_container_reports_error (s : Stack.Stack) (q : Queue.Queue) :
  Stack.Size s = 0 -> Queue.Size q = 0 ->
  (exists v e, Stack.Pop s = Done ((v, Some e), s)) /\
  (exists v e, Stack.Peek s = Done (v, Some e)) /\
  (exists v e, Queue.Dequeue q = Done ((v, Some e), q)) /\
  (exists v e, Queue.Peek q = Done (v, Some e)) /\
  (forall r s', Stack.Pop s = Done (r, s') -> s' = s /\ Stack.Size s' = 0) /\
  (forall r q', Queue.Dequeue q = Done (r, q') -> q' = q /\ Queue.Size q' = 0).
Proof.
  intros Hs Hq.
  unfold Stack.Pop, Stack.Peek, Queue.Dequeue, Queue.Peek.
  unfold Stack.Size in Hs. unfold Queue.Size in Hq. rewrite Hs, Hq. simpl.
  do 4 (split; [eauto|]).
  split; intros r x H; inversion H; subst; auto.
Qed.

Lemma empty_container_reports_error_witness :
  (exists v e, Stack.Pop (Stack.mkStack []) = Done ((v, Some e), Stack.mkStack [])) /\
  (exists v e, Queue.Dequeue (Queue.mkQueue []) = Done ((v, Some e), Queue.mkQueue [])).
Proof.
  pose proof (empty_container_reports_error (Stack.mkStack []) (Queue.mkQueue [])
                ltac:(reflexivity) ltac:(reflexivity)) as (H1 & _ & H3 & _).
  exact (conj H1 H3).
Defined.

(** C5: N pushes followed by N pops return the values in reverse insertion
    order, N enqueues followed by N dequeues return them in insertion order;
    every call returns a nil error and the container ends empty. *)
Theorem push_pop_lifo_enqueue_dequeue_fifo (vs : list Z) :
  pop_n (length vs) (push_all vs (Stack.mkStack []))
    = Done ((fun v => (v, None)) <$> reverse vs, Stack.mkStack []) /\
  dequeue_n (length vs) (enqueue_all vs (Queue.mkQueue []))
    = Done ((fun v => (v, None)) <$> vs, Queue.mkQueue []).
Proof.
  split.
  - rewrite push_all_items. apply (pop_n_app [] vs).
  - rewrite enqueue_all_items. apply dequeue_n_all.
Qed.


(** * Binary search tree *)

Section TreeFacts.
Import Tree.

Lemma inorderRecursive_values node result :
  inorderRecursive node result = result ++ values_of node.
Proof.
  revert result. induction node as [|v l IHl r IHr]; intros result; simpl.
  - by rewrite app_nil_r.
  - rewrite IHr, IHl. by rewrite <- !app_assoc.
Qed.

Lemma InorderTraversal_values t : InorderTraversal t = values_of (Root t).
Proof. unfold InorderTraversal. by rewrite inorderRecursive_values. Qed.

Lemma perm_insert_right (l r : list Z) (v x : Z) :
  l ++ v :: x :: r ≡ₚ x :: l ++ v :: r.
Proof.
  rewrite (Permutation_middle l (v :: r) x).
  apply Permutation_app_head, perm_swap.
Qed.

(** On a non-nil node [insertRecursive] completes; it adds exactly the new
    value and keeps the weak ordering. *)
Lemma insertRecursive_spec node x :
  node <> Nil ->
  exists node',
    insertRecursive node x = Done node' /\
    node' <> Nil /\
    values_of node' ≡ₚ x :: values_of node /\
    (weak_bst node -> weak_bst node').
Proof.
  induction node as [|v l IHl r IHr]; intros Hne; [done|].
  simpl. destruct (Z.ltb_spec x v) as [Hlt|Hge].
  - destruct l as [|lv ll lr].
    + eexists. split; [reflexivity|]. split; [done|]. split; [done|].
      simpl. intros (_ & Hr & _ & Wr). repeat split; auto.
    + destruct IHl as (l' & El & Nl & Pl & Wl); [done|].
      rewrite El. simpl. eexists. split; [reflexivity|]. split; [done|]. split.
      * simpl. rewrite Pl. done.
      * intros (Hl & Hr & Wl0 & Wr). simpl. repeat split; auto.
        rewrite Pl. constructor; done.
  - destruct r as [|rv rl rr].
    + eexists. split; [reflexivity|]. split; [done|]. split.
      * simpl. apply perm_insert_right.
      * simpl. intros (Hl & _ & Wl & _). repeat split; auto.
    + destruct IHr as (r' & Er & Nr & Pr & Wr); [done|].
      rewrite Er. simpl. eexists. split; [reflexivity|]. split; [done|]. split.
      * simpl. rewrite Pr. apply perm_insert_right.
      * intros (Hl & Hr & Wl & Wr0). simpl. repeat split; auto.
        rewrite Pr. constructor; done.
Qed.

Lemma Insert_spec t x :
  exists t',
    Insert t x = Done t' /\
    values_of (Root t') ≡ₚ x :: values_of (Root t) /\
    (weak_bst (Root t) -> weak_bst (Root t')).
Proof.
  destruct t as [root]. unfold Insert. simpl. destruct root as [|v l r].
  - eexists. split; [reflexivity|]. simpl. split; [done|]. intros _. repeat split; auto.
  - destruct (insertRecursive_spec (Node v l r) x) as (n' & E & _ & P & W); [done|].
    rewrite E. simpl. eexists. split; [reflexivity|]. simpl. auto.
Qed.

Lemma insert_all_spec values t :
  exists t',
    insert_all values t = Done t' /\
    values_of (Root t') ≡ₚ values_of (Root t) ++ values /\
    (weak_bst (Root t) -> weak_bst (Root t')).
Proof.
  revert t. induction values as [|x values IH]; intros t; simpl.
  - exists t. rewrite app_nil_r. auto.
  - destruct (Insert_spec t x) as (t1 & E1 & P1 & W1). rewrite E1. simpl.
    destruct (IH t1) as (t' & E & P & W). exists t'. split; [done|]. split; [|auto].
    rewrite P, P1. simpl. apply Permutation_middle.
Qed.

(** In a weakly ordered tree the in-order list of values is non-decreasing. *)
Lemma weak_bst_sorted node : weak_bst node -> StronglySorted Z.le (values_of node).
Proof.
  induction node as [|v l IHl r IHr]; simpl.
  - intros _. constructor.
  - intros (Hl & Hr & Wl & Wr).
    apply StronglySorted_app_2; auto.
    + intros x1 x2 H1 H2. rewrite Forall_forall in Hl, Hr.
      apply Hl in H1. apply elem_of_cons in H2 as [->|H2]; [lia|].
      apply Hr in H2. lia.
    + constructor; auto.
Qed.

End TreeFacts.

(** C3 (code evaluated at the failing input): inserting the value 5 twice
    yields a tree whose root has an equal value in its right subtree, so the
    strict ordering stated in the doc comment of [Insert] is broken. *)
Theorem duplicate_insert_breaks_strict_order :
  Tree.insert_all [5; 5] (Tree.mkTree Tree.Nil)
    = Done (Tree.mkTree (Tree.Node 5 Tree.Nil (Tree.Node 5 Tree.Nil Tree.Nil))) /\
  ~ Tree.strict_bst (Tree.Node 5 Tree.Nil (Tree.Node 5 Tree.Nil Tree.Nil)).
Proof.
  split; [reflexivity|].
  simpl. intros (_ & H & _). inversion H; subst. lia.
Qed.

(** C9: after any sequence of [Insert] calls on the empty tree, duplicates
    included, [InorderTraversal] returns a non-decreasing list that is a
    permutation of the inserted values. *)
Theorem inorder_sorted_permutation (values : list Z) :
  exists t,
    Tree.insert_all values (Tree.mkTree Tree.Nil) = Done t /\
    Sorted Z.le (Tree.InorderTraversal t) /\
    Tree.InorderTraversal t ≡ₚ values.
Proof.
  destruct (insert_all_spec values (Tree.mkTree Tree.Nil)) as (t & E & P & W).
  exists t. split; [done|]. rewrite InorderTraversal_values. split.
  - apply StronglySorted_Sorted, weak_bst_sorted, W. simpl. done.
  - rewrite P. done.
Qed.


(** * Sortedness by index *)

Section SortedIndex.

Lemma StronglySorted_sorted_idx arr : StronglySorted Z.le arr -> sorted_idx arr.
Proof.
  induction 1 as [|x l Hl IH Hx]; intros i j a b Hij Hi Hj.
  - by rewrite lookup_nil in Hi.
  - destruct i as [|i], j as [|j]; simpl in *.
    + inversion Hi; inversion Hj; subst. lia.
    + inversion Hi; subst. rewrite Forall_forall in Hx.
      apply Hx. by eapply list_elem_of_lookup_2.
    + lia.
    + eapply IH; [|eassumption..]. lia.
Qed.

Lemma sorted_idx_StronglySorted arr : sorted_idx arr -> StronglySorted Z.le arr.
Proof.
  induction arr as [|x l IH]; intros H; constructor.
  - apply IH. intros i j a b Hij Hi Hj. by apply (H (S i) (S j) a b); [lia|..].
  - apply Forall_forall. intros y Hy.
    apply list_elem_of_lookup_1 in Hy as [j Hj].
    by apply (H O (S j) x y); [lia|..].
Qed.

Lemma Sorted_sorted_idx arr : Sorted Z.le arr -> sorted_idx arr.
Proof.
  intros H. apply StronglySorted_sorted_idx, Sorted_StronglySorted; [|done].
  intros x y z. apply Z.le_trans.
Qed.

Lemma sorted_idx_Sorted arr : sorted_idx arr -> Sorted Z.le arr.
Proof. intros H. by apply StronglySorted_Sorted, sorted_idx_StronglySorted. Qed.

End SortedIndex.

(** * Searching *)

Section SearchFacts.
Import Search.

Lemma quot2_bounds d : 0 <= d -> 0 <= d ÷ 2 <= d.
Proof. intros H. Z.to_euclidean_division_equations. lia. Qed.

Lemma binary_loop_spec arr target :
  sorted_idx arr ->
  forall (fuel : nat) (left right : Z),
    0 <= left -> right < len arr -> left <= right + 1 ->
    right - left + 1 < Z.of_nat fuel ->
    (forall k : nat, arr !! k = Some target -> left <= Z.of_nat k <= right) ->
    exists i, binary_loop fuel arr target left right = Done i /\
      ((0 <= i /\ arr !! Z.to_nat i = Some target) \/ (i = -1 /\ target ∉ arr)).
Proof.
  intros Hs. induction fuel as [|fuel IH]; intros left right Hl Hr Hlr Hf Hwin; [lia|].
  simpl. destruct (Z.leb_spec left right) as [Hle|Hgt].
  - pose proof (quot2_bounds (right - left) ltac:(lia)) as Hq.
    set (mid := left + (right - left) ÷ 2) in *.
    assert (Hmid : left <= mid <= right) by (subst mid; lia).
    clearbody mid. clear Hq.
    destruct (index_in_range arr mid) as (v & Ev & Lv); [lia|].
    rewrite Ev. simpl. destruct (Z.eqb_spec v target) as [->|Hne].
    + exists mid. split; [done|]. left. split; [lia | done].
    + destruct (Z.ltb_spec v target) as [Hlt|Hge].
      * apply IH; [lia..|]. intros k Hk.
        specialize (Hwin k Hk). split; [|lia].
        destruct (Z.le_gt_cases (Z.of_nat k) mid) as [Hkm|]; [|lia].
        assert (target <= v); [|lia].
        apply (Hs k (Z.to_nat mid)); [lia | done | done].
      * apply IH; [lia..|]. intros k Hk.
        specialize (Hwin k Hk). split; [lia|].
        destruct (Z.le_gt_cases mid (Z.of_nat k)) as [Hkm|]; [|lia].
        assert (v <= target); [|lia].
        apply (Hs (Z.to_nat mid) k); [lia | done | done].
  - exists (-1). split; [done|]. right. split; [done|].
    intros Hin. apply list_elem_of_lookup_1 in Hin as [k Hk].
    specialize (Hwin k Hk). lia.
Qed.

End SearchFacts.

(** C2: on an array sorted in non-decreasing order [BinarySearch] returns an
    index holding the target when the target occurs, and [-1] when it does
    not. *)
Theorem BinarySearch_correct (arr : list Z) (target : Z) :
  Sorted Z.le arr ->
  (target ∈ arr ->
     exists i, Search.BinarySearch arr target = Done i /\
               0 <= i < len arr /\ index arr i = Done target) /\
  (target ∉ arr -> Search.BinarySearch arr target = Done (-1)).
Proof.
  intros Hs. apply Sorted_sorted_idx in Hs.
  destruct (binary_loop_spec arr target Hs (S (length arr)) 0 (len arr - 1))
    as (i & E & Hi); [unfold len; lia.. | |].
  { intros k Hk. apply lookup_lt_Some in Hk. unfold len. lia. }
  unfold Search.BinarySearch. rewrite E. split; intros Hin.
  - destruct Hi as [[H0 Hi]|[_ Hn]]; [|done].
    exists i. split; [done|]. split.
    + apply lookup_lt_Some in Hi. unfold len. lia.
    + apply index_Done. done.
  - destruct Hi as [[H0 Hi]|[-> _]]; [|done].
    exfalso. apply Hin. by eapply list_elem_of_lookup_2.
Qed.

Lemma BinarySearch_correct_witness :
  exists i, Search.BinarySearch [1; 3; 5; 7; 9] 7 = Done i /\
            0 <= i < len [1; 3; 5; 7; 9] /\ index [1; 3; 5; 7; 9] i = Done 7.
Proof.
  apply (BinarySearch_correct [1; 3; 5; 7; 9] 7).
  - repeat constructor; lia.
  - apply list_elem_of_In. simpl. tauto.
Defined.

(** C10: on the empty array the first block probe of [JumpSearch] reads
    [arr[min(step, n) - 1]] with index [-1], which panics, while
    [LinearSearch] and [BinarySearch] return [-1]. *)
Theorem JumpSearch_empty_panics (target : Z) :
  Search.min (Search.isqrt (len (@nil Z))) (len (@nil Z)) - 1 = -1 /\
  index (@nil Z) (-1) = Panic /\
  Search.JumpSearch [] target = Panic /\
  Search.LinearSearch [] target = -1 /\
  Search.BinarySearch [] target = Done (-1).
Proof. repeat split; reflexivity. Qed.


(** * Knuth-Morris-Pratt *)

Example computeLPSArray_AABA :
  KMP.computeLPSArray (KMP.bytes "AABA") = Done [0; 1; 0; 1].
Proof. vm_compute. reflexivity. Qed.

(** C7: [KMPSearch("AABAACAADAABAAABAA", "AABA")] returns the match start
    indices [0, 9, 13]. *)
Theorem KMPSearch_example :
  KMP.KMPSearch "AABAACAADAABAAABAA" "AABA" = Done [0; 9; 13].
Proof. vm_compute. reflexivity. Qed.


(** * Arrays updated in place *)

Section ArrayView.
Implicit Types (arr : list Z) (i j k v x : Z).

Lemma zget_lookup arr k :
  0 <= k < len arr -> arr !! Z.to_nat k = Some (zget arr k).
Proof.
  intros H. unfold zget, len in *.
  destruct (lookup_lt_is_Some_2 arr (Z.to_nat k)) as [v ->]; [lia | done].
Qed.

Lemma index_zget arr k : 0 <= k < len arr -> index arr k = Done (zget arr k).
Proof. intros H. apply index_Done. split; [lia|]. by apply zget_lookup. Qed.

Lemma store_zset arr k v : 0 <= k < len arr -> store arr k v = Done (zset arr k v).
Proof. apply store_in_range. Qed.

Lemma len_zset arr k v : len (zset arr k v) = len arr.
Proof. unfold len, zset. by rewrite length_insert. Qed.

Lemma zget_zset_eq arr k v : 0 <= k < len arr -> zget (zset arr k v) k = v.
Proof.
  intros H. unfold zget, zset, len in *.
  rewrite list_lookup_insert_eq by lia. done.
Qed.

Lemma zget_zset_ne arr k j v : 0 <= k -> 0 <= j -> k <> j -> zget (zset arr k v) j = zget arr j.
Proof.
  intros Hk Hj Hne. unfold zget, zset.
  rewrite list_lookup_insert_ne by lia. done.
Qed.

Lemma zset_zget_id arr k : 0 <= k < len arr -> zset arr k (zget arr k) = arr.
Proof. intros H. unfold zset. apply list_insert_id. by apply zget_lookup. Qed.

Lemma swap_zset arr i j :
  0 <= i < len arr -> 0 <= j < len arr ->
  Sorting.swap arr i j = Done (zset (zset arr i (zget arr j)) j (zget arr i)).
Proof.
  intros Hi Hj. unfold Sorting.swap.
  rewrite (index_zget arr j), (index_zget arr i) by done. simpl.
  rewrite store_zset by done. simpl.
  rewrite store_zset by (rewrite len_zset; done). done.
Qed.

Lemma swap_perm arr i j :
  0 <= i < len arr -> 0 <= j < len arr ->
  zset (zset arr i (zget arr j)) j (zget arr i) ≡ₚ arr.
Proof.
  intros Hi Hj. unfold zset.
  apply Permutation_insert_swap; by apply zget_lookup.
Qed.

(** Sortedness of the whole array, from the index view. *)
Lemma seg_sorted_Sorted arr : seg_sorted arr 0 (len arr - 1) -> Sorted Z.le arr.
Proof.
  intros H. apply sorted_idx_Sorted. intros i j a b Hij Hi Hj.
  pose proof (lookup_lt_Some _ _ _ Hi) as Li.
  pose proof (lookup_lt_Some _ _ _ Hj) as Lj.
  specialize (H (Z.of_nat i) (Z.of_nat j)).
  unfold zget, len in H. rewrite !Nat2Z.id, Hi, Hj in H. simpl in H.
  apply H; lia.
Qed.

(** Adjacent order on a segment gives order on the segment. *)
Lemma adjacent_seg_sorted arr lo hi :
  (forall k, lo <= k < hi -> zget arr k <= zget arr (k + 1)) ->
  seg_sorted arr lo hi.
Proof.
  intros H k1 k2 H1 H12 H2.
  replace k2 with (k1 + Z.of_nat (Z.to_nat (k2 - k1))) in * by lia.
  generalize dependent (Z.to_nat (k2 - k1)). intros d. induction d as [|d IH]; intros.
  - rewrite Z.add_0_r. lia.
  - etransitivity; [apply IH; lia|].
    replace (k1 + Z.of_nat (S d)) with (k1 + Z.of_nat d + 1) by lia.
    apply H. lia.
Qed.

(** ** Rearrangements inside a segment *)

Lemma seg_step_refl arr lo hi : seg_step arr arr lo hi.
Proof. by constructor. Qed.

Lemma seg_step_trans arr1 arr2 arr3 lo hi :
  seg_step arr1 arr2 lo hi -> seg_step arr2 arr3 lo hi -> seg_step arr1 arr3 lo hi.
Proof.
  intros [L1 P1 O1 U1 G1] [L2 P2 O2 U2 G2]. constructor.
  - congruence.
  - by rewrite P2.
  - intros k Hk Ho. rewrite O2; [by apply O1 | by rewrite L1 | done].
  - auto.
  - auto.
Qed.

Lemma seg_step_widen arr arr' lo hi lo' hi' :
  lo' <= lo -> hi <= hi' -> 0 <= lo' -> hi' < len arr ->
  seg_step arr arr' lo hi -> seg_step arr arr' lo' hi'.
Proof.
  intros Hlo Hhi H0 Hn [L P O U G]. constructor; [done | done | | |].
  - intros k Hk Ho. apply O; [done | lia].
  - intros x Hx k Hk.
    destruct (decide (lo <= k <= hi)) as [Hin|Hout].
    + apply (U x); [|done]. intros k' Hk'. apply Hx. lia.
    + rewrite O; [apply Hx; lia | lia | lia].
  - intros x Hx k Hk.
    destruct (decide (lo <= k <= hi)) as [Hin|Hout].
    + apply (G x); [|done]. intros k' Hk'. apply Hx. lia.
    + rewrite O; [apply Hx; lia | lia | lia].
Qed.

Lemma zget_swap arr i j k :
  0 <= i < len arr -> 0 <= j < len arr -> 0 <= k ->
  zget (zset (zset arr i (zget arr j)) j (zget arr i)) k
  = if decide (k = j) then zget arr i
    else if decide (k = i) then zget arr j else zget arr k.
Proof.
  intros Hi Hj Hk. destruct (decide (k = j)) as [->|Hkj].
  - rewrite zget_zset_eq; [done|]. rewrite len_zset. lia.
  - rewrite zget_zset_ne by lia. destruct (decide (k = i)) as [->|Hki].
    + rewrite zget_zset_eq; [done | lia].
    + rewrite zget_zset_ne by lia. done.
Qed.

Lemma seg_step_swap arr lo hi i j :
  0 <= lo -> hi < len arr -> lo <= i <= hi -> lo <= j <= hi ->
  seg_step arr (zset (zset arr i (zget arr j)) j (zget arr i)) lo hi.
Proof.
  intros H0 Hn Hi Hj.
  assert (Hget : forall k, 0 <= k < len arr ->
            zget (zset (zset arr i (zget arr j)) j (zget arr i)) k
            = if decide (k = j) then zget arr i
              else if decide (k = i) then zget arr j else zget arr k).
  { intros k Hk. apply zget_swap; lia. }
  constructor.
  - by rewrite !len_zset.
  - apply swap_perm; lia.
  - intros k Hk Ho. rewrite Hget by done. repeat case_decide; (done || lia).
  - intros x Hx k Hk. rewrite Hget by lia. repeat case_decide; apply Hx; lia.
  - intros x Hx k Hk. rewrite Hget by lia. repeat case_decide; apply Hx; lia.
Qed.

End ArrayView.


(** * BubbleSort *)

Section BubbleSortFacts.
Import Sorting.

(** One pass over [arr[0..m]], [m = n - i - 1], resumed at [j]: the
    element at [j] is the largest of [arr[0..j]]; while no swap happened
    the part already scanned is in order. *)
Lemma bubble_inner_spec (fuel : nat) : forall arr n i j swapped,
  0 <= j -> j <= n - i - 1 -> n - i - 1 < len arr ->
  n - i - 1 - j < Z.of_nat fuel ->
  (forall k, 0 <= k <= j -> zget arr k <= zget arr j) ->
  (swapped = false -> forall k, 0 <= k < j -> zget arr k <= zget arr (k + 1)) ->
  exists arr' sw,
    bubble_inner fuel arr n i j swapped = Done (arr', sw) /\
    seg_step arr arr' 0 (n - i - 1) /\
    (forall k, 0 <= k <= n - i - 1 -> zget arr' k <= zget arr' (n - i - 1)) /\
    (sw = false -> forall k, 0 <= k < n - i - 1 -> zget arr' k <= zget arr' (k + 1)).
Proof.
  induction fuel as [|fuel IH]; intros arr n i j swapped Hj Hjm Hm Hf Hmax Hadj; [lia|].
  simpl. destruct (Z.ltb_spec j (n - i - 1)) as [Hlt|Hge].
  - rewrite (index_zget arr j), (index_zget arr (j + 1)) by lia. simpl.
    destruct (Z.gtb_spec (zget arr j) (zget arr (j + 1))) as [Hgt|Hle].
    + rewrite swap_zset by lia. simpl.
      set (arr1 := zset (zset arr j (zget arr (j + 1))) (j + 1) (zget arr j)).
      assert (Hstep : seg_step arr arr1 0 (n - i - 1)) by (apply seg_step_swap; lia).
      assert (H1 : zget arr1 (j + 1) = zget arr j).
      { unfold arr1. rewrite zget_zset_eq; [done|]. rewrite len_zset. lia. }
      assert (H2 : zget arr1 j = zget arr (j + 1)).
      { unfold arr1. rewrite zget_zset_ne by lia. rewrite zget_zset_eq; [done | lia]. }
      assert (H3 : forall k, 0 <= k < j -> zget arr1 k = zget arr k).
      { intros k Hk. unfold arr1. rewrite !zget_zset_ne by lia. done. }
      destruct (IH arr1 n i (j + 1) true) as (arr' & sw & E & S' & M' & A');
        [lia | lia | rewrite (step_len _ _ _ _ Hstep); lia | lia | | done |].
      { intros k Hk. rewrite H1.
        destruct (decide (k = j + 1)) as [->|]; [rewrite H1; lia|].
        destruct (decide (k = j)) as [->|]; [rewrite H2; lia|].
        rewrite H3 by lia. apply Hmax. lia. }
      exists arr', sw. split; [done|]. split; [|done].
      eapply seg_step_trans; eassumption.
    + destruct (IH arr n i (j + 1) swapped) as (arr' & sw & E & S' & M' & A');
        [lia | lia | lia | lia | | |].
      { intros k Hk. destruct (decide (k = j + 1)) as [->|]; [lia|].
        specialize (Hmax k). lia. }
      { intros Hsw k Hk. destruct (decide (k = j)) as [->|]; [done|].
        apply Hadj; [done | lia]. }
      exists arr', sw. done.
  - assert (j = n - i - 1) as Hjeq by lia.
    exists arr, swapped. split; [done|]. split; [apply seg_step_refl|].
    rewrite <- Hjeq. split; [done|]. done.
Qed.

(** The passes: after [i] passes the last [i] elements are in place. *)
Lemma bubble_outer_spec (fuel : nat) : forall arr n i,
  n = len arr -> 0 <= i -> (0 < fuel)%nat -> n - 1 - i < Z.of_nat fuel ->
  (forall k s, 0 <= k -> k <= s -> s < n -> n - i <= s -> zget arr k <= zget arr s) ->
  exists arr',
    bubble_outer fuel arr n i = Done arr' /\ arr' ≡ₚ arr /\ seg_sorted arr' 0 (n - 1).
Proof.
  induction fuel as [|fuel IH]; intros arr n i Hn Hi Hpos Hf Hinv; [lia|].
  cbn [bubble_outer]. destruct (Z.ltb_spec i (n - 1)) as [Hlt|Hge].
  - destruct (bubble_inner_spec (S (length arr)) arr n i 0 false)
      as (arr1 & sw & E & Hstep & Hmax & Hadj);
      [lia | lia | lia | unfold len in Hn; lia | | |].
    { intros k Hk. replace k with 0 by lia. done. }
    { intros _ k Hk. lia. }
    rewrite E. cbn [obind].
    assert (Hlen1 : len arr1 = n) by (rewrite (step_len _ _ _ _ Hstep); done).
    assert (Hinv1 : forall k s, 0 <= k -> k <= s -> s < n -> n - (i + 1) <= s ->
                                zget arr1 k <= zget arr1 s).
    { intros k s Hk Hks Hs Hsi.
      destruct (decide (s = n - i - 1)) as [->|Hne]; [apply Hmax; lia|].
      rewrite (step_outside _ _ _ _ Hstep s) by lia.
      destruct (decide (k <= n - i - 1)) as [Hkin|Hkout].
      - apply (step_le _ _ _ _ Hstep); [|lia].
        intros k' Hk'. apply Hinv; lia.
      - rewrite (step_outside _ _ _ _ Hstep k) by lia. apply Hinv; lia. }
    destruct sw; simpl.
    + destruct (IH arr1 n (i + 1)) as (arr' & E' & P' & S'); [done | lia | lia | lia | done |].
      exists arr'. split; [done|]. split; [|done].
      rewrite P'. apply (step_perm _ _ _ _ Hstep).
    + exists arr1. split; [done|]. split; [apply (step_perm _ _ _ _ Hstep)|].
      pose proof (adjacent_seg_sorted arr1 0 (n - i - 1)) as Hpre.
      intros k1 k2 H1 H12 H2.
      destruct (decide (k2 <= n - i - 1)) as [Hin|Hout].
      * apply Hpre; [|lia..]. intros k Hk. apply Hadj; [done | lia].
      * apply Hinv1; lia.
  - exists arr. split; [done|]. split; [done|].
    intros k1 k2 H1 H12 H2.
    destruct (decide (k2 = 0)) as [->|Hne].
    + replace k1 with 0 by lia. done.
    + apply Hinv; lia.
Qed.

Lemma BubbleSort_sorts arr :
  exists arr', BubbleSort arr = Done arr' /\ Sorted Z.le arr' /\ arr' ≡ₚ arr.
Proof.
  destruct (bubble_outer_spec (S (length arr)) arr (len arr) 0)
    as (arr' & E & P & S'); [done | lia | lia | unfold len; lia | |].
  { intros k s Hk Hks Hs Hsn. lia. }
  exists arr'. split; [done|]. split; [|done].
  apply seg_sorted_Sorted.
  replace (len arr') with (len arr); [done|].
  unfold len. by rewrite P.
Qed.

End BubbleSortFacts.


(** * InsertionSort *)

Section InsertionSortFacts.
Import Sorting.

(** Shifting [arr[j]] one place up moves the hole from [j + 1] to [j]. *)
Lemma shift_hole_perm arr key j :
  0 <= j -> j + 1 < len arr ->
  zset (zset arr (j + 1) (zget arr j)) j key ≡ₚ zset arr (j + 1) key.
Proof.
  intros Hj Hn.
  set (b := zset arr (j + 1) key).
  assert (Hb1 : zget b (j + 1) = key) by (unfold b; rewrite zget_zset_eq; [done | lia]).
  assert (Hb2 : zget b j = zget arr j) by (unfold b; rewrite zget_zset_ne by lia; done).
  pose proof (swap_perm b j (j + 1)) as Hp.
  rewrite Hb1, Hb2 in Hp. rewrite <- Hp by (unfold b; rewrite len_zset; lia).
  unfold b, zset.
  rewrite (list_insert_insert_ne arr (Z.to_nat j) (Z.to_nat (j + 1)) key key) by lia.
  rewrite list_insert_insert_eq.
  rewrite (list_insert_insert_ne arr (Z.to_nat j) (Z.to_nat (j + 1))) by lia.
  done.
Qed.

(** Filling the hole at [h] with [key] gives an ordered prefix when the
    rest is ordered around the hole. *)
Lemma fill_hole_sorted arr key h i :
  0 <= h <= i -> i < len arr ->
  (forall k1 k2, 0 <= k1 -> k1 <= k2 -> k2 <= i -> k1 <> h -> k2 <> h ->
                 zget arr k1 <= zget arr k2) ->
  (forall k, h < k <= i -> key < zget arr k) ->
  (h = 0 \/ zget arr (h - 1) <= key) ->
  seg_sorted (zset arr h key) 0 i.
Proof.
  intros Hh Hi Hord Habove Hbelow k1 k2 H1 H12 H2.
  assert (Hget : forall k, 0 <= k <= i ->
            zget (zset arr h key) k = if decide (k = h) then key else zget arr k).
  { intros k Hk. case_decide as Hkh.
    - subst k. rewrite zget_zset_eq; [done | lia].
    - rewrite zget_zset_ne by lia. done. }
  rewrite !Hget by lia. repeat case_decide; subst.
  - lia.
  - specialize (Habove k2). lia.
  - destruct Hbelow as [->|Hb]; [lia|].
    etransitivity; [|exact Hb].
    destruct (decide (k1 = h - 1)) as [->|]; [done|].
    apply Hord; lia.
  - apply Hord; lia.
Qed.

Lemma insertion_inner_spec (fuel : nat) arr0 key i : forall arr j,
  -1 <= j < i -> i < len arr -> j + 1 < Z.of_nat fuel ->
  zset arr (j + 1) key ≡ₚ arr0 ->
  (forall k1 k2, 0 <= k1 -> k1 <= k2 -> k2 <= i -> k1 <> j + 1 -> k2 <> j + 1 ->
                 zget arr k1 <= zget arr k2) ->
  (forall k, j + 1 < k <= i -> key < zget arr k) ->
  exists arr' j',
    insertion_inner fuel arr key j = Done (arr', j') /\
    -1 <= j' <= j /\ len arr' = len arr /\
    zset arr' (j' + 1) key ≡ₚ arr0 /\
    seg_sorted (zset arr' (j' + 1) key) 0 i.
Proof.
  induction fuel as [|fuel IH]; intros arr j Hj Hi Hf Hperm Hord Habove; [lia|].
  simpl. destruct (Z.leb_spec 0 j) as [H0|Hneg].
  - rewrite (index_zget arr j) by lia. simpl.
    destruct (Z.gtb_spec (zget arr j) key) as [Hgt|Hle].
    + rewrite store_zset by lia. simpl.
      set (arr1 := zset arr (j + 1) (zget arr j)).
      assert (Hget : forall k, 0 <= k ->
                zget arr1 k = if decide (k = j + 1) then zget arr j else zget arr k).
      { intros k Hk. unfold arr1. case_decide as Hkj.
        - subst k. rewrite zget_zset_eq; [done | lia].
        - rewrite zget_zset_ne by lia. done. }
      destruct (IH arr1 (j - 1)) as (arr' & j' & E & Hj' & L' & P' & S').
      * lia.
      * unfold arr1. rewrite len_zset. lia.
      * lia.
      * replace (j - 1 + 1) with j by lia. rewrite <- Hperm.
        apply shift_hole_perm; lia.
      * replace (j - 1 + 1) with j by lia. intros k1 k2 H1 H12 H2 N1 N2.
        rewrite !Hget by lia. repeat case_decide; subst.
        -- lia.
        -- apply Hord; lia.
        -- apply Hord; lia.
        -- apply Hord; lia.
      * replace (j - 1 + 1) with j by lia. intros k Hk.
        rewrite Hget by lia. case_decide; [lia|]. apply Habove. lia.
      * exists arr', j'. split; [done|]. split; [lia|]. split; [|done].
        rewrite L'. unfold arr1. by rewrite len_zset.
    + exists arr, j. split; [done|]. split; [lia|]. split; [done|]. split; [done|].
      apply fill_hole_sorted; [lia | lia | done | done |].
      right. replace (j + 1 - 1) with j by lia. done.
  - exists arr, j. split; [done|]. split; [lia|]. split; [done|]. split; [done|].
    apply fill_hole_sorted; [lia | lia | done | done |]. left. lia.
Qed.

Lemma insertion_outer_spec (fuel : nat) : forall arr i,
  1 <= i -> (0 < fuel)%nat -> len arr - i < Z.of_nat fuel ->
  seg_sorted arr 0 (i - 1) ->
  exists arr',
    insertion_outer fuel arr i = Done arr' /\ arr' ≡ₚ arr /\
    seg_sorted arr' 0 (len arr - 1).
Proof.
  induction fuel as [|fuel IH]; intros arr i Hi Hpos Hf Hs; [lia|].
  cbn [insertion_outer]. destruct (Z.ltb_spec i (len arr)) as [Hlt|Hge].
  - rewrite (index_zget arr i) by lia. cbn [obind].
    destruct (insertion_inner_spec (S (length arr)) arr (zget arr i) i arr (i - 1))
      as (arr1 & j1 & E & Hj1 & L1 & P1 & S1).
    + lia.
    + lia.
    + unfold len in *. lia.
    + replace (i - 1 + 1) with i by lia. rewrite zset_zget_id by lia. done.
    + replace (i - 1 + 1) with i by lia. intros k1 k2 H1 H12 H2 N1 N2.
      apply Hs; lia.
    + intros k Hk. lia.
    + rewrite E. cbn [obind]. rewrite store_zset by lia. cbn [obind].
      destruct (IH (zset arr1 (j1 + 1) (zget arr i)) (i + 1))
        as (arr' & E' & P' & S'); [lia | lia | rewrite len_zset; lia | | ].
      { replace (i + 1 - 1) with i by lia. done. }
      exists arr'. split; [done|]. split; [by rewrite P'|].
      rewrite len_zset, L1 in S'. done.
  - exists arr. split; [done|]. split; [done|].
    intros k1 k2 H1 H12 H2. apply Hs; lia.
Qed.

Lemma InsertionSort_sorts arr :
  exists arr', InsertionSort arr = Done arr' /\ Sorted Z.le arr' /\ arr' ≡ₚ arr.
Proof.
  destruct (insertion_outer_spec (S (length arr)) arr 1)
    as (arr' & E & P & S'); [lia | lia | unfold len; lia | |].
  { intros k1 k2 H1 H12 H2. replace k1 with 0 by lia. replace k2 with 0 by lia. done. }
  exists arr'. split; [done|]. split; [|done].
  apply seg_sorted_Sorted.
  replace (len arr') with (len arr); [done|].
  unfold len. by rewrite P.
Qed.

End InsertionSortFacts.


(** * QuickSort *)

Section QuickSortFacts.
Import Sorting.

(** The scan of [partition]: [arr[low..i]] holds elements at most the
    pivot, [arr[i+1..j-1]] elements above it, and the pivot stays at
    [high]. *)
Lemma partition_loop_spec (fuel : nat) low high pivot : forall arr i j,
  0 <= low -> low - 1 <= i -> i < j -> j <= high -> high < len arr ->
  high - j < Z.of_nat fuel ->
  zget arr high = pivot ->
  (forall k, low <= k <= i -> zget arr k <= pivot) ->
  (forall k, i < k < j -> pivot < zget arr k) ->
  exists arr' i',
    partition_loop fuel arr high pivot i j = Done (arr', i') /\
    low - 1 <= i' < high /\
    seg_step arr arr' low high /\
    zget arr' high = pivot /\
    (forall k, low <= k <= i' -> zget arr' k <= pivot) /\
    (forall k, i' < k < high -> pivot < zget arr' k).
Proof.
  induction fuel as [|fuel IH];
    intros arr i j Hlow Hi Hij Hj Hn Hf Hp Hsmall Hbig; [lia|].
  simpl. destruct (Z.ltb_spec j high) as [Hlt|Hge].
  - rewrite (index_zget arr j) by lia. simpl.
    destruct (Z.leb_spec (zget arr j) pivot) as [Hle|Hgt].
    + rewrite swap_zset by lia. simpl.
      set (arr1 := zset (zset arr (i + 1) (zget arr j)) j (zget arr (i + 1))).
      assert (Hget : forall k, 0 <= k ->
                zget arr1 k = if decide (k = j) then zget arr (i + 1)
                              else if decide (k = i + 1) then zget arr j else zget arr k).
      { intros k Hk. apply zget_swap; lia. }
      assert (Hstep : seg_step arr arr1 low high) by (apply seg_step_swap; lia).
      destruct (IH arr1 (i + 1) (j + 1)) as (arr' & i' & E & Hi' & S' & P' & A' & B').
      * lia.
      * lia.
      * lia.
      * lia.
      * rewrite (step_len _ _ _ _ Hstep). lia.
      * lia.
      * rewrite Hget by lia. repeat case_decide; (lia || done).
      * intros k Hk. rewrite Hget by lia. repeat case_decide; subst.
        -- replace (i + 1) with j by lia. done.
        -- done.
        -- apply Hsmall. lia.
      * intros k Hk. rewrite Hget by lia. repeat case_decide; subst.
        -- apply Hbig. lia.
        -- lia.
        -- apply Hbig. lia.
      * exists arr', i'. split; [done|]. split; [lia|]. split; [|done].
        eapply seg_step_trans; eassumption.
    + destruct (IH arr i (j + 1)) as (arr' & i' & E & Hi' & S' & P' & A' & B');
        [lia | lia | lia | lia | lia | lia | done | done | |].
      { intros k Hk. destruct (decide (k = j)) as [->|]; [lia|]. apply Hbig. lia. }
      exists arr', i'. done.
  - assert (j = high) as -> by lia.
    exists arr, i. split; [done|]. split; [lia|]. split; [apply seg_step_refl|]. done.
Qed.

Lemma partition_spec arr low high :
  0 <= low -> low <= high -> high < len arr ->
  exists arr' pi,
    partition arr low high = Done (arr', pi) /\
    low <= pi <= high /\
    seg_step arr arr' low high /\
    (forall k, low <= k < pi -> zget arr' k <= zget arr' pi) /\
    (forall k, pi < k <= high -> zget arr' pi <= zget arr' k).
Proof.
  intros Hlow Hlh Hn. unfold partition.
  rewrite (index_zget arr high) by lia. cbn [obind].
  destruct (partition_loop_spec (S (length arr)) low high (zget arr high) arr (low - 1) low)
    as (arr1 & i1 & E & Hi1 & S1 & P1 & A1 & B1);
    [lia | lia | lia | lia | lia | unfold len in *; lia | done | | |].
  { intros k Hk. lia. }
  { intros k Hk. lia. }
  rewrite E. cbn [obind].
  assert (Hlen1 : len arr1 = len arr) by apply (step_len _ _ _ _ S1).
  rewrite swap_zset by lia. cbn [obind].
  set (arr2 := zset (zset arr1 (i1 + 1) (zget arr1 high)) high (zget arr1 (i1 + 1))).
  assert (Hget : forall k, 0 <= k ->
            zget arr2 k = if decide (k = high) then zget arr1 (i1 + 1)
                          else if decide (k = i1 + 1) then zget arr1 high else zget arr1 k).
  { intros k Hk. apply zget_swap; lia. }
  exists arr2, (i1 + 1). split; [done|]. split; [lia|]. split; [|split].
  - eapply seg_step_trans; [exact S1|]. apply seg_step_swap; lia.
  - intros k Hk. rewrite !Hget by lia. repeat case_decide; subst; try lia.
    + rewrite P1. apply A1. lia.
    + rewrite P1. apply A1. lia.
  - intros k Hk. rewrite !Hget by lia. repeat case_decide; subst; try lia.
    + rewrite P1. specialize (B1 (i1 + 1)). lia.
    + rewrite P1. specialize (B1 k). lia.
Qed.

Lemma quickSortHelper_spec (fuel : nat) : forall arr low high,
  0 <= low -> high < len arr -> (0 < fuel)%nat -> high - low < Z.of_nat fuel ->
  exists arr',
    quickSortHelper fuel arr low high = Done arr' /\
    seg_step arr arr' low high /\
    seg_sorted arr' low high.
Proof.
  induction fuel as [|fuel IH]; intros arr low high Hlow Hn Hpos Hf; [lia|].
  cbn [quickSortHelper]. destruct (Z.ltb_spec low high) as [Hlt|Hge].
  - destruct (partition_spec arr low high) as (arr1 & pi & E1 & Hpi & S1 & A1 & B1);
      [lia..|].
    rewrite E1. cbn [obind].
    assert (Hlen1 : len arr1 = len arr) by apply (step_len _ _ _ _ S1).
    destruct (IH arr1 low (pi - 1)) as (arr2 & E2 & S2 & O2); [lia..|].
    rewrite E2. cbn [obind].
    assert (Hlen2 : len arr2 = len arr1) by apply (step_len _ _ _ _ S2).
    destruct (IH arr2 (pi + 1) high) as (arr3 & E3 & S3 & O3); [lia..|].
    exists arr3. split; [done|]. split.
    + eapply seg_step_trans; [exact S1|].
      eapply seg_step_trans.
      * apply (seg_step_widen arr1 arr2 low (pi - 1) low high); [lia..|done].
      * apply (seg_step_widen arr2 arr3 (pi + 1) high low high); [lia..|done].
    + set (p := zget arr1 pi).
      assert (Hp3 : zget arr3 pi = p).
      { rewrite (step_outside _ _ _ _ S3) by lia.
        rewrite (step_outside _ _ _ _ S2) by lia. done. }
      assert (Hleft : forall k, low <= k <= pi - 1 -> zget arr3 k <= p).
      { intros k Hk. rewrite (step_outside _ _ _ _ S3) by lia.
        apply (step_le _ _ _ _ S2); [|done]. intros k' Hk'. apply A1. lia. }
      assert (Hright : forall k, pi + 1 <= k <= high -> p <= zget arr3 k).
      { intros k Hk. apply (step_ge _ _ _ _ S3); [|done]. intros k' Hk'.
        rewrite (step_outside _ _ _ _ S2) by lia. apply B1. lia. }
      intros k1 k2 H1 H12 H2.
      destruct (decide (k2 < pi)) as [Hl|Hl].
      * rewrite !(step_outside _ _ _ _ S3) by lia. apply O2; lia.
      * destruct (decide (pi < k1)) as [Hr|Hr]; [apply O3; lia|].
        assert (zget arr3 k1 <= p).
        { destruct (decide (k1 = pi)) as [->|]; [lia|]. apply Hleft. lia. }
        assert (p <= zget arr3 k2).
        { destruct (decide (k2 = pi)) as [->|]; [lia|]. apply Hright. lia. }
        lia.
  - exists arr. split; [done|]. split; [apply seg_step_refl|].
    intros k1 k2 H1 H12 H2. replace k2 with k1 by lia. done.
Qed.

Lemma QuickSort_sorts arr :
  exists arr', QuickSort arr = Done arr' /\ Sorted Z.le arr' /\ arr' ≡ₚ arr.
Proof.
  destruct (quickSortHelper_spec (S (length arr)) arr 0 (len arr - 1))
    as (arr' & E & S' & O'); [lia | lia | lia | unfold len; lia |].
  exists arr'. split; [done|]. split; [|apply (step_perm _ _ _ _ S')].
  apply seg_sorted_Sorted. rewrite (step_len _ _ _ _ S'). done.
Qed.

End QuickSortFacts.


(** * MergeSort *)

Section MergeSortFacts.
Import Sorting.

Lemma drop_zget (arr : list Z) k :
  0 <= k < len arr ->
  drop (Z.to_nat k) arr = zget arr k :: drop (Z.to_nat (k + 1)) arr.
Proof.
  intros H. replace (Z.to_nat (k + 1)) with (S (Z.to_nat k)) by lia.
  apply drop_S. by apply zget_lookup.
Qed.

Lemma drop_len (arr : list Z) k : len arr <= k -> drop (Z.to_nat k) arr = [].
Proof. intros H. apply drop_ge. unfold len in H. lia. Qed.

(** The loop of [merge] computes the functional merge of what is left of
    both inputs, appended to [result]. *)
Lemma merge_loop_spec (fuel : nat) left right : forall result i j,
  0 <= i <= len left -> 0 <= j <= len right ->
  (len left - i) + (len right - j) < Z.of_nat fuel ->
  exists res i' j',
    merge_loop fuel left right result i j = Done (res, i', j') /\
    0 <= i' <= len left /\ 0 <= j' <= len right /\
    res ++ drop (Z.to_nat i') left ++ drop (Z.to_nat j') right
    = result ++ list_merge Z.le (drop (Z.to_nat i) left) (drop (Z.to_nat j) right).
Proof.
  induction fuel as [|fuel IH]; intros result i j Hi Hj Hf; [lia|].
  simpl. destruct (Z.ltb_spec i (len left)) as [Hil|Hil]; simpl.
  - destruct (Z.ltb_spec j (len right)) as [Hjr|Hjr]; simpl.
    + rewrite (index_zget left i), (index_zget right j) by lia. simpl.
      rewrite (drop_zget left i), (drop_zget right j) by lia.
      rewrite list_merge_cons.
      destruct (Z.leb_spec (zget left i) (zget right j)) as [Hle|Hgt].
      * rewrite decide_True by done.
        destruct (IH (result ++ [zget left i]) (i + 1) j)
          as (res & i' & j' & E & Hi' & Hj' & Heq); [lia..|].
        exists res, i', j'. split; [done|]. split; [lia|]. split; [lia|].
        rewrite Heq, <- app_assoc. simpl.
        rewrite <- (drop_zget right j) by lia. done.
      * rewrite decide_False by lia.
        destruct (IH (result ++ [zget right j]) i (j + 1))
          as (res & i' & j' & E & Hi' & Hj' & Heq); [lia..|].
        exists res, i', j'. split; [done|]. split; [lia|]. split; [lia|].
        rewrite Heq, <- app_assoc. simpl.
        rewrite <- (drop_zget left i) by lia. done.
    + exists result, i, j. split; [done|]. split; [lia|]. split; [lia|].
      rewrite (drop_len right j) by lia. rewrite list_merge_nil_r, app_nil_r. done.
  - exists result, i, j. split; [done|]. split; [lia|]. split; [lia|].
    rewrite (drop_len left i) by lia. rewrite list_merge_nil_l. done.
Qed.

Lemma merge_spec left right : merge left right = Done (list_merge Z.le left right).
Proof.
  unfold merge.
  destruct (merge_loop_spec (S (length left + length right)) left right [] 0 0)
    as (res & i' & j' & E & Hi' & Hj' & Heq);
    [pose proof (len_nonneg left); lia | pose proof (len_nonneg right); lia
     | unfold len; lia |].
  rewrite E. cbn [obind].
  rewrite !slice_from_in_range by lia. cbn [obind].
  rewrite <- app_assoc, Heq. done.
Qed.

Lemma short_Sorted (arr : list Z) : len arr <= 1 -> Sorted Z.le arr.
Proof.
  unfold len. destruct arr as [|x [|y arr]]; simpl; intros H.
  - constructor.
  - repeat constructor.
  - lia.
Qed.

Lemma MergeSort_rec_spec (fuel : nat) : forall arr,
  (length arr < fuel)%nat ->
  exists arr', MergeSort_rec fuel arr = Done arr' /\ Sorted Z.le arr' /\ arr' ≡ₚ arr.
Proof.
  induction fuel as [|fuel IH]; intros arr Hf; [lia|].
  cbn [MergeSort_rec]. destruct (Z.leb_spec (len arr) 1) as [Hshort|Hlong].
  - exists arr. split; [done|]. split; [by apply short_Sorted | done].
  - assert (Hmid : 1 <= len arr ÷ 2 < len arr)
      by (Z.to_euclidean_division_equations; lia).
    set (mid := len arr ÷ 2) in *. clearbody mid.
    rewrite slice_to_in_range by lia. cbn [obind].
    destruct (IH (take (Z.to_nat mid) arr)) as (l' & El & Sl & Pl).
    { rewrite length_take. unfold len in *. lia. }
    rewrite El. cbn [obind].
    rewrite slice_from_in_range by lia. cbn [obind].
    destruct (IH (drop (Z.to_nat mid) arr)) as (r' & Er & Sr & Pr).
    { rewrite length_drop. unfold len in *. lia. }
    rewrite Er. cbn [obind]. rewrite merge_spec.
    eexists. split; [reflexivity|]. split.
    + apply Sorted_list_merge; [|done..]. intros x y. lia.
    + rewrite merge_Permutation, Pl, Pr. by rewrite take_drop.
Qed.

Lemma MergeSort_sorts arr :
  exists arr', MergeSort arr = Done arr' /\ Sorted Z.le arr' /\ arr' ≡ₚ arr.
Proof. apply MergeSort_rec_spec. lia. Qed.

End MergeSortFacts.


(** * Graph traversals *)

Section GraphFacts.
Import Graph.
Implicit Types (g : Graph) (start : Z) (visited : gmap Z bool).

Lemma start_in_universe g start : start ∈ universe g start.
Proof. unfold universe. set_solver. Qed.

Lemma edge_in_universe g start u v : edge g u v -> v ∈ universe g start.
Proof.
  unfold edge, adjacent. intros H.
  destruct (vertices g !! u) as [ns|] eqn:E; simpl in H; [|by apply elem_of_nil in H].
  unfold universe. apply elem_of_union_r, elem_of_list_to_set.
  apply list_elem_of_In, in_concat. exists ns. split.
  - apply list_elem_of_In, list_elem_of_fmap. exists (u, ns). split; [done|].
    by apply elem_of_map_to_list.
  - by apply list_elem_of_In.
Qed.

Lemma reachable_in_universe g start v : reachable g start v -> v ∈ universe g start.
Proof.
  intros H. destruct (rtc_inv_r _ _ H) as [->|(u & _ & He)].
  - apply start_in_universe.
  - by eapply edge_in_universe.
Qed.

Lemma NoDup_length_bound (U : gset Z) (l : list Z) :
  NoDup l -> (forall x, x ∈ l -> x ∈ U) -> (length l <= size U)%nat.
Proof.
  intros Hnd Hsub. rewrite <- (size_list_to_set (C := gset Z) l) by done.
  apply subseteq_size. intros x Hx. apply elem_of_list_to_set in Hx. auto.
Qed.

Lemma fresh_length_bound (U : gset Z) (l : list Z) x :
  NoDup l -> (forall y, y ∈ l -> y ∈ U) -> x ∈ U -> x ∉ l -> (length l < size U)%nat.
Proof.
  intros Hnd Hsub Hx Hnx.
  pose proof (NoDup_length_bound U (x :: l)) as H. simpl in H.
  apply H.
  - by constructor.
  - intros y Hy. apply elem_of_cons in Hy as [->|Hy]; auto.
Qed.

Lemma marks_insert visited l x :
  marks visited l -> marks (<[x := true]> visited) (l ++ [x]).
Proof.
  intros H y. unfold is_visited. rewrite elem_of_app, list_elem_of_singleton.
  destruct (decide (x = y)) as [->|Hne].
  - rewrite lookup_insert_eq. simpl. split; auto.
  - rewrite lookup_insert_ne by done. rewrite <- (H y). unfold is_visited.
    split; [auto | intros [?|?]; [done | congruence]].
Qed.

Lemma marks_not_visited visited l x :
  marks visited l -> is_visited visited x = false <-> x ∉ l.
Proof.
  intros H. rewrite <- (H x). destruct (is_visited visited x); split; (done || congruence).
Qed.

End GraphFacts.

Section DFSFacts.
Import Graph.
Implicit Types (g : Graph) (start : Z) (st : gmap Z bool * list Z).

Lemma reachable_step g start x y : reachable g start x -> edge g x y -> reachable g start y.
Proof. intros H He. eapply rtc_r; eassumption. Qed.

(** A set that contains [start] and is closed under edges contains every
    reachable vertex. *)
Lemma closed_reachable g start (l : list Z) v :
  start ∈ l -> closed_in g l l -> reachable g start v -> v ∈ l.
Proof.
  intros Hs Hc H. induction H as [|x y z Hxy Hyz IH]; [done|].
  apply IH. by apply (Hc x y).
Qed.

Lemma dfs_range_spec g start (f : nat)
    (rec : Z -> gmap Z bool * list Z -> outcome (gmap Z bool * list Z)) :
  (forall n st, dfs_inv g start st -> reachable g start n -> n ∉ st.2 ->
                (size (universe g start) < length st.2 + f)%nat ->
                exists st', rec n st = Done st' /\ dfs_post g start st st' /\ n ∈ st'.2) ->
  forall ns st, dfs_inv g start st -> (forall n, n ∈ ns -> reachable g start n) ->
                (size (universe g start) < length st.2 + f)%nat ->
                exists st', dfs_range rec ns st = Done st' /\ dfs_post g start st st' /\
                            (forall n, n ∈ ns -> n ∈ st'.2).
Proof.
  intros Hrec. induction ns as [|n rest IH]; intros st Hinv Hns Hf.
  - exists st. split; [done|]. split.
    + split; [done|]. exists []. split; [by rewrite app_nil_r|].
      intros x y Hx. by apply elem_of_nil in Hx.
    + intros n Hn. by apply elem_of_nil in Hn.
  - cbn [dfs_range]. destruct (is_visited st.1 n) eqn:Ev; cbn [negb].
    + destruct (IH st) as (st' & E & Hpost & Hin); [done | | done |].
      { intros m Hm. apply Hns. by right. }
      exists st'. split; [done|]. split; [done|].
      intros m Hm. apply elem_of_cons in Hm as [->|Hm]; [|by apply Hin].
      destruct Hinv as (Hmk & _ & _). apply Hmk in Ev.
      destruct Hpost as (_ & new & -> & _). apply elem_of_app. by left.
    + assert (Hfresh : n ∉ st.2).
      { destruct Hinv as (Hmk & _ & _). by apply (marks_not_visited _ _ _ Hmk). }
      destruct (Hrec n st) as (st1 & E1 & (Hinv1 & new1 & Hnew1 & Hc1) & Hn1);
        [done | apply Hns; by left | done | done |].
      rewrite E1. cbn [obind].
      destruct (IH st1) as (st' & E & (Hinv' & new2 & Hnew2 & Hc2) & Hin); [done | | |].
      { intros m Hm. apply Hns. by right. }
      { rewrite Hnew1, length_app. lia. }
      exists st'. split; [done|]. split; [split; [done|]|].
      * exists (new1 ++ new2). split; [by rewrite Hnew2, Hnew1, app_assoc|].
        intros x y Hx He. apply elem_of_app in Hx as [Hx|Hx].
        -- rewrite Hnew2. apply elem_of_app. left. by apply (Hc1 x y).
        -- by apply (Hc2 x y).
      * intros m Hm. apply elem_of_cons in Hm as [->|Hm]; [|by apply Hin].
        rewrite Hnew2. apply elem_of_app. by left.
Qed.

Lemma dfsUtil_spec g start (f : nat) :
  forall n st, dfs_inv g start st -> reachable g start n -> n ∉ st.2 ->
               (size (universe g start) < length st.2 + f)%nat ->
               exists st', dfsUtil f g n st = Done st' /\ dfs_post g start st st' /\ n ∈ st'.2.
Proof.
  induction f as [|f IH]; intros n st Hinv Hn Hfresh Hf.
  - exfalso. destruct Hinv as (_ & Hnd & Hreach).
    assert (length st.2 < size (universe g start))%nat as Hlt; [|lia].
    apply (fresh_length_bound _ _ n); [done | | by apply reachable_in_universe | done].
    intros y Hy. by apply reachable_in_universe, Hreach.
  - cbn [dfsUtil]. destruct Hinv as (Hmk & Hnd & Hreach).
    destruct (dfs_range_spec g start f (dfsUtil f g) IH (adjacent g n)
                (<[n := true]> st.1, st.2 ++ [n]))
      as (st' & E & (Hinv' & new & Hnew & Hc) & Hin).
    + split; [by apply marks_insert|]. cbn [fst snd]. split.
      * apply NoDup_app. split; [done|]. split; [|apply NoDup_singleton].
        intros x Hx Hx'. apply list_elem_of_singleton in Hx'. by subst.
      * intros x Hx. apply elem_of_app in Hx as [Hx|Hx]; [by apply Hreach|].
        apply list_elem_of_singleton in Hx. by subst.
    + intros m Hm. by apply (reachable_step g start n m).
    + cbn [snd]. rewrite length_app. simpl. lia.
    + cbn [snd] in Hnew. exists st'. split; [done|]. split; [split; [done|]|].
      * exists (n :: new). split; [by rewrite Hnew, <- app_assoc|].
        intros x y Hx He. apply elem_of_cons in Hx as [->|Hx]; [by apply Hin|].
        by apply (Hc x y).
      * rewrite Hnew. apply elem_of_app. left. apply elem_of_app. right.
        by apply list_elem_of_singleton.
Qed.

Lemma DFS_spec g start :
  exists l, DFS g start = Done l /\ NoDup l /\ forall v, v ∈ l <-> reachable g start v.
Proof.
  unfold DFS.
  destruct (dfsUtil_spec g start (S (size (universe g start))) start (∅, []))
    as (st' & E & ((Hmk & Hnd & Hreach) & new & Hnew & Hc) & Hin).
  - split; [|split].
    + intros x. cbn [fst snd]. unfold is_visited. rewrite lookup_empty. simpl.
      split; [done | intros H; by apply elem_of_nil in H].
    + apply NoDup_nil_2.
    + intros x Hx. by apply elem_of_nil in Hx.
  - apply rtc_refl.
  - apply not_elem_of_nil.
  - simpl. lia.
  - rewrite E. cbn [obind]. exists st'.2. split; [done|]. split; [done|].
    intros v. split; [apply Hreach|].
    simpl in Hnew. apply closed_reachable; [done|]. by rewrite Hnew at 1.
Qed.

End DFSFacts.

Section BFSFacts.
Import Graph.
Implicit Types (g : Graph) (start : Z) (visited : gmap Z bool).

(** The inner loop marks and queues the neighbours not yet visited;
    [done] stands for the vertices already dequeued. *)
Lemma bfs_range_spec g start (done_ : list Z) :
  forall neighbors visited queue,
    marks visited (done_ ++ queue) -> NoDup (done_ ++ queue) ->
    (forall x, x ∈ done_ ++ queue -> reachable g start x) ->
    (forall n, n ∈ neighbors -> reachable g start n) ->
    exists visited' added,
      bfs_range neighbors visited queue = (visited', queue ++ added) /\
      marks visited' (done_ ++ queue ++ added) /\
      NoDup (done_ ++ queue ++ added) /\
      (forall x, x ∈ done_ ++ queue ++ added -> reachable g start x) /\
      (forall n, n ∈ neighbors -> n ∈ done_ ++ queue ++ added).
Proof.
  induction neighbors as [|n rest IH]; intros visited queue Hmk Hnd Hreach Hns.
  - exists visited, []. rewrite !app_nil_r. split; [done|]. split; [done|].
    split; [done|]. split; [done|]. intros n Hn. by apply elem_of_nil in Hn.
  - cbn [bfs_range]. destruct (is_visited visited n) eqn:Ev; cbn [negb].
    + destruct (IH visited queue) as (visited' & added & E & Hmk' & Hnd' & Hr' & Hin');
        [done | done | done | |].
      { intros m Hm. apply Hns. by right. }
      exists visited', added. split; [done|]. split; [done|]. split; [done|].
      split; [done|]. intros m Hm. apply elem_of_cons in Hm as [->|Hm]; [|by apply Hin'].
      apply Hmk in Ev. rewrite app_assoc. apply elem_of_app. by left.
    + assert (Hfresh : n ∉ done_ ++ queue) by (by apply (marks_not_visited _ _ _ Hmk)).
      destruct (IH (<[n := true]> visited) (queue ++ [n]))
        as (visited' & added & E & Hmk' & Hnd' & Hr' & Hin').
      * rewrite app_assoc. by apply marks_insert.
      * rewrite app_assoc. apply NoDup_app. split; [done|]. split; [|apply NoDup_singleton].
        intros x Hx Hx'. apply list_elem_of_singleton in Hx'. by subst.
      * intros x Hx. rewrite app_assoc in Hx. apply elem_of_app in Hx as [Hx|Hx]; [by apply Hreach|].
        apply list_elem_of_singleton in Hx. subst. apply Hns. by left.
      * intros m Hm. apply Hns. by right.
      * rewrite <- !app_assoc in *. simpl in *.
        exists visited', (n :: added). split; [done|]. split; [done|]. split; [done|].
        split; [done|]. intros m Hm. apply elem_of_cons in Hm as [->|Hm]; [|by apply Hin'].
        apply elem_of_app. right. apply elem_of_app. right. by left.
Qed.

Lemma bfs_loop_spec g start (f : nat) :
  forall visited queue result,
    bfs_inv g start visited queue result ->
    (size (universe g start) < length result + f)%nat ->
    exists l, bfs_loop f g visited queue result = Done l /\ NoDup l /\
              forall v, v ∈ l <-> reachable g start v.
Proof.
  induction f as [|f IH]; intros visited queue result (Hmk & Hnd & Hreach & Hc & Hs) Hf.
  - exfalso. assert (length result <= size (universe g start))%nat; [|lia].
    apply NoDup_length_bound.
    + by apply NoDup_app in Hnd as (? & _).
    + intros x Hx. apply reachable_in_universe, Hreach, elem_of_app. by left.
  - cbn [bfs_loop]. destruct queue as [|x q1].
    + simpl. rewrite app_nil_r in *. exists result. split; [done|]. split; [done|].
      intros v. split; [apply Hreach|]. by apply closed_reachable.
    + assert (Hpos : (len (x :: q1) >? 0) = true).
      { unfold len. simpl length. apply Z.gtb_lt. lia. }
      rewrite Hpos. change (index (x :: q1) 0) with (Done x). cbn [obind].
      rewrite slice_from_in_range by (unfold len; simpl length; lia).
      cbn [obind]. change (drop (Z.to_nat 1) (x :: q1)) with q1.
      destruct (bfs_range_spec g start (result ++ [x]) (adjacent g x) visited q1)
        as (visited' & added & E & Hmk' & Hnd' & Hr' & Hin').
      * by rewrite <- app_assoc.
      * by rewrite <- app_assoc.
      * intros y Hy. rewrite <- app_assoc in Hy. by apply Hreach.
      * intros n Hn. apply (reachable_step g start x n); [|done].
        apply Hreach, elem_of_app. right. by left.
      * rewrite E. apply IH.
        -- split; [done|]. split; [done|]. split; [done|]. split.
           ++ intros a b Ha He. apply elem_of_app in Ha as [Ha|Ha].
              ** specialize (Hc a b Ha He). rewrite <- app_assoc. simpl.
                 apply elem_of_app in Hc as [Hc|Hc]; apply elem_of_app; [by left|right].
                 apply elem_of_cons in Hc as [->|Hc]; [by left|right].
                 apply elem_of_app. by left.
              ** apply list_elem_of_singleton in Ha. subst. by apply Hin'.
           ++ rewrite <- app_assoc. simpl.
              apply elem_of_app in Hs as [Hs|Hs]; apply elem_of_app; [by left|right].
              apply elem_of_cons in Hs as [->|Hs]; [by left|right].
              apply elem_of_app. by left.
        -- rewrite length_app. simpl. lia.
Qed.

Lemma BFS_spec g start :
  exists l, BFS g start = Done l /\ NoDup l /\ forall v, v ∈ l <-> reachable g start v.
Proof.
  unfold BFS. apply bfs_loop_spec; [|simpl; lia].
  split; [|split; [|split; [|split]]]; simpl.
  - intros x. unfold is_visited. rewrite list_elem_of_singleton.
    destruct (decide (start = x)) as [->|Hne].
    + rewrite lookup_insert_eq. done.
    + rewrite lookup_insert_ne, lookup_empty by done. simpl. split; [done | congruence].
  - apply NoDup_singleton.
  - intros x Hx. apply list_elem_of_singleton in Hx. subst. apply rtc_refl.
  - intros x y Hx. by apply elem_of_nil in Hx.
  - by apply list_elem_of_singleton.
Qed.

End BFSFacts.


(** ** The built graphs are undirected *)

Section BuiltGraphs.
Import Graph.
Implicit Types (g : Graph) (a b v : Z).

Lemma adjacent_AddVertex g v a : adjacent (AddVertex g v) a = adjacent g a.
Proof.
  unfold AddVertex, adjacent. destruct (vertices g !! v) eqn:E; [done|].
  cbn [vertices]. destruct (decide (v = a)) as [->|Hne].
  - by rewrite lookup_insert_eq, E.
  - by rewrite lookup_insert_ne.
Qed.

Lemma edge_AddEdge g v1 v2 a b :
  edge (AddEdge g v1 v2) a b <->
  edge g a b \/ (a = v1 /\ b = v2) \/ (a = v2 /\ b = v1).
Proof.
  unfold edge, AddEdge, adjacent. cbn [vertices].
  destruct (decide (v2 = a)) as [->|Hne2].
  - rewrite lookup_insert_eq. cbn [default from_option id].
    destruct (decide (v1 = a)) as [->|Hne1].
    + rewrite lookup_insert_eq. cbn [default from_option id].
      rewrite !elem_of_app, !list_elem_of_singleton. intuition congruence.
    + rewrite lookup_insert_ne by done.
      rewrite elem_of_app, list_elem_of_singleton. intuition congruence.
  - rewrite lookup_insert_ne by done.
    destruct (decide (v1 = a)) as [->|Hne1].
    + rewrite lookup_insert_eq. cbn [default from_option id].
      rewrite elem_of_app, list_elem_of_singleton. intuition congruence.
    + rewrite lookup_insert_ne by done. intuition congruence.
Qed.

Lemma build_snoc ops o : build (ops ++ [o]) = apply_op (build ops) o.
Proof. unfold build. by rewrite foldl_snoc. Qed.

(** Every edge of a built graph is there in both directions. *)
Lemma built_graph_undirected ops a b :
  edge (build ops) a b -> edge (build ops) b a.
Proof.
  revert a b. induction ops as [|o ops IH] using rev_ind; intros a b.
  - unfold edge, build, adjacent. simpl. rewrite lookup_empty. simpl.
    intros H. by apply elem_of_nil in H.
  - rewrite build_snoc. destruct o as [v|v1 v2]; cbn [apply_op].
    + unfold edge. rewrite !adjacent_AddVertex. apply IH.
    + rewrite !edge_AddEdge. intros [H|[[-> ->]|[-> ->]]]; auto.
Qed.

End BuiltGraphs.


(** * The sorting functions *)

(** C1: on every array, [BubbleSort], [QuickSort] and [InsertionSort] leave
    the array as, and [MergeSort] returns, a permutation of the input that is
    sorted in non-decreasing order; none of them panics. *)
Theorem sorting_functions_sort (arr : list Z) :
  (exists arr', Sorting.BubbleSort arr = Done arr' /\ Sorted Z.le arr' /\ arr' ≡ₚ arr) /\
  (exists arr', Sorting.QuickSort arr = Done arr' /\ Sorted Z.le arr' /\ arr' ≡ₚ arr) /\
  (exists arr', Sorting.InsertionSort arr = Done arr' /\ Sorted Z.le arr' /\ arr' ≡ₚ arr) /\
  (exists arr', Sorting.MergeSort arr = Done arr' /\ Sorted Z.le arr' /\ arr' ≡ₚ arr).
Proof.
  split; [apply BubbleSort_sorts|].
  split; [apply QuickSort_sorts|].
  split; [apply InsertionSort_sorts | apply MergeSort_sorts].
Qed.

(** * The graph traversals *)

Lemma AddEdge_both_directions (g : Graph.Graph) (v1 v2 : Z) :
  Graph.edge (Graph.AddEdge g v1 v2) v1 v2 /\ Graph.edge (Graph.AddEdge g v1 v2) v2 v1.
Proof.
  unfold Graph.edge, Graph.AddEdge, Graph.adjacent. cbn [Graph.vertices]. split.
  - destruct (decide (v2 = v1)) as [->|Hne].
    + rewrite !lookup_insert_eq. cbn [default].
      apply elem_of_app. left. apply elem_of_app. right. by left.
    + rewrite lookup_insert_ne by done. rewrite lookup_insert_eq. cbn [default].
      apply elem_of_app. right. by left.
  - rewrite lookup_insert_eq. cbn [default]. apply elem_of_app. right. by left.
Qed.

(** C6: on every graph built by [AddVertex] and [AddEdge] calls, where
    [AddEdge] records the edge in both adjacency lists (so that the graph is
    undirected), [BFS] and [DFS] from any start vertex return a list without
    repetition whose members are exactly the vertices reachable from the
    start. *)
Theorem traversals_visit_reachable_once (ops : list Graph.op) (start : Z) :
  (exists l, Graph.BFS (Graph.build ops) start = Done l /\ NoDup l /\
             forall v, v ∈ l <-> Graph.reachable (Graph.build ops) start v) /\
  (exists l, Graph.DFS (Graph.build ops) start = Done l /\ NoDup l /\
             forall v, v ∈ l <-> Graph.reachable (Graph.build ops) start v) /\
  (forall g v1 v2, Graph.edge (Graph.AddEdge g v1 v2) v1 v2 /\
                   Graph.edge (Graph.AddEdge g v1 v2) v2 v1) /\
  (forall a b, Graph.edge (Graph.build ops) a b -> Graph.edge (Graph.build ops) b a).
Proof.
  split; [apply BFS_spec|]. split; [apply DFS_spec|].
  split; [apply AddEdge_both_directions | apply built_graph_undirected].
Qed.


(** * Rune conversions in the pattern examples *)

(** ** Bit operations on bytes, as arithmetic *)

Section ByteArithmetic.

Lemma land_low_mask x k : 0 <= k -> Z.land x (Z.ones k) = x mod 2 ^ k.
Proof. intros H. by apply Z.land_ones. Qed.

Lemma lor_high_low hi lo k :
  0 <= k -> 0 <= lo < 2 ^ k -> Z.lor (hi * 2 ^ k) lo = hi * 2 ^ k + lo.
Proof.
  intros Hk Hlo.
  assert (Hdisj : Z.land (hi * 2 ^ k) lo = 0).
  { rewrite <- (Z.mod_small lo (2 ^ k)) by lia.
    rewrite <- Z.land_ones by done.
    rewrite (Z.land_comm lo), Z.land_assoc, Z.land_ones by done.
    rewrite Z.mod_mul by lia. apply Z.land_0_l. }
  pose proof (Z.add_lor_land (hi * 2 ^ k) lo) as H. rewrite Hdisj in H. lia.
Qed.

Lemma land_63 x : Z.land x 63 = x mod 64.
Proof. apply (land_low_mask x 6). lia. Qed.

Lemma land_31 x : Z.land x 31 = x mod 32.
Proof. apply (land_low_mask x 5). lia. Qed.

Lemma land_15 x : Z.land x 15 = x mod 16.
Proof. apply (land_low_mask x 4). lia. Qed.

Lemma land_7 x : Z.land x 7 = x mod 8.
Proof. apply (land_low_mask x 3). lia. Qed.

Lemma lor_128 m : 0 <= m < 64 -> Z.lor 128 m = 128 + m.
Proof. intros H. apply (lor_high_low 2 m 6); lia. Qed.

Lemma lor_192 q : 0 <= q < 64 -> Z.lor 192 q = 192 + q.
Proof. intros H. apply (lor_high_low 3 q 6); lia. Qed.

Lemma lor_224 q : 0 <= q < 32 -> Z.lor 224 q = 224 + q.
Proof. intros H. apply (lor_high_low 7 q 5); lia. Qed.

Lemma lor_240 q : 0 <= q < 16 -> Z.lor 240 q = 240 + q.
Proof. intros H. apply (lor_high_low 15 q 4); lia. Qed.

Lemma shiftr_6 r : Z.shiftr r 6 = r / 64.
Proof. apply (Z.shiftr_div_pow2 r 6). lia. Qed.

Lemma shiftr_12 r : Z.shiftr r 12 = r / 4096.
Proof. apply (Z.shiftr_div_pow2 r 12). lia. Qed.

Lemma shiftr_18 r : Z.shiftr r 18 = r / 262144.
Proof. apply (Z.shiftr_div_pow2 r 18). lia. Qed.

Lemma lor_shiftl_6 x lo : 0 <= lo < 64 -> Z.lor (Z.shiftl x 6) lo = x * 64 + lo.
Proof.
  intros H. rewrite Z.shiftl_mul_pow2 by lia. apply (lor_high_low x lo 6); lia.
Qed.

Lemma lor_shiftl_12 x lo : 0 <= lo < 4096 -> Z.lor (Z.shiftl x 12) lo = x * 4096 + lo.
Proof.
  intros H. rewrite Z.shiftl_mul_pow2 by lia. apply (lor_high_low x lo 12); lia.
Qed.

Lemma lor_shiftl_18 x lo : 0 <= lo < 262144 -> Z.lor (Z.shiftl x 18) lo = x * 262144 + lo.
Proof.
  intros H. rewrite Z.shiftl_mul_pow2 by lia. apply (lor_high_low x lo 18); lia.
Qed.

End ByteArithmetic.

(** ** UTF-8: what [string(r)] writes and how it reads back *)

Section RuneEncoding.
Import GoString.

Ltac decide_tests :=
  repeat match goal with
         | |- context [?a <? ?b] =>
             destruct (Z.ltb_spec a b); try lia
         | |- context [?a <=? ?b] =>
             destruct (Z.leb_spec a b); try lia
         end;
  cbn [andb negb].

Lemma valid_rune_range r : valid_rune r = true -> 0 <= r <= 0x10FFFF.
Proof. unfold valid_rune. lia. Qed.

Lemma valid_rune_not_surrogate r : valid_rune r = true -> r < 0xD800 \/ 0xDFFF < r.
Proof. unfold valid_rune. lia. Qed.

Lemma encode_rune_1 r : r <= 0x7F -> encode_rune r = [r].
Proof. intros H. unfold encode_rune. by decide_tests. Qed.

Lemma encode_rune_2 r :
  0x80 <= r <= 0x7FF -> encode_rune r = [192 + r / 64; 128 + r mod 64].
Proof.
  intros H. unfold encode_rune. decide_tests.
  rewrite shiftr_6, land_63.
  rewrite lor_192, lor_128 by (Z.to_euclidean_division_equations; lia). done.
Qed.

Lemma encode_rune_3 r :
  0x800 <= r <= 0xFFFF ->
  encode_rune r = [224 + r / 4096; 128 + (r / 64) mod 64; 128 + r mod 64].
Proof.
  intros H. unfold encode_rune. decide_tests.
  rewrite shiftr_12, shiftr_6, !land_63.
  rewrite lor_224, !lor_128 by (Z.to_euclidean_division_equations; lia). done.
Qed.

Lemma encode_rune_4 r :
  0x10000 <= r <= 0x10FFFF ->
  encode_rune r
  = [240 + r / 262144; 128 + (r / 4096) mod 64; 128 + (r / 64) mod 64; 128 + r mod 64].
Proof.
  intros H. unfold encode_rune. decide_tests.
  rewrite shiftr_18, shiftr_12, shiftr_6, !land_63.
  rewrite lor_240, !lor_128 by (Z.to_euclidean_division_equations; lia). done.
Qed.

Lemma continuation_byte m : 0 <= m < 64 -> is_continuation (128 + m) = true.
Proof. intros H. unfold is_continuation. by decide_tests. Qed.

Lemma land_63_continuation m : 0 <= m < 64 -> Z.land (128 + m) 63 = m.
Proof. intros H. rewrite land_63. Z.to_euclidean_division_equations. lia. Qed.

Lemma decode_rune_1 r : 0 <= r <= 0x7F -> decode_rune [r] = Some (r, []).
Proof. intros H. unfold decode_rune. by decide_tests. Qed.

Lemma decode_rune_2 q m :
  2 <= q < 32 -> 0 <= m < 64 ->
  decode_rune [192 + q; 128 + m] = Some (q * 64 + m, []).
Proof.
  intros Hq Hm. unfold decode_rune.
  assert (E0 : Z.land (192 + q) 31 = q)
    by (rewrite land_31; Z.to_euclidean_division_equations; lia).
  rewrite E0, land_63_continuation, continuation_byte by done.
  rewrite !lor_shiftl_6 by done. cbv zeta. by decide_tests.
Qed.

Lemma decode_rune_3 a b c :
  0 <= a < 16 -> 0 <= b < 64 -> 0 <= c < 64 ->
  0x800 <= a * 4096 + b * 64 + c ->
  a * 4096 + b * 64 + c < 0xD800 \/ 0xDFFF < a * 4096 + b * 64 + c ->
  decode_rune [224 + a; 128 + b; 128 + c] = Some (a * 4096 + b * 64 + c, []).
Proof.
  intros Ha Hb Hc Hlow Hsur. unfold decode_rune.
  assert (E0 : Z.land (224 + a) 15 = a)
    by (rewrite land_15; Z.to_euclidean_division_equations; lia).
  rewrite E0, !land_63_continuation, !continuation_byte by done.
  rewrite !lor_shiftl_6 by done. rewrite !lor_shiftl_12 by lia. cbv zeta.
  rewrite Z.add_assoc. by decide_tests.
Qed.

Lemma decode_rune_4 a b c d :
  0 <= a < 8 -> 0 <= b < 64 -> 0 <= c < 64 -> 0 <= d < 64 ->
  0x10000 <= a * 262144 + b * 4096 + c * 64 + d <= 0x10FFFF ->
  decode_rune [240 + a; 128 + b; 128 + c; 128 + d]
  = Some (a * 262144 + b * 4096 + c * 64 + d, []).
Proof.
  intros Ha Hb Hc Hd Hr. unfold decode_rune.
  assert (E0 : Z.land (240 + a) 7 = a)
    by (rewrite land_7; Z.to_euclidean_division_equations; lia).
  rewrite E0, !land_63_continuation, !continuation_byte by done.
  rewrite !lor_shiftl_6 by done. rewrite !lor_shiftl_12 by lia.
  rewrite lor_shiftl_18 by lia. cbv zeta.
  rewrite !Z.add_assoc. by decide_tests.
Qed.

(** The four forms of the encoding of a valid code point. *)
Lemma encode_rune_cases r :
  valid_rune r = true ->
  (0 <= r <= 0x7F /\ encode_rune r = [r]) \/
  (exists b0 rest, encode_rune r = b0 :: rest /\ 192 <= b0 < 256 /\
                   Forall (fun b => 0 <= b < 256) rest).
Proof.
  intros Hv. pose proof (valid_rune_range r Hv) as Hr.
  destruct (Z.le_gt_cases r 0x7F); [left; split; [lia | by apply encode_rune_1]|].
  right. destruct (Z.le_gt_cases r 0x7FF).
  { rewrite encode_rune_2 by lia. eexists _, _. split; [done|].
    split; [|repeat constructor]; Z.to_euclidean_division_equations; lia. }
  destruct (Z.le_gt_cases r 0xFFFF).
  { rewrite encode_rune_3 by lia. eexists _, _. split; [done|].
    split; [|repeat constructor]; Z.to_euclidean_division_equations; lia. }
  rewrite encode_rune_4 by lia. eexists _, _. split; [done|].
  split; [|repeat constructor]; Z.to_euclidean_division_equations; lia.
Qed.

Lemma encode_rune_bytes r :
  valid_rune r = true -> Forall (fun b => 0 <= b < 256) (encode_rune r).
Proof.
  intros Hv. destruct (encode_rune_cases r Hv) as [[Hr ->]|(b0 & rest & -> & Hb & Hrest)].
  - repeat constructor; lia.
  - constructor; [lia | done].
Qed.

Lemma decode_encode_rune r :
  valid_rune r = true -> decode_rune (encode_rune r) = Some (r, []).
Proof.
  intros Hv. pose proof (valid_rune_range r Hv) as Hr.
  pose proof (valid_rune_not_surrogate r Hv) as Hs.
  destruct (Z.le_gt_cases r 0x7F).
  { rewrite encode_rune_1 by lia. apply decode_rune_1. lia. }
  destruct (Z.le_gt_cases r 0x7FF).
  { rewrite encode_rune_2 by lia. rewrite decode_rune_2.
    - do 2 f_equal. Z.to_euclidean_division_equations. lia.
    - Z.to_euclidean_division_equations. lia.
    - Z.to_euclidean_division_equations. lia. }
  assert (Hsplit : forall x, x = x / 4096 * 4096 + (x / 64) mod 64 * 64 + x mod 64)
    by (intros x; Z.to_euclidean_division_equations; lia).
  destruct (Z.le_gt_cases r 0xFFFF).
  { rewrite encode_rune_3 by lia. rewrite decode_rune_3.
    - do 2 f_equal. symmetry. apply Hsplit.
    - Z.to_euclidean_division_equations. lia.
    - Z.to_euclidean_division_equations. lia.
    - Z.to_euclidean_division_equations. lia.
    - rewrite <- Hsplit. lia.
    - rewrite <- Hsplit. lia. }
  assert (Hsplit4 : r = r / 262144 * 262144 + (r / 4096) mod 64 * 4096
                        + (r / 64) mod 64 * 64 + r mod 64)
    by (Z.to_euclidean_division_equations; lia).
  rewrite encode_rune_4 by lia. rewrite decode_rune_4.
  - do 2 f_equal. symmetry. apply Hsplit4.
  - Z.to_euclidean_division_equations. lia.
  - Z.to_euclidean_division_equations. lia.
  - Z.to_euclidean_division_equations. lia.
  - Z.to_euclidean_division_equations. lia.
  - rewrite <- Hsplit4. lia.
Qed.

End RuneEncoding.

Section RuneStrings.
Import GoString.

Lemma Z_of_byte_of_Z b : 0 <= b < 256 -> Z_of_byte (byte_of_Z b) = b.
Proof.
  intros H. unfold Z_of_byte, byte_of_Z.
  rewrite N_ascii_embedding by lia. lia.
Qed.

Lemma bytes_of_string_of_bytes bs :
  Forall (fun b => 0 <= b < 256) bs -> bytes_of_string (string_of_bytes bs) = bs.
Proof.
  intros H. unfold bytes_of_string, string_of_bytes.
  rewrite String.list_ascii_of_string_of_list_ascii.
  induction H as [|b bs Hb _ IH]; [done|].
  cbn [fmap list_fmap]. rewrite Z_of_byte_of_Z by done. f_equal. exact IH.
Qed.

(** The string made from a valid code point reads back as that one
    character. *)
Lemma utf8_decode_encode r :
  valid_rune r = true -> utf8_decode (string_of_bytes (encode_rune r)) = Some [r].
Proof.
  intros Hv. unfold utf8_decode.
  rewrite bytes_of_string_of_bytes by (by apply encode_rune_bytes).
  pose proof (decode_encode_rune r Hv) as Hd.
  destruct (encode_rune r) as [|b bs] eqn:E; [discriminate|].
  cbn [length decode_runes]. rewrite Hd. by destruct (length bs).
Qed.

Lemma utf8_decode_string_of_rune r :
  utf8_decode (string_of_rune r) = Some [if valid_rune r then r else RuneError].
Proof.
  unfold string_of_rune. destruct (valid_rune r) eqn:Hv.
  - by apply utf8_decode_encode.
  - by apply utf8_decode_encode.
Qed.

Lemma rune_of_int_small n : - 2 ^ 31 <= n < 2 ^ 31 -> rune_of_int n = n.
Proof. intros H. unfold rune_of_int. rewrite Z.mod_small by lia. lia. Qed.

Lemma rune_of_int_valid n : valid_rune n = true -> rune_of_int n = n.
Proof. intros H. apply valid_rune_range in H. apply rune_of_int_small. lia. Qed.

(** No decoded character has a negative code point. *)
Lemma decode_rune_nonneg bs r rest : decode_rune bs = Some (r, rest) -> 0 <= r.
Proof.
  unfold decode_rune. intros H.
  repeat match type of H with
         | match ?l with [] => _ | _ :: _ => _ end = _ => destruct l
         | (if ?c then _ else _) = _ => destruct c eqn:?
         | Some _ = Some _ => inversion H; subst; clear H
         | None = Some _ => discriminate
         end; lia.
Qed.

End RuneStrings.


Section DecimalFacts.
Import GoString.

Lemma byte_of_Z_inj a b : 0 <= a < 256 -> 0 <= b < 256 -> byte_of_Z a = byte_of_Z b -> a = b.
Proof.
  intros Ha Hb H. rewrite <- (Z_of_byte_of_Z a), <- (Z_of_byte_of_Z b) by done.
  by rewrite H.
Qed.

(** With fuel left, the digits start with a digit and extend [acc]. *)
Lemma decimal_digits_shape (f : nat) : forall n acc,
  exists b rest,
    decimal_digits (S f) n acc = String (byte_of_Z b) rest /\ 48 <= b <= 57 /\
    (String.length acc < String.length (decimal_digits (S f) n acc))%nat.
Proof.
  induction f as [|f IH]; intros n acc.
  - exists (48 + n mod 10), acc. cbn [decimal_digits].
    pose proof (Z.mod_pos_bound n 10 ltac:(lia)).
    destruct (n / 10 =? 0); (split; [done|]; split; [lia|]; simpl; lia).
  - cbn [decimal_digits].
    pose proof (Z.mod_pos_bound n 10 ltac:(lia)).
    destruct (n / 10 =? 0).
    + exists (48 + n mod 10), acc. split; [done|]. split; [lia|]. simpl. lia.
    + destruct (IH (n / 10) (String (byte_of_Z (48 + n mod 10)) acc))
        as (b & rest & E & Hb & Hl).
      exists b, rest. split; [done|]. split; [done|]. simpl in Hl. lia.
Qed.

Lemma decimal_first n :
  exists b rest, decimal n = String (byte_of_Z b) rest /\ 45 <= b <= 57.
Proof.
  unfold decimal. destruct (n <? 0).
  - exists 45. eexists. split; [reflexivity | lia].
  - destruct (decimal_digits_shape (Z.to_nat (Z.log2 n)) n "") as (b & rest & E & Hb & _).
    exists b, rest. split; [done | lia].
Qed.

Lemma decimal_single n :
  String.length (decimal n) = 1%nat ->
  0 <= n < 10 /\ decimal n = String (byte_of_Z (48 + n)) "".
Proof.
  unfold decimal. destruct (Z.ltb_spec n 0) as [Hneg|Hpos].
  - destruct (decimal_digits_shape (Z.to_nat (Z.log2 (- n))) (- n) "") as (b & rest & E & _ & Hl).
    simpl. simpl in Hl. lia.
  - destruct (Z.lt_ge_cases n 10) as [Hsmall|Hbig].
    + intros _. split; [lia|]. cbn [decimal_digits].
      rewrite Z.mod_small, Z.div_small by lia. done.
    + assert (3 <= Z.log2 n) by (apply Z.log2_le_pow2; lia).
      destruct (Z.to_nat (Z.log2 n)) as [|f] eqn:Ef; [lia|].
      cbn [decimal_digits].
      assert (n / 10 <> 0) as Hq by (Z.to_euclidean_division_equations; lia).
      apply Z.eqb_neq in Hq. rewrite Hq.
      destruct (decimal_digits_shape f (n / 10) (String (byte_of_Z (48 + n mod 10)) ""))
        as (b & rest & E & _ & Hl).
      simpl in Hl. lia.
Qed.

(** [string(r)] is one byte below 128, the code point itself, or starts
    with a lead byte from [0xC0]. *)
Lemma string_of_rune_shape r :
  (valid_rune r = true /\ 0 <= r < 128 /\ string_of_rune r = String (byte_of_Z r) "") \/
  (exists b rest, string_of_rune r = String (byte_of_Z b) rest /\ 192 <= b < 256).
Proof.
  unfold string_of_rune.
  set (r0 := if valid_rune r then r else RuneError).
  assert (Hv0 : valid_rune r0 = true).
  { unfold r0. destruct (valid_rune r) eqn:E; [done | reflexivity]. }
  destruct (encode_rune_cases r0 Hv0) as [[Hr E]|(b & rest & E & Hb & _)]; rewrite E.
  - left. unfold r0 in *. destruct (valid_rune r) eqn:Ev.
    + split; [done|]. split; [lia | done].
    + unfold RuneError in Hr. lia.
  - right. exists b. eexists. split; [reflexivity | done].
Qed.

Lemma string_of_rune_not_decimal size : string_of_rune (rune_of_int size) <> decimal size.
Proof.
  intros Heq.
  destruct (string_of_rune_shape (rune_of_int size)) as [(Hv & Hr & E)|(b & rest & E & Hb)].
  - rewrite E in Heq.
    destruct (decimal_single size) as [Hs Ed]; [by rewrite <- Heq|].
    rewrite rune_of_int_small in Heq by lia. rewrite Ed in Heq.
    injection Heq as Heq. apply byte_of_Z_inj in Heq; lia.
  - destruct (decimal_first size) as (d & rest' & Ed & Hd).
    rewrite E, Ed in Heq. injection Heq as Heq _.
    apply byte_of_Z_inj in Heq; lia.
Qed.

Lemma utf8_decode_not_negative s r : r < 0 -> utf8_decode s <> Some [r].
Proof.
  intros Hr H. unfold utf8_decode in H.
  destruct (bytes_of_string s) as [|b bs] eqn:E; [discriminate|].
  cbn [length decode_runes] in H.
  destruct (decode_rune (b :: bs)) as [[r' rest]|] eqn:Ed; [|discriminate].
  apply decode_rune_nonneg in Ed.
  destruct (decode_runes (length bs) rest); [|discriminate].
  inversion H. lia.
Qed.

End DecimalFacts.

(** C8 (counterexample): for [size = -1] the text returned by
    [HardDrive.Read] holds the replacement character U+FFFD (bytes EF BF BD),
    not a character whose code point is [size]. *)
Lemma HardDrive_Read_negative_size :
  Facade.HardDrive_Read "sda" (-1)
    = "HardDrive: Reading data of size " +:+ GoString.string_of_bytes [239; 191; 189] +:+ " from sda" /\
  utf8_decode (GoString.string_of_bytes [239; 191; 189]) = Some [65533] /\
  ~ embeds_code_point "sda" (-1).
Proof.
  split; [reflexivity|]. split; [reflexivity|].
  intros (s & _ & Hd). by apply (utf8_decode_not_negative s (-1)).
Qed.

(** C8 (amended): for a size that is a valid Unicode code point,
    [HardDrive.Read] returns the fixed text around the one character whose
    code point is the size; for every size the embedded text is the rune
    conversion, which reads back as a single character (U+FFFD when the
    converted value is not a valid code point) and is never the decimal
    representation of the size.  The [Pay] methods and [display] embed the
    rune conversion of their amount in the same way. *)
Theorem HardDrive_Read_embeds_rune (position : string) (size : Z) :
  GoString.valid_rune size = true ->
  embeds_code_point position size /\
  (forall p n,
     Facade.HardDrive_Read p n
       = (("HardDrive: Reading data of size " +:+ GoString.string_of_rune (GoString.rune_of_int n))
            +:+ " from ") +:+ p /\
     utf8_decode (GoString.string_of_rune (GoString.rune_of_int n))
       = Some [if GoString.valid_rune (GoString.rune_of_int n)
               then GoString.rune_of_int n else GoString.RuneError] /\
     GoString.string_of_rune (GoString.rune_of_int n) <> decimal n) /\
  (forall (float64 : Type) (rune_of_float64 : float64 -> Z) (amount : float64),
     let embedded := GoString.string_of_rune (rune_of_float64 amount) in
     Behavioral.CreditCardStrategy_Pay float64 rune_of_float64 amount
       = ("Paid " +:+ embedded) +:+ " using Credit Card" /\
     Behavioral.PayPalStrategy_Pay float64 rune_of_float64 amount
       = ("Paid " +:+ embedded) +:+ " using PayPal" /\
     Behavioral.BitcoinStrategy_Pay float64 rune_of_float64 amount
       = ("Paid " +:+ embedded) +:+ " using Bitcoin" /\
     (forall name,
        Behavioral.TemperatureDisplay_display float64 rune_of_float64 name amount
          = (("Display " +:+ name) +:+ " shows temperature: ") +:+ embedded) /\
     utf8_decode embedded
       = Some [if GoString.valid_rune (rune_of_float64 amount)
               then rune_of_float64 amount else GoString.RuneError]).
Proof.
  intros Hv. split; [|split].
  - exists (GoString.string_of_rune size). split.
    + unfold Facade.HardDrive_Read. by rewrite rune_of_int_valid.
    + rewrite utf8_decode_string_of_rune, Hv. done.
  - intros p n. split; [reflexivity|]. split.
    + apply utf8_decode_string_of_rune.
    + apply string_of_rune_not_decimal.
  - intros float64 rune_of_float64 amount embedded.
    split; [reflexivity|]. split; [reflexivity|]. split; [reflexivity|].
    split; [reflexivity|]. apply utf8_decode_string_of_rune.
Qed.

Lemma HardDrive_Read_embeds_rune_witness :
  GoString.valid_rune 65 = true /\ embeds_code_point "sda" 65.
Proof.
  split; [reflexivity|].
  apply (HardDrive_Read_embeds_rune "sda" 65). reflexivity.
Defined.


(** * The programs' own examples, evaluated on the model *)

Example sorts_on_sample :
  Sorting.BubbleSort [5; 2; 9; 1; 5; 6] = Done [1; 2; 5; 5; 6; 9] /\
  Sorting.QuickSort [5; 2; 9; 1; 5; 6] = Done [1; 2; 5; 5; 6; 9] /\
  Sorting.MergeSort [5; 2; 9; 1; 5; 6] = Done [1; 2; 5; 5; 6; 9] /\
  Sorting.InsertionSort [5; 2; 9; 1; 5; 6] = Done [1; 2; 5; 5; 6; 9] /\
  Sorting.isSorted [1; 2; 5; 5; 6; 9] = Done true.
Proof. repeat split; vm_compute; reflexivity. Qed.

Example inorder_of_main_tree :
  exists t, Tree.insert_all [5; 3; 7; 1; 4; 6; 8] (Tree.mkTree Tree.Nil) = Done t /\
            Tree.InorderTraversal t = [1; 3; 4; 5; 6; 7; 8].
Proof. eexists. split; reflexivity. Qed.

(** The graph of [main]: vertices 0 to 5, the edges of a 2 x 3 grid. *)
Example traversals_of_main_graph :
  let g := Graph.build
             ((Graph.OpAddVertex <$> [0; 1; 2; 3; 4; 5]) ++
              [Graph.OpAddEdge 0 1; Graph.OpAddEdge 1 2; Graph.OpAddEdge 0 3;
               Graph.OpAddEdge 1 4; Graph.OpAddEdge 2 5; Graph.OpAddEdge 3 4;
               Graph.OpAddEdge 4 5]) in
  Graph.BFS g 0 = Done [0; 1; 3; 2; 4; 5] /\
  Graph.DFS g 0 = Done [0; 1; 2; 5; 4; 3] /\
  Graph.GetNeighbors g 1 = [0; 2; 4].
Proof. repeat split; vm_compute; reflexivity. Qed.

Example jump_search_on_sorted :
  Search.JumpSearch [1; 3; 5; 7; 9; 11; 13] 9 = Done 4 /\
  Search.JumpSearch [1; 3; 5; 7; 9; 11; 13] 4 = Done (-1) /\
  Search.LinearSearch [4; 2; 7] 7 = 2.
Proof. repeat split; vm_compute; reflexivity. Qed.


(** * More on the stack and the queue *)

(** X1: [Pop] undoes [Push]: after pushing [x] on any stack, [Peek] and
    [Pop] return [x] with a nil error, [Pop] gives the stack back as it was,
    and [Size] has grown by one. *)
Theorem stack_push_pop_laws (s : Stack.Stack) (x : Z) :
  Stack.Pop (Stack.Push s x) = Done ((x, None), s) /\
  Stack.Peek (Stack.Push s x) = Done (x, None) /\
  Stack.Size (Stack.Push s x) = Stack.Size s + 1 /\
  Stack.IsEmpty (Stack.Push s x) = false.
Proof.
  destruct s as [l]. unfold Stack.Push. cbn [Stack.items].
  pose proof (len_nonneg l) as Hl.
  assert (Hlen : len (l ++ [x]) = len l + 1) by (by rewrite len_app).
  split; [apply Pop_snoc|]. split; [|split].
  - unfold Stack.Peek. cbn [Stack.items]. rewrite Hlen.
    destruct (Z.eqb_spec (len l + 1) 0); [lia|].
    replace (len l + 1 - 1) with (len l) by lia.
    assert (Hix : index (l ++ [x]) (len l) = Done x).
    { apply index_Done. split; [done|]. unfold len. rewrite Nat2Z.id.
      by rewrite list_lookup_middle. }
    by rewrite Hix.
  - unfold Stack.Size. cbn [Stack.items]. done.
  - unfold Stack.IsEmpty. cbn [Stack.items]. rewrite Hlen. lia.
Qed.

(** X2: the queue is first-in first-out under mixed use: enqueuing on an
    empty queue and dequeuing returns the new item; on a non-empty queue
    [Dequeue] and [Peek] return the oldest item with a nil error, the size
    drops by one, and a later [Enqueue] does not change what is dequeued. *)
Theorem queue_fifo_laws (q : Queue.Queue) (x : Z) :
  (Queue.IsEmpty q = true /\
   Queue.Dequeue (Queue.Enqueue q x) = Done ((x, None), q)) \/
  (exists v q',
     Queue.IsEmpty q = false /\
     Queue.Dequeue q = Done ((v, None), q') /\
     Queue.Peek q = Done (v, None) /\
     Queue.Size q' = Queue.Size q - 1 /\
     Queue.Dequeue (Queue.Enqueue q x) = Done ((v, None), Queue.Enqueue q' x)).
Proof.
  destruct q as [[|v l]].
  - left. split; [reflexivity|]. apply (Dequeue_cons x []).
  - right. exists v, (Queue.mkQueue l).
    pose proof (len_nonneg l) as Hl.
    assert (Hlen : len (v :: l) = len l + 1) by (unfold len; simpl; lia).
    split; [|split; [|split; [|split]]].
    + unfold Queue.IsEmpty. cbn [Queue.items]. lia.
    + apply Dequeue_cons.
    + unfold Queue.Peek. cbn [Queue.items].
      destruct (Z.eqb_spec (len (v :: l)) 0); [lia | done].
    + unfold Queue.Size. cbn [Queue.items]. lia.
    + unfold Queue.Enqueue. cbn [Queue.items]. apply (Dequeue_cons v (l ++ [x])).
Qed.

(** * The bracket checker *)

Section BracketFacts.
Import Brackets.

Lemma brackets_range_depth runes : forall l,
  exists ret stack,
    brackets_range runes (Stack.mkStack l) = Done (ret, stack) /\
    (match ret with
     | Some b => b
     | None => Stack.IsEmpty stack
     end) = depth_run (length l) runes.
Proof.
  induction runes as [|ch rest IH]; intros l; cbn [brackets_range depth_run].
  - eexists _, _. split; [reflexivity|]. cbn beta iota.
    unfold Stack.IsEmpty, len. cbn [Stack.items]. destruct l; [done|].
    cbn [length]. apply Z.eqb_neq. lia.
  - destruct (ch =? 40).
    + unfold Stack.Push. cbn [Stack.items].
      destruct (IH (l ++ [1])) as (ret & stack & E & H).
      rewrite length_app, Nat.add_comm in H. eauto.
    + destruct (ch =? 41); [|apply IH].
      destruct l as [|y l' _] using rev_ind.
      * eexists _, _. split; [reflexivity|]. done.
      * assert (Hne : Stack.IsEmpty (Stack.mkStack (l' ++ [y])) = false).
        { unfold Stack.IsEmpty. cbn [Stack.items]. rewrite len_app.
          pose proof (len_nonneg l'). change (len [y]) with 1. apply Z.eqb_neq. lia. }
        rewrite Hne, Pop_snoc. cbn [obind].
        destruct (IH l') as (ret & stack & E & H).
        rewrite length_app, Nat.add_comm. simpl. eauto.
Qed.

Lemma isValidBrackets_depth s :
  isValidBrackets s = Done (depth_run 0 (range_runes s)).
Proof.
  unfold isValidBrackets.
  destruct (brackets_range_depth (range_runes s) []) as (ret & stack & E & H).
  rewrite E. cbn [obind]. simpl in H. rewrite <- H. by destruct ret.
Qed.

(** A balanced text in front changes nothing. *)
Lemma depth_run_balanced l : balanced l -> forall n rest,
  depth_run n (l ++ rest) = depth_run n rest.
Proof.
  induction 1 as [|c l Hc1 Hc2 _ IH|l1 l2 _ IH1 _ IH2]; intros n rest.
  - done.
  - cbn [app depth_run].
    destruct (Z.eqb_spec c 40); [done|]. destruct (Z.eqb_spec c 41); [done|]. apply IH.
  - cbn [app depth_run]. change (40 =? 40) with true. cbn beta iota.
    rewrite <- app_assoc, IH1. cbn [app depth_run].
    change (41 =? 40) with false. change (41 =? 41) with true. cbn beta iota.
    apply IH2.
Qed.

Lemma closes_other n c l : c <> 40 -> c <> 41 -> closes n l -> closes n (c :: l).
Proof.
  intros H1 H2. destruct n as [|n]; cbn [closes].
  - by constructor.
  - intros (l1 & l2 & -> & B & C). exists (c :: l1), l2.
    split; [done|]. split; [by constructor | done].
Qed.

Lemma closes_open n l : closes (S n) l -> closes n (40 :: l).
Proof.
  cbn [closes]. intros (l1 & l2 & -> & B & C). destruct n as [|n]; cbn [closes] in *.
  - by constructor.
  - destruct C as (l3 & l4 & -> & B3 & C4).
    exists (40 :: l1 ++ 41 :: l3), l4. split; [|split; [by constructor | done]].
    simpl. by rewrite <- app_assoc.
Qed.

Lemma depth_run_closes l : forall n, depth_run n l = true -> closes n l.
Proof.
  induction l as [|c l IH]; intros n; cbn [depth_run].
  - destruct n; [constructor | discriminate].
  - destruct (Z.eqb_spec c 40) as [->|H40].
    + intros H. apply closes_open, IH, H.
    + destruct (Z.eqb_spec c 41) as [->|H41].
      * destruct n as [|n]; [discriminate|]. intros H.
        exists [], l. split; [done|]. split; [constructor | by apply IH].
      * intros H. by apply closes_other, IH.
Qed.

End BracketFacts.

(** X3: [isValidBrackets] never panics and answers [true] exactly when the
    parentheses of the text are balanced, whatever other characters stand
    between them. *)
Theorem isValidBrackets_balanced (s : string) :
  exists b, Brackets.isValidBrackets s = Done b /\
            (b = true <-> Brackets.balanced (range_runes s)).
Proof.
  exists (Brackets.depth_run 0 (range_runes s)). split; [apply isValidBrackets_depth|].
  split.
  - apply (depth_run_closes _ 0%nat).
  - intros H. rewrite <- (app_nil_r (range_runes s)).
    by rewrite depth_run_balanced.
Qed.


(** * More on the binary search tree *)

Section TreeMore.
Import Tree.

(** In a weakly ordered tree the search path leads to every stored value. *)
Lemma searchRecursive_values node v :
  weak_bst node -> searchRecursive node v = true <-> v ∈ values_of node.
Proof.
  induction node as [|x l IHl r IHr]; cbn [searchRecursive values_of weak_bst].
  - intros _. split; [discriminate | intros H; by apply elem_of_nil in H].
  - intros (Hl & Hr & Wl & Wr). rewrite Forall_forall in Hl, Hr.
    rewrite elem_of_app, elem_of_cons.
    destruct (Z.eqb_spec x v) as [->|Hne]; [tauto|].
    destruct (Z.ltb_spec v x) as [Hlt|Hge].
    + rewrite (IHl Wl). split; [tauto|]. intros [H|[H|H]]; [done | congruence|].
      apply Hr in H. lia.
    + rewrite (IHr Wr). split; [tauto|]. intros [H|[H|H]]; [|congruence | done].
      apply Hl in H. lia.
Qed.

Lemma preorderRecursive_perm node result :
  preorderRecursive node result ≡ₚ result ++ values_of node.
Proof.
  revert result. induction node as [|v l IHl r IHr]; intros result; simpl.
  - by rewrite app_nil_r.
  - rewrite IHr, IHl, <- !app_assoc. apply Permutation_app_head. simpl.
    apply Permutation_middle.
Qed.

Lemma postorderRecursive_perm node result :
  postorderRecursive node result ≡ₚ result ++ values_of node.
Proof.
  revert result. induction node as [|v l IHl r IHr]; intros result; simpl.
  - by rewrite app_nil_r.
  - rewrite IHr, IHl, <- !app_assoc. do 2 apply Permutation_app_head.
    symmetry. apply Permutation_cons_append.
Qed.

Lemma preorderRecursive_head node result :
  exists rest, preorderRecursive node result = result ++ rest /\
               match node with
               | Nil => rest = []
               | Node v _ _ => exists rest', rest = v :: rest'
               end.
Proof.
  revert result. induction node as [|v l IHl r IHr]; intros result; simpl.
  - exists []. by rewrite app_nil_r.
  - destruct (IHl (result ++ [v])) as (r1 & E1 & _). rewrite E1.
    destruct (IHr ((result ++ [v]) ++ r1)) as (r2 & E2 & _). rewrite E2.
    exists (v :: r1 ++ r2). split; [|eauto].
    rewrite <- !app_assoc. done.
Qed.

(** A new value keeps the strict order. *)
Lemma insertRecursive_strict node x :
  node <> Nil -> x ∉ values_of node -> strict_bst node ->
  exists node', insertRecursive node x = Done node' /\ strict_bst node'.
Proof.
  induction node as [|v l IHl r IHr]; intros Hne Hx Hs; [done|].
  cbn [values_of] in Hx. rewrite elem_of_app, elem_of_cons in Hx.
  destruct Hs as (Hl & Hr & Sl & Sr).
  cbn [insertRecursive]. destruct (Z.ltb_spec x v) as [Hlt|Hge].
  - destruct l as [|lv ll lr].
    + eexists. split; [reflexivity|]. simpl. repeat split; auto.
    + destruct (insertRecursive_spec (Node lv ll lr) x) as (l' & El & _ & Pl & _); [done|].
      destruct IHl as (l'' & El' & Sl'); [done | tauto | done |].
      rewrite El in El'. inversion El'; subst l''.
      rewrite El. cbn [obind]. eexists. split; [reflexivity|].
      cbn [strict_bst]. repeat split; auto.
      rewrite Pl. by constructor.
  - destruct r as [|rv rl rr].
    + eexists. split; [reflexivity|]. simpl. repeat split; auto.
      constructor; [|done]. assert (x <> v) by tauto. lia.
    + destruct (insertRecursive_spec (Node rv rl rr) x) as (r' & Er & _ & Pr & _); [done|].
      destruct IHr as (r'' & Er' & Sr'); [done | tauto | done |].
      rewrite Er in Er'. inversion Er'; subst r''.
      rewrite Er. cbn [obind]. eexists. split; [reflexivity|].
      cbn [strict_bst]. repeat split; auto.
      rewrite Pr. constructor; [|done]. assert (x <> v) by tauto. lia.
Qed.

Lemma insert_all_strict values : forall t,
  NoDup (values_of (Root t) ++ values) -> strict_bst (Root t) ->
  exists t', insert_all values t = Done t' /\ strict_bst (Root t').
Proof.
  induction values as [|x values IH]; intros t Hnd Hs; cbn [insert_all].
  - eauto.
  - destruct (Insert_spec t x) as (t1 & E1 & P1 & _). rewrite E1. cbn [obind].
    apply IH.
    + rewrite P1. simpl. by rewrite Permutation_middle.
    + assert (Hx : x ∉ values_of (Root t)).
      { apply NoDup_app in Hnd as (_ & Hd & _). intros Hin.
        apply (Hd x Hin). by left. }
      destruct t as [root]. unfold Insert in E1. cbn [Root] in *.
      destruct root as [|v l r].
      * inversion E1; subst. simpl. repeat split; auto.
      * destruct (insertRecursive_strict (Node v l r) x) as (n' & En & Sn); [done..|].
        rewrite En in E1. cbn [obind] in E1. inversion E1; subst. done.
Qed.

(** The root never changes once it is there. *)
Lemma insertRecursive_root v l r x :
  exists l' r', insertRecursive (Node v l r) x = Done (Node v l' r').
Proof.
  cbn [insertRecursive]. destruct (x <? v).
  - destruct l as [|lv ll lr]; [eauto|].
    destruct (insertRecursive_spec (Node lv ll lr) x) as (l' & El & _); [done|].
    rewrite El. cbn [obind]. eauto.
  - destruct r as [|rv rl rr]; [eauto|].
    destruct (insertRecursive_spec (Node rv rl rr) x) as (r' & Er & _); [done|].
    rewrite Er. cbn [obind]. eauto.
Qed.

Lemma insert_all_root values : forall v l r,
  exists l' r', insert_all values (mkTree (Node v l r)) = Done (mkTree (Node v l' r')).
Proof.
  induction values as [|x values IH]; intros v l r; cbn [insert_all]; [eauto|].
  unfold Insert. cbn [Root].
  destruct (insertRecursive_root v l r x) as (l1 & r1 & E). rewrite E. cbn [obind].
  apply IH.
Qed.

End TreeMore.

(** X4: after any sequence of [Insert] calls on the empty tree, [Search]
    answers [true] for exactly the inserted values, duplicates included. *)
Theorem Search_finds_inserted (values : list Z) :
  exists t, Tree.insert_all values (Tree.mkTree Tree.Nil) = Done t /\
            forall v, Tree.Search t v = true <-> v ∈ values.
Proof.
  destruct (insert_all_spec values (Tree.mkTree Tree.Nil)) as (t & E & P & W).
  exists t. split; [done|]. intros v. unfold Tree.Search.
  rewrite searchRecursive_values by (apply W; simpl; done).
  rewrite P. done.
Qed.

(** X5: the preorder and postorder traversals visit every node exactly once:
    each is a permutation of the inserted values, hence of the inorder
    traversal, and the preorder list starts with the first value inserted
    (the root). *)
Theorem traversals_visit_every_node (values : list Z) :
  exists t, Tree.insert_all values (Tree.mkTree Tree.Nil) = Done t /\
            Tree.PreorderTraversal t ≡ₚ values /\
            Tree.PostorderTraversal t ≡ₚ values /\
            Tree.InorderTraversal t ≡ₚ Tree.PreorderTraversal t /\
            head (Tree.PreorderTraversal t) = head values /\
            last (Tree.PostorderTraversal t) = head values.
Proof.
  destruct (insert_all_spec values (Tree.mkTree Tree.Nil)) as (t & E & P & _).
  simpl in P. exists t. split; [done|].
  unfold Tree.PreorderTraversal, Tree.PostorderTraversal.
  rewrite InorderTraversal_values.
  split; [by rewrite preorderRecursive_perm|].
  split; [by rewrite postorderRecursive_perm|].
  split; [by rewrite preorderRecursive_perm|].
  destruct values as [|x values].
  - inversion E; subst. done.
  - cbn [Tree.insert_all Tree.Insert Tree.Root obind] in E.
    destruct (insert_all_root values x Tree.Nil Tree.Nil) as (l' & r' & E').
    rewrite E' in E. inversion E; subst t. cbn [Tree.Root head].
    split.
    + destruct (preorderRecursive_head (Tree.Node x l' r') []) as (rest & -> & rest' & ->).
      done.
    + cbn [Tree.postorderRecursive]. apply last_snoc.
Qed.

(** X6: when the inserted values are pairwise distinct, every node of the
    resulting tree has only smaller values in its left subtree and only
    larger values in its right subtree (the strict ordering of the file
    header). *)
Theorem distinct_inserts_keep_strict_order (values : list Z) :
  NoDup values ->
  exists t, Tree.insert_all values (Tree.mkTree Tree.Nil) = Done t /\
            Tree.strict_bst (Tree.Root t).
Proof.
  intros Hnd. apply insert_all_strict; simpl; done.
Qed.

Lemma distinct_inserts_keep_strict_order_witness :
  NoDup [5; 3; 7; 1; 4; 6; 8] /\
  exists t, Tree.insert_all [5; 3; 7; 1; 4; 6; 8] (Tree.mkTree Tree.Nil) = Done t /\
            Tree.strict_bst (Tree.Root t).
Proof.
  assert (H : NoDup [5; 3; 7; 1; 4; 6; 8]).
  { apply NoDup_ListNoDup. repeat (constructor; [simpl; lia|]). constructor. }
  split; [exact H|]. apply (distinct_inserts_keep_strict_order _ H).
Defined.


(** * More on searching *)

Section LinearSearchFacts.
Import Search.

Lemma linear_range_spec arr target : forall i,
  ((target ∉ arr) /\ linear_range arr i target = -1) \/
  (exists k : nat,
     linear_range arr i target = i + Z.of_nat k /\
     arr !! k = Some target /\
     forall j : nat, (j < k)%nat -> arr !! j <> Some target).
Proof.
  induction arr as [|x arr IH]; intros i; cbn [linear_range].
  - left. split; [apply not_elem_of_nil | done].
  - destruct (Z.eqb_spec x target) as [->|Hne].
    + right. exists O. split; [lia|]. split; [done|]. intros j Hj. lia.
    + destruct (IH (i + 1)) as [[Hnot E]|(k & E & Hk & Hfirst)].
      * left. split; [|done]. rewrite not_elem_of_cons. done.
      * right. exists (S k). split; [lia|]. split; [done|].
        intros [|j] Hj; simpl; [congruence|]. apply Hfirst. lia.
Qed.

End LinearSearchFacts.

Lemma LinearSearch_spec (arr : list Z) (target : Z) :
  ((target ∉ arr) /\ Search.LinearSearch arr target = -1) \/
  (exists i, Search.LinearSearch arr target = i /\ 0 <= i < len arr /\
             index arr i = Done target /\
             forall j, 0 <= j < i -> index arr j <> Done target).
Proof.
  unfold Search.LinearSearch.
  destruct (linear_range_spec arr target 0) as [H|(k & E & Hk & Hfirst)]; [by left|].
  right. exists (Z.of_nat k). split; [by rewrite E|].
  pose proof (lookup_lt_Some _ _ _ Hk) as Hlt. split; [unfold len; lia|]. split.
  - apply index_Done. rewrite Nat2Z.id. split; [lia | done].
  - intros j Hj Hix. apply index_Done in Hix as [_ Hix].
    apply (Hfirst (Z.to_nat j)); [lia | done].
Qed.

(** X7: on any array, sorted or not, [LinearSearch] returns [-1] when the
    target does not occur and otherwise the index of its first occurrence. *)
Theorem LinearSearch_first_occurrence (arr : list Z) (target : Z) :
  ((target ∉ arr) /\ Search.LinearSearch arr target = -1) \/
  (exists i, Search.LinearSearch arr target = i /\ 0 <= i < len arr /\
             index arr i = Done target /\
             forall j, 0 <= j < i -> index arr j <> Done target).
Proof. apply LinearSearch_spec. Qed.

Section JumpSearchFacts.
Import Search.

Lemma isqrt_pos n : 1 <= n -> 1 <= isqrt n.
Proof. intros H. unfold isqrt. pose proof (Z.sqrt_pos n). lia. Qed.

Lemma min_spec a b : min a b = Z.min a b.
Proof. unfold min. destruct (Z.ltb_spec a b); lia. Qed.

(** The block loop, on any non-empty array: it stops without a panic,
    either past the end with the last element below the target, or at a
    block whose last element is not below the target and whose
    predecessor, if any, is. *)
Lemma jump_block_spec arr target (fuel : nat) : forall prev,
  0 <= prev < len arr ->
  prev = 0 \/ zget arr (prev - 1) < target ->
  len arr - prev < Z.of_nat fuel ->
  exists ret prev' step',
    jump_block fuel arr target (len arr) prev (prev + isqrt (len arr))
      (min (prev + isqrt (len arr)) (len arr) - 1)
      = Done (ret, prev', step') /\
    ((ret = Some (-1) /\ zget arr (len arr - 1) < target) \/
     (ret = None /\ 0 <= prev' < len arr /\ prev' < step' /\
      target <= zget arr (min step' (len arr) - 1) /\
      (prev' = 0 \/ zget arr (prev' - 1) < target))).
Proof.
  induction fuel as [|fuel IH]; intros prev Hprev Hbefore Hf; [lia|].
  pose proof (isqrt_pos (len arr) ltac:(lia)) as Hs.
  set (s := isqrt (len arr)) in *.
  cbn [jump_block]. rewrite min_spec.
  rewrite (index_zget arr (Z.min (prev + s) (len arr) - 1)) by lia. cbn [obind].
  destruct (Z.ltb_spec (zget arr (Z.min (prev + s) (len arr) - 1)) target) as [Hlt|Hge].
  - destruct (Z.leb_spec (len arr) (prev + s)) as [Hend|Hin].
    + eexists _, _, _. split; [reflexivity|]. left. split; [done|].
      replace (Z.min (prev + s) (len arr)) with (len arr) in Hlt by lia. done.
    + fold s. destruct (IH (prev + s)) as (ret & prev' & step' & E & Hpost); [lia | | lia |].
      { right. replace (Z.min (prev + s) (len arr)) with (prev + s) in Hlt by lia. done. }
      fold s in E. rewrite E. eauto.
  - eexists _, _, _. split; [reflexivity|]. right.
    rewrite min_spec. split; [done|]. split; [lia|]. split; [lia|]. split; [lia | done].
Qed.

(** The linear scan inside the block. *)
Lemma jump_linear_spec arr target step (fuel : nat) : forall prev,
  0 <= prev < Z.min step (len arr) ->
  Z.min step (len arr) - prev < Z.of_nat fuel ->
  exists ret prev',
    jump_linear fuel arr target (len arr) prev step = Done (ret, prev') /\
    ((ret = Some (-1) /\ zget arr (Z.min step (len arr) - 1) < target) \/
     (ret = None /\ prev <= prev' < Z.min step (len arr) /\
      target <= zget arr prev' /\
      (prev' = prev \/ zget arr (prev' - 1) < target))).
Proof.
  induction fuel as [|fuel IH]; intros prev Hprev Hf; [lia|].
  cbn [jump_linear]. rewrite (index_zget arr prev) by lia. cbn [obind].
  destruct (Z.ltb_spec (zget arr prev) target) as [Hlt|Hge].
  - rewrite min_spec. destruct (Z.eqb_spec (prev + 1) (Z.min step (len arr))) as [Heq|Hne].
    + eexists _, _. split; [reflexivity|]. left. split; [done|].
      rewrite <- Heq. replace (prev + 1 - 1) with prev by lia. done.
    + destruct (IH (prev + 1)) as (ret & prev' & E & Hpost); [lia | lia |].
      rewrite E. eexists _, _. split; [reflexivity|].
      destruct Hpost as [H|(Hr & Hp & Ht & Hb)]; [by left|]. right.
      split; [done|]. split; [lia|]. split; [done|]. right.
      destruct Hb as [->|Hb]; [|done]. replace (prev + 1 - 1) with prev by lia. done.
  - eexists _, _. split; [reflexivity|]. right.
    split; [done|]. split; [lia|]. split; [lia|]. by left.
Qed.

(** [JumpSearch] on any non-empty array: no panic; [-1] comes with an
    element that shows the target is not where a sorted array would have
    it, an index comes with the target at it and a smaller element just
    before. *)
Lemma JumpSearch_general arr target :
  1 <= len arr ->
  exists r, JumpSearch arr target = Done r /\
    ((r = -1 /\ (zget arr (len arr - 1) < target \/
                 exists p, 0 <= p < len arr /\ target < zget arr p /\
                           (p = 0 \/ zget arr (p - 1) < target))) \/
     (0 <= r < len arr /\ zget arr r = target /\
      (r = 0 \/ zget arr (r - 1) < target))).
Proof.
  intros Hn. unfold JumpSearch. cbv zeta.
  destruct (jump_block_spec arr target (S (length arr)) 0)
    as (ret & prev & step & E & Hpost); [lia | by left | unfold len; lia |].
  rewrite Z.add_0_l in E. rewrite E. cbn [obind].
  destruct Hpost as [[-> Hlast]|(-> & Hprev & Hstep & Hblock & Hbefore)].
  { eexists. split; [reflexivity|]. left. split; [done|]. by left. }
  rewrite min_spec in Hblock.
  destruct (jump_linear_spec arr target step (S (length arr)) prev)
    as (ret & prev' & E' & Hpost); [lia | unfold len in *; lia |].
  rewrite E'. cbn [obind].
  destruct Hpost as [[-> Hlast]|(-> & Hprev' & Htarget & Hb)]; [lia|].
  rewrite (index_zget arr prev') by lia. cbn [obind].
  assert (Hb' : prev' = 0 \/ zget arr (prev' - 1) < target).
  { destruct Hb as [->|Hb]; [done | by right]. }
  destruct (Z.eqb_spec (zget arr prev') target) as [Heq|Hne].
  - eexists. split; [reflexivity|]. right. split; [lia|]. done.
  - eexists. split; [reflexivity|]. left. split; [done|]. right.
    exists prev'. split; [lia|]. split; [lia | done].
Qed.

End JumpSearchFacts.

Lemma JumpSearch_sorted (arr : list Z) (target : Z) :
  Sorted Z.le arr -> 1 <= len arr ->
  Search.JumpSearch arr target = Done (Search.LinearSearch arr target).
Proof.
  intros Hs Hn. apply Sorted_sorted_idx in Hs.
  assert (Hord : forall a b, 0 <= a -> a <= b -> b < len arr -> zget arr a <= zget arr b).
  { intros a b Ha Hab Hb.
    apply (Hs (Z.to_nat a) (Z.to_nat b)); [lia | apply zget_lookup; lia..]. }
  assert (Hmem : forall v, v ∈ arr -> exists k, 0 <= k < len arr /\ zget arr k = v).
  { intros v [k Hk]%list_elem_of_lookup_1. exists (Z.of_nat k).
    pose proof (lookup_lt_Some _ _ _ Hk). split; [unfold len; lia|].
    unfold zget. by rewrite Nat2Z.id, Hk. }
  assert (Hix : forall k, 0 <= k < len arr -> index arr k = Done target -> zget arr k = target).
  { intros k Hk H. rewrite index_zget in H by done. by inversion H. }
  destruct (JumpSearch_general arr target Hn) as (r & E & Hr). rewrite E. f_equal.
  destruct (LinearSearch_spec arr target) as [[Habs El]|(i & Ei & Hi & Hi' & Hfirst)].
  - rewrite El. destruct Hr as [[-> _]|(Hr & Heq & _)]; [done|].
    exfalso. apply Habs. eapply list_elem_of_lookup_2. rewrite <- Heq. by apply zget_lookup.
  - rewrite Ei. apply Hix in Hi' as Hti; [|done].
    destruct Hr as [[-> [Hlast|(p & Hp & Hgt & Hbefore)]]|(Hr & Heq & Hbefore)].
    + pose proof (Hord i (len arr - 1)). lia.
    + destruct (Z.lt_ge_cases i p).
      * destruct Hbefore as [->|Hb]; [lia|]. pose proof (Hord i (p - 1)). lia.
      * pose proof (Hord p i). lia.
    + destruct (Z.lt_trichotomy r i) as [Hlt|[->|Hgt]]; [|done|].
      * exfalso. apply (Hfirst r); [lia|]. rewrite index_zget by lia. by rewrite Heq.
      * destruct Hbefore as [->|Hb]; [lia|]. pose proof (Hord i (r - 1)). lia.
Qed.

(** X8: on a non-empty array sorted in non-decreasing order [JumpSearch]
    does not panic and returns what [LinearSearch] returns: [-1] when the
    target does not occur and otherwise the index of its first occurrence. *)
Theorem JumpSearch_sorted_correct (arr : list Z) (target : Z) :
  Sorted Z.le arr -> 1 <= len arr ->
  Search.JumpSearch arr target = Done (Search.LinearSearch arr target) /\
  (((target ∉ arr) /\ Search.LinearSearch arr target = -1) \/
   (0 <= Search.LinearSearch arr target < len arr /\
    index arr (Search.LinearSearch arr target) = Done target)).
Proof.
  intros Hs Hn. split; [by apply JumpSearch_sorted|].
  destruct (LinearSearch_spec arr target) as [H|(i & Ei & Hi & Hi' & _)]; [by left|].
  right. rewrite Ei. done.
Qed.

Lemma JumpSearch_sorted_correct_witness :
  Search.JumpSearch [1; 3; 5; 7; 9; 11; 13] 9 = Done (Search.LinearSearch [1; 3; 5; 7; 9; 11; 13] 9).
Proof.
  apply (JumpSearch_sorted_correct [1; 3; 5; 7; 9; 11; 13] 9).
  - repeat constructor; lia.
  - unfold len. simpl. lia.
Defined.

(** X9: on any non-empty array, sorted or not, [JumpSearch] returns without
    a panic, and an index it returns is in range and holds the target. *)
Theorem JumpSearch_nonempty_safe (arr : list Z) (target : Z) :
  1 <= len arr ->
  exists r, Search.JumpSearch arr target = Done r /\
            (r = -1 \/ (0 <= r < len arr /\ index arr r = Done target)).
Proof.
  intros Hn. destruct (JumpSearch_general arr target Hn) as (r & E & Hr).
  exists r. split; [done|]. destruct Hr as [[-> _]|(Hr & Heq & _)]; [by left|].
  right. split; [done|]. rewrite index_zget by done. by rewrite Heq.
Qed.

Lemma JumpSearch_nonempty_safe_witness :
  exists r, Search.JumpSearch [4; 2; 7] 7 = Done r /\
            (r = -1 \/ (0 <= r < len [4; 2; 7] /\ index [4; 2; 7] r = Done 7)).
Proof. apply (JumpSearch_nonempty_safe [4; 2; 7] 7). unfold len. simpl. lia. Defined.

Section InterpolationFacts.
Import Search.

Lemma wrap_small z : - 2 ^ 63 <= z < 2 ^ 63 -> Int64.wrap z = z.
Proof. intros H. unfold Int64.wrap. rewrite Z.mod_small by lia. lia. Qed.

(** One probe: with [arr[low] < arr[high]], the target between them and
    all values in the 32-bit range, the probe lies between [low] and
    [high] and nothing wraps. *)
Lemma probe_in_window low high a b target :
  0 <= low -> low < high -> high < 2 ^ 31 ->
  - 2 ^ 31 <= a -> b < 2 ^ 31 -> a < b -> a <= target <= b ->
  exists q,
    Int64.quo (Int64.mul (Int64.sub high low) (Int64.sub target a)) (Int64.sub b a) = Done q /\
    low <= Int64.add low q <= high.
Proof.
  intros Hlow Hlh Hhigh Ha Hb Hab Ht.
  unfold Int64.sub. rewrite !wrap_small by lia.
  unfold Int64.mul. rewrite wrap_small by nia.
  unfold Int64.quo. destruct (Z.eqb_spec (b - a) 0); [lia|].
  assert (Hq : 0 <= (high - low) * (target - a) ÷ (b - a) <= high - low).
  { rewrite Z.quot_div_nonneg by nia. split.
    - apply Z.div_pos; nia.
    - apply Z.div_le_upper_bound; nia. }
  rewrite wrap_small by lia. eexists. split; [reflexivity|].
  unfold Int64.add. rewrite wrap_small by lia. lia.
Qed.

Lemma interpolation_loop_spec arr target :
  (forall a b, 0 <= a -> a < b -> b < len arr -> zget arr a < zget arr b) ->
  (forall k, 0 <= k < len arr -> - 2 ^ 31 <= zget arr k < 2 ^ 31) ->
  len arr < 2 ^ 31 ->
  forall (fuel : nat) (low high : Z),
    0 <= low -> high < len arr -> low <= high + 1 ->
    high - low + 1 < Z.of_nat fuel ->
    (forall k, 0 <= k < len arr -> zget arr k = target -> low <= k <= high) ->
    exists r, interpolation_loop fuel arr target low high = Done r /\
      ((0 <= r < len arr /\ zget arr r = target) \/
       (r = -1 /\ forall k, 0 <= k < len arr -> zget arr k <> target)).
Proof.
  intros Hstrict Hrange Hlen.
  induction fuel as [|fuel IH]; intros low high Hlow Hhigh Hlh Hf Hwin; [lia|].
  assert (Habsent : forall P : Prop, (forall k, 0 <= k < len arr -> zget arr k = target -> P) ->
            P -> P) by auto.
  cbn [interpolation_loop]. destruct (Z.leb_spec low high) as [Hle|Hgt].
  2:{ exists (-1). split; [done|]. right. split; [done|].
      intros k Hk Heq. specialize (Hwin k Hk Heq). lia. }
  rewrite !(index_zget arr low) by lia. cbn [obind].
  destruct (Z.geb_spec target (zget arr low)) as [Hge|Hlt].
  2:{ exists (-1). split; [done|]. right. split; [done|].
      intros k Hk Heq. specialize (Hwin k Hk Heq).
      destruct (decide (k = low)) as [->|]; [lia|].
      pose proof (Hstrict low k). lia. }
  rewrite !(index_zget arr high) by lia. cbn [obind].
  destruct (Z.leb_spec target (zget arr high)) as [Hle2|Hgt2].
  2:{ exists (-1). split; [done|]. right. split; [done|].
      intros k Hk Heq. specialize (Hwin k Hk Heq).
      destruct (decide (k = high)) as [->|]; [lia|].
      pose proof (Hstrict k high). lia. }
  destruct (Z.eqb_spec low high) as [Heq|Hne].
  { destruct (Z.eqb_spec (zget arr low) target) as [Ht|Ht].
    - exists low. split; [done|]. left. split; [lia | done].
    - exists (-1). split; [done|]. right. split; [done|].
      intros k Hk Hk'. specialize (Hwin k Hk Hk'). assert (k = low) by lia. congruence. }
  destruct (probe_in_window low high (zget arr low) (zget arr high) target)
    as (q & Eq & Hpos); [lia | lia | lia | | | | lia |].
  { apply Hrange. lia. }
  { apply Hrange. lia. }
  { apply Hstrict; lia. }
  rewrite Eq. cbn [obind]. cbv zeta.
  set (pos := Int64.add low q) in *. clearbody pos.
  rewrite !(index_zget arr pos) by lia. cbn [obind].
  destruct (Z.eqb_spec (zget arr pos) target) as [Ht|Ht].
  { exists pos. split; [done|]. left. split; [lia | done]. }
  destruct (Z.ltb_spec (zget arr pos) target) as [Hlt|Hge2].
  - apply IH; [lia..|]. intros k Hk Hk'. specialize (Hwin k Hk Hk').
    split; [|lia]. destruct (Z.le_gt_cases k pos) as [Hkp|]; [|lia].
    destruct (decide (k = pos)) as [->|]; [lia|].
    pose proof (Hstrict k pos). lia.
  - apply IH; [lia..|]. intros k Hk Hk'. specialize (Hwin k Hk Hk').
    split; [lia|]. destruct (Z.le_gt_cases pos k) as [Hkp|]; [|lia].
    destruct (decide (k = pos)) as [->|]; [lia|].
    pose proof (Hstrict pos k). lia.
Qed.

End InterpolationFacts.

(** X10: [InterpolationSearch] panics with a division by zero on every array
    of two or more elements whose first and last element both equal the
    target (for a sorted array: all elements equal the target). *)
Theorem InterpolationSearch_equal_ends_panics (arr : list Z) (target : Z) :
  2 <= len arr -> index arr 0 = Done target -> index arr (len arr - 1) = Done target ->
  Search.InterpolationSearch arr target = Panic.
Proof.
  intros Hn H0 Hlast. unfold Search.InterpolationSearch.
  cbn [Search.interpolation_loop].
  destruct (Z.leb_spec 0 (len arr - 1)); [|lia].
  rewrite !H0, !Hlast. cbn [obind].
  destruct (Z.geb_spec target target); [|lia].
  destruct (Z.leb_spec target target); [|lia].
  destruct (Z.eqb_spec 0 (len arr - 1)); [lia|].
  unfold Int64.sub at 3. rewrite Z.sub_diag. done.
Qed.

Lemma InterpolationSearch_equal_ends_panics_witness :
  Search.InterpolationSearch [5; 5] 5 = Panic.
Proof.
  apply (InterpolationSearch_equal_ends_panics [5; 5] 5);
    [unfold len; simpl; lia | reflexivity | reflexivity].
Defined.

Lemma Sorted_lt_index (arr : list Z) :
  Sorted Z.lt arr ->
  forall a b, 0 <= a -> a < b -> b < len arr -> zget arr a < zget arr b.
Proof.
  intros Hs. apply Sorted_StronglySorted in Hs; [|intros x y z; apply Z.lt_trans].
  induction Hs as [|x l Hl IH Hx]; intros a b Ha Hab Hb.
  - unfold len in Hb. simpl in Hb. lia.
  - unfold len in Hb. cbn [length] in Hb.
    assert (Hb' : exists vb, l !! (Z.to_nat (b - 1)) = Some vb).
    { apply lookup_lt_is_Some_2. lia. }
    destruct Hb' as [vb Hvb].
    assert (Eb : zget (x :: l) b = vb).
    { unfold zget. replace (Z.to_nat b) with (S (Z.to_nat (b - 1))) by lia. simpl. by rewrite Hvb. }
    destruct (decide (a = 0)) as [->|Hne].
    + rewrite Eb. unfold zget. simpl. rewrite Forall_forall in Hx. apply Hx.
      by eapply list_elem_of_lookup_2.
    + specialize (IH (a - 1) (b - 1)).
      unfold zget in *. replace (Z.to_nat a) with (S (Z.to_nat (a - 1))) by lia.
      replace (Z.to_nat b) with (S (Z.to_nat (b - 1))) by lia. simpl.
      apply IH; unfold len; lia.
Qed.

(** X11: on an array sorted in strictly increasing order, with fewer than
    [2^31] elements, all in the 32-bit range, [InterpolationSearch] does not
    panic and returns an index holding the target when the target occurs and
    [-1] when it does not. *)
Theorem InterpolationSearch_correct (arr : list Z) (target : Z) :
  Sorted Z.lt arr -> Forall (fun x => - 2 ^ 31 <= x < 2 ^ 31) arr -> len arr < 2 ^ 31 ->
  (target ∈ arr ->
     exists i, Search.InterpolationSearch arr target = Done i /\
               0 <= i < len arr /\ index arr i = Done target) /\
  (target ∉ arr -> Search.InterpolationSearch arr target = Done (-1)).
Proof.
  intros Hs Hr Hlen.
  destruct (interpolation_loop_spec arr target (Sorted_lt_index arr Hs)) with
    (fuel := S (length arr)) (low := 0) (high := len arr - 1) as (r & E & Hres).
  - intros k Hk. rewrite Forall_forall in Hr. apply Hr.
    eapply list_elem_of_lookup_2. by apply zget_lookup.
  - done.
  - lia.
  - lia.
  - unfold len. lia.
  - unfold len. lia.
  - intros k Hk _. lia.
  - unfold Search.InterpolationSearch. rewrite E. split; intros Hin.
    + destruct Hres as [[Hi Heq]|[_ Habs]].
      * exists r. split; [done|]. split; [done|]. rewrite index_zget by done. by rewrite Heq.
      * exfalso. apply list_elem_of_lookup_1 in Hin as [k Hk].
        pose proof (lookup_lt_Some _ _ _ Hk).
        apply (Habs (Z.of_nat k)); [unfold len; lia|].
        unfold zget. by rewrite Nat2Z.id, Hk.
    + destruct Hres as [[Hi Heq]|[-> _]]; [|done].
      exfalso. apply Hin. eapply list_elem_of_lookup_2. rewrite <- Heq. by apply zget_lookup.
Qed.

Lemma InterpolationSearch_correct_witness :
  exists i, Search.InterpolationSearch [1; 3; 5; 7; 9; 11; 13; 15; 17; 19] 13 = Done i /\
            0 <= i < len [1; 3; 5; 7; 9; 11; 13; 15; 17; 19] /\
            index [1; 3; 5; 7; 9; 11; 13; 15; 17; 19] i = Done 13.
Proof.
  apply (InterpolationSearch_correct [1; 3; 5; 7; 9; 11; 13; 15; 17; 19] 13).
  - repeat constructor; lia.
  - repeat constructor; lia.
  - unfold len. simpl. lia.
  - apply list_elem_of_In. simpl. tauto.
Defined.


(** * Rabin-Karp *)

Section RabinKarpFacts.
Import RabinKarp.
Implicit Types (text pattern w : list ascii) (c d : ascii).

Lemma int_of_byte_range c : 0 <= int_of_byte c < 256.
Proof.
  unfold int_of_byte, GoString.Z_of_byte.
  pose proof (N_ascii_bounded c). lia.
Qed.

(** Go's remainder, made non-negative as the code does, is [mod]. *)
Lemma rem_fixed x :
  (if Z.rem x prime <? 0 then Z.rem x prime + prime else Z.rem x prime) = x mod prime.
Proof.
  unfold prime. destruct (Z.ltb_spec (Z.rem x 101) 0);
    Z.to_euclidean_division_equations; lia.
Qed.

Lemma rem_nonneg x : 0 <= x -> Z.rem x prime = x mod prime.
Proof. intros H. apply Z.rem_mod_nonneg; unfold prime; lia. Qed.

Lemma fold_poly w : forall acc,
  fold_left (fun acc c => acc * base + int_of_byte c) w acc
  = acc * base ^ Z.of_nat (length w) + poly w.
Proof.
  unfold poly. induction w as [|c w IH]; intros acc.
  - simpl. lia.
  - cbn [fold_left length]. rewrite IH, (IH (0 * base + int_of_byte c)).
    rewrite Nat2Z.inj_succ, Z.pow_succ_r by lia. ring.
Qed.

Lemma poly_cons c w : poly (c :: w) = int_of_byte c * base ^ Z.of_nat (length w) + poly w.
Proof. unfold poly at 1. cbn [fold_left]. rewrite fold_poly. ring. Qed.

Lemma poly_snoc w d : poly (w ++ [d]) = poly w * base + int_of_byte d.
Proof. unfold poly. by rewrite fold_left_app. Qed.

Lemma poly_nonneg w : 0 <= poly w.
Proof.
  induction w as [|d w IH] using rev_ind; [done|].
  rewrite poly_snoc. pose proof (int_of_byte_range d). unfold base. lia.
Qed.

Lemma hash_range w : 0 <= hash w < prime.
Proof. unfold hash. apply Z.mod_pos_bound. unfold prime. lia. Qed.

Lemma hash_snoc w d :
  Z.rem (hash w * base + int_of_byte d) prime = hash (w ++ [d]).
Proof.
  pose proof (hash_range w). pose proof (int_of_byte_range d).
  rewrite rem_nonneg by (unfold base, prime in *; lia).
  unfold hash. rewrite poly_snoc.
  rewrite Z.add_mod, Z.mul_mod_idemp_l, <- Z.add_mod by (unfold prime; lia). done.
Qed.

(** The rolling step: drop the leading byte [c], append [d]. *)
Lemma hash_roll c w d h :
  h = base ^ Z.of_nat (length w) mod prime ->
  (base * (hash (c :: w) - int_of_byte c * h) + int_of_byte d) mod prime
  = hash (w ++ [d]).
Proof.
  intros ->. unfold hash. rewrite poly_snoc, poly_cons.
  set (k := base ^ Z.of_nat (length w)). set (P := poly w).
  set (x := int_of_byte c). set (y := int_of_byte d).
  rewrite (Z.mod_eq (x * k + P) prime), (Z.mod_eq k prime) by (unfold prime; lia).
  replace (base * (x * k + P - prime * ((x * k + P) / prime) - x * (k - prime * (k / prime))) + y)
    with (P * base + y + (base * (x * (k / prime) - (x * k + P) / prime)) * prime) by ring.
  apply Z_mod_plus_full.
Qed.

Lemma hash_loop_spec text pattern (fuel : nat) : forall i,
  len pattern <= len text -> 0 <= i <= len pattern ->
  len pattern - i < Z.of_nat fuel ->
  hash_loop fuel text pattern (hash (take (Z.to_nat i) pattern))
    (hash (take (Z.to_nat i) text)) i
  = Done (hash pattern, hash (take (length pattern) text)).
Proof.
  induction fuel as [|fuel IH]; intros i Hmn Hi Hf; [lia|].
  cbn [hash_loop]. destruct (Z.ltb_spec i (len pattern)) as [Hlt|Hge].
  - destruct (index_in_range pattern i) as (p & -> & Hp); [lia|].
    destruct (index_in_range text i) as (t & -> & Ht); [lia|].
    cbn [obind]. cbv zeta. rewrite !hash_snoc.
    rewrite <- (take_S_r pattern _ p), <- (take_S_r text _ t) by done.
    replace (S (Z.to_nat i)) with (Z.to_nat (i + 1)) by lia.
    apply IH; lia.
  - assert (i = len pattern) as -> by lia. unfold len. rewrite Nat2Z.id.
    by rewrite firstn_all.
Qed.

Lemma h_loop_spec pattern (fuel : nat) : forall i,
  0 <= i -> i <= len pattern - 1 -> len pattern - 1 - i < Z.of_nat fuel ->
  h_loop fuel pattern (base ^ i mod prime) i
  = Done (base ^ (len pattern - 1) mod prime).
Proof.
  induction fuel as [|fuel IH]; intros i Hi Him Hf; [lia|].
  cbn [h_loop]. destruct (Z.ltb_spec i (len pattern - 1)) as [Hlt|Hge].
  - assert (Hrange : 0 <= base ^ i mod prime < prime)
      by (apply Z.mod_pos_bound; unfold prime; lia).
    rewrite rem_nonneg by (unfold base, prime in *; lia).
    rewrite Z.mul_mod_idemp_l by (unfold prime; lia).
    replace (base ^ i * base) with (base ^ (i + 1))
      by (rewrite Z.pow_add_r by lia; lia).
    apply IH; lia.
  - by replace i with (len pattern - 1) by lia.
Qed.

(** The window at [i], its first byte apart. *)
Lemma window_cons text (m : nat) i c :
  0 <= i -> text !! Z.to_nat i = Some c ->
  take (S m) (drop (Z.to_nat i) text) = c :: take m (drop (Z.to_nat (i + 1)) text).
Proof.
  intros Hi Hc. rewrite (drop_S text c (Z.to_nat i)) by done.
  replace (Z.to_nat (i + 1)) with (S (Z.to_nat i)) by lia. done.
Qed.

Lemma window_snoc text (m : nat) i d :
  0 <= i -> text !! Z.to_nat (i + Z.of_nat m) = Some d ->
  take (S m) (drop (Z.to_nat i) text) = take m (drop (Z.to_nat i) text) ++ [d].
Proof.
  intros Hi Hd. apply take_S_r. rewrite lookup_drop.
  replace (Z.to_nat i + m)%nat with (Z.to_nat (i + Z.of_nat m)) by lia. done.
Qed.

(** The check succeeds exactly when the rest of the window is the rest
    of the pattern. *)
Lemma check_loop_spec text pattern i (fuel : nat) : forall j,
  0 <= i -> i + len pattern <= len text -> 0 <= j <= len pattern ->
  len pattern - j < Z.of_nat fuel ->
  exists b, check_loop fuel text pattern i j = Done b /\
    (b = true <->
     take (length pattern - Z.to_nat j) (drop (Z.to_nat (i + j)) text)
     = drop (Z.to_nat j) pattern).
Proof.
  induction fuel as [|fuel IH]; intros j Hi Him Hj Hf; [lia|].
  cbn [check_loop]. destruct (Z.ltb_spec j (len pattern)) as [Hlt|Hge].
  - destruct (index_in_range text (i + j)) as (t & -> & Ht); [lia|].
    destruct (index_in_range pattern j) as (p & -> & Hp); [lia|].
    cbn [obind].
    replace (length pattern - Z.to_nat j)%nat
      with (S (length pattern - Z.to_nat (j + 1))) by (unfold len in *; lia).
    rewrite (window_cons text _ (i + j) t) by (done || lia).
    rewrite (drop_S pattern p (Z.to_nat j)) by done.
    replace (S (Z.to_nat j)) with (Z.to_nat (j + 1)) by lia.
    replace (i + j + 1) with (i + (j + 1)) by lia.
    unfold KMP.byte_eqb. destruct (Ascii.eqb_spec t p) as [->|Hne]; cbn [negb].
    + destruct (IH (j + 1)) as (b & E & Hb); [lia..|].
      exists b. split; [done|]. rewrite Hb. split; [by intros -> | by intros [= ->]].
    + exists false. split; [done|]. split; [discriminate | intros [= ? _]; done].
  - exists true. split; [done|]. split; [|done]. intros _.
    rewrite (drop_ge pattern) by (unfold len in *; lia).
    replace (length pattern - Z.to_nat j)%nat with O by (unfold len in *; lia). done.
Qed.

Lemma Sorted_lt_snoc (l : list Z) i :
  Sorted Z.lt l -> Forall (fun k => k < i) l -> Sorted Z.lt (l ++ [i]).
Proof.
  induction 1 as [|x l Hs IH Hhd]; intros Hall; cbn.
  - repeat constructor.
  - apply Forall_cons in Hall as [Hx Hall]. constructor; [by apply IH|].
    destruct Hhd; cbn; constructor; done.
Qed.

(** An occurrence of a non-empty pattern fits into the text. *)
Lemma occurs_at_fits text pattern k :
  occurs_at text pattern k -> k + len pattern <= Z.max (len text) k.
Proof.
  intros [Hk Ho]. apply (f_equal length) in Ho.
  rewrite length_take, length_drop in Ho. unfold len. lia.
Qed.

(** One position more examined: [i] is appended exactly when the
    pattern occurs there. *)
Lemma matches_step text pattern (matches : list Z) i (b : bool) :
  Sorted Z.lt matches ->
  (forall k, k ∈ matches <-> occurs_at text pattern k /\ k < i) ->
  (b = true <-> occurs_at text pattern i) ->
  Sorted Z.lt (if b then matches ++ [i] else matches) /\
  (forall k, k ∈ (if b then matches ++ [i] else matches)
             <-> occurs_at text pattern k /\ k < i + 1).
Proof.
  intros Hs Hm Hb. destruct b.
  - split.
    + apply Sorted_lt_snoc; [done|]. apply Forall_forall. intros k Hk.
      by apply Hm in Hk as [_ ?].
    + intros k. rewrite elem_of_app, list_elem_of_singleton, Hm. split.
      * intros [[? ?]| ->]; [split; [done|lia]|]. split; [by apply Hb|lia].
      * intros [Ho Hk]. destruct (decide (k = i)) as [->|]; [by right|].
        left. split; [done|lia].
  - split; [done|]. intros k. rewrite Hm. split.
    + intros [? ?]. split; [done|lia].
    + intros [Ho Hk]. split; [done|]. destruct (decide (k = i)) as [->|]; [|lia].
      by apply Hb in Ho.
Qed.

Lemma slide_loop_spec text pattern (fuel : nat) : forall matches wh i,
  1 <= len pattern <= len text ->
  0 <= i <= len text - len pattern + 1 ->
  len text - len pattern + 1 - i < Z.of_nat fuel ->
  (i <= len text - len pattern ->
   wh = hash (take (length pattern) (drop (Z.to_nat i) text))) ->
  Sorted Z.lt matches ->
  (forall k, k ∈ matches <-> occurs_at text pattern k /\ k < i) ->
  exists l,
    slide_loop fuel text pattern (hash pattern)
      (base ^ (len pattern - 1) mod prime) matches wh i = Done l /\
    Sorted Z.lt l /\ forall k, k ∈ l <-> occurs_at text pattern k.
Proof.
  induction fuel as [|fuel IH]; intros matches wh i Hmn Hi Hf Hwh Hs Hm; [lia|].
  cbn [slide_loop]. destruct (Z.leb_spec i (len text - len pattern)) as [Hin|Hout].
  - specialize (Hwh Hin).
    assert (exists b : bool,
      (if hash pattern =? wh
       then do match_ <- check_loop (S (length pattern)) text pattern i 0;
            if match_ then Done (matches ++ [i]) else Done matches
       else Done matches) = Done (if b then matches ++ [i] else matches) /\
      (b = true <-> occurs_at text pattern i)) as (b & -> & Hb).
    { destruct (Z.eqb_spec (hash pattern) wh) as [_|Hne].
      - destruct (check_loop_spec text pattern i (S (length pattern)) 0)
          as (b & E & Hb); [unfold len in *; lia..|].
        rewrite E; cbn [obind]. exists b. split; [by destruct b|].
        rewrite Hb. unfold occurs_at.
        rewrite Nat.sub_0_r, Z.add_0_r, drop_0. intuition.
      - exists false. split; [done|]. split; [done|]. intros [_ Ho].
        rewrite Hwh, Ho in Hne. done. }
    cbn [obind].
    assert (exists wh' : Z,
      (if i <? len text - len pattern
       then do t <- index text i;
            do t' <- index text (i + len pattern);
            if Z.rem (base * (wh - int_of_byte t * (base ^ (len pattern - 1) mod prime))
                      + int_of_byte t') prime <? 0
            then Done (Z.rem (base * (wh - int_of_byte t
                                             * (base ^ (len pattern - 1) mod prime))
                              + int_of_byte t') prime + prime)
            else Done (Z.rem (base * (wh - int_of_byte t
                                             * (base ^ (len pattern - 1) mod prime))
                              + int_of_byte t') prime)
       else Done wh) = Done wh' /\
      (i + 1 <= len text - len pattern ->
       wh' = hash (take (length pattern) (drop (Z.to_nat (i + 1)) text))))
      as (wh' & -> & Hwh').
    { destruct (Z.ltb_spec i (len text - len pattern)) as [Hlt|Hge].
      - destruct (index_in_range text i) as (t & -> & Ht); [lia|].
        destruct (index_in_range text (i + len pattern)) as (t' & -> & Ht'); [lia|].
        cbn [obind].
        set (x := base * _ + int_of_byte t'). exists (x mod prime).
        split; [rewrite <- (rem_fixed x); by destruct (Z.rem x prime <? 0)|].
        intros _. subst x.
        rewrite Hwh. pose (m' := (length pattern - 1)%nat).
        replace (length pattern) with (S m') by (unfold len in *; lia).
        rewrite (window_cons text m' i t) by (done || lia).
        rewrite (window_snoc text m' (i + 1) t').
        + apply hash_roll. rewrite length_take, length_drop.
          f_equal. f_equal. unfold len in *. lia.
        + lia.
        + rewrite <- Ht'. f_equal. unfold len in *. lia.
      - exists wh. split; [done|]. intros; lia. }
    cbn [obind].
    destruct (matches_step text pattern matches i b Hs Hm Hb) as [Hs' Hm'].
    apply IH; (done || lia).
  - exists matches. split; [done|]. split; [done|]. intros k. rewrite Hm.
    split; [tauto|]. intros Ho. split; [done|].
    pose proof (occurs_at_fits _ _ _ Ho). destruct Ho as [? _]. lia.
Qed.

End RabinKarpFacts.

(** Helper behind the statement below. *)
Lemma RabinKarp_spec (text pattern : string) :
  pattern <> EmptyString ->
  exists l, RabinKarp.RabinKarp text pattern = Done l /\
    Sorted Z.lt l /\
    forall i, i ∈ l <-> RabinKarp.occurs_at (KMP.bytes text) (KMP.bytes pattern) i.
Proof.
  intros Hne. unfold RabinKarp.RabinKarp. cbv zeta.
  set (t := KMP.bytes text). set (p := KMP.bytes pattern).
  assert (1 <= len p) as Hp.
  { subst p. unfold KMP.bytes, len. destruct pattern; [done|]. cbn [String.list_ascii_of_string length]. lia. }
  destruct (Z.gtb_spec (len p) (len t)) as [Hgt|Hle].
  - exists []. split; [done|]. split; [constructor|]. intros i. split.
    + by intros ?%elem_of_nil.
    + intros Ho. pose proof (occurs_at_fits t p i Ho). destruct Ho. lia.
  - assert (RabinKarp.hash_loop (S (length p)) t p 0 0 0
            = Done (RabinKarp.hash p, RabinKarp.hash (take (length p) t))) as ->
      by (apply (hash_loop_spec t p (S (length p)) 0); unfold len in *; lia).
    cbn [obind].
    assert (RabinKarp.h_loop (S (length p)) p 1 0
            = Done (RabinKarp.base ^ (len p - 1) mod RabinKarp.prime)) as ->
      by (apply (h_loop_spec p (S (length p)) 0); unfold len in *; lia).
    cbn [obind].
    apply slide_loop_spec; try (unfold len in *; lia).
    + done.
    + constructor.
    + intros k. split; [by intros ?%elem_of_nil|]. intros [[? _] ?]. lia.
Qed.

(** X12: for a non-empty pattern, [RabinKarp] returns, in increasing
    order, exactly the byte offsets at which the pattern occurs in the
    text. *)
Theorem RabinKarp_finds_all_occurrences (text pattern : string) :
  pattern <> EmptyString ->
  exists l, RabinKarp.RabinKarp text pattern = Done l /\
    Sorted Z.lt l /\
    forall i, i ∈ l <-> RabinKarp.occurs_at (KMP.bytes text) (KMP.bytes pattern) i.
Proof. apply RabinKarp_spec. Qed.

Lemma RabinKarp_finds_all_occurrences_witness :
  "GEEK"%string <> EmptyString /\
  exists l, RabinKarp.RabinKarp "GEEKS FOR GEEKS" "GEEK" = Done l /\
    Sorted Z.lt l /\
    forall i, i ∈ l <-> RabinKarp.occurs_at (KMP.bytes "GEEKS FOR GEEKS") (KMP.bytes "GEEK") i.
Proof.
  split; [discriminate|]. apply (RabinKarp_finds_all_occurrences "GEEKS FOR GEEKS" "GEEK").
  discriminate.
Defined.


(** * The helpers of the sorting functions *)

Section SortingHelpers.
Import Sorting.

Lemma isSorted_loop_spec arr (fuel : nat) : forall i,
  1 <= i -> (0 < fuel)%nat -> len arr - i < Z.of_nat fuel ->
  exists b, isSorted_loop fuel arr i = Done b /\
    (b = true <-> forall k, i <= k < len arr -> zget arr (k - 1) <= zget arr k).
Proof.
  induction fuel as [|fuel IH]; intros i Hi Hpos Hf; [lia|].
  cbn [isSorted_loop]. destruct (Z.ltb_spec i (len arr)) as [Hlt|Hge].
  - rewrite (index_zget arr i), (index_zget arr (i - 1)) by lia. cbn [obind].
    destruct (Z.ltb_spec (zget arr i) (zget arr (i - 1))) as [Hbad|Hok].
    + exists false. split; [done|]. split; [done|]. intros H.
      specialize (H i). lia.
    + destruct (IH (i + 1)) as (b & E & Hb); [lia..|].
      exists b. split; [done|]. rewrite Hb. split.
      * intros H k Hk. destruct (decide (k = i)) as [->|]; [lia | apply H; lia].
      * intros H k Hk. apply H. lia.
  - exists true. split; [done|]. split; [|done]. intros _ k Hk. lia.
Qed.

Lemma isSorted_spec arr :
  exists b, isSorted arr = Done b /\ (b = true <-> Sorted Z.le arr).
Proof.
  unfold isSorted.
  destruct (isSorted_loop_spec arr (S (length arr)) 1) as (b & E & Hb);
    [lia | lia | unfold len; lia |].
  exists b. split; [done|]. rewrite Hb. split.
  - intros H. apply seg_sorted_Sorted, adjacent_seg_sorted.
    intros k Hk. specialize (H (k + 1)).
    replace (k + 1 - 1) with k in H by lia. apply H. lia.
  - intros H%Sorted_sorted_idx k Hk.
    destruct (lookup_lt_is_Some_2 arr (Z.to_nat (k - 1))) as [a Ha];
      [unfold len in *; lia|].
    destruct (lookup_lt_is_Some_2 arr (Z.to_nat k)) as [b' Hb'];
      [unfold len in *; lia|].
    unfold zget. rewrite Ha, Hb'. cbn [default from_option id].
    apply (H (Z.to_nat (k - 1)) (Z.to_nat k)); [lia|done..].
Qed.

Lemma sorted_perm_unique (l1 l2 : list Z) :
  Sorted Z.le l1 -> Sorted Z.le l2 -> l1 ≡ₚ l2 -> l1 = l2.
Proof. apply (Sorted_unique Z.le). Qed.

End SortingHelpers.

(** X13: [isSorted] never panics and answers true exactly on the arrays
    that are in non-decreasing order. *)
Theorem isSorted_decides_order (arr : list Z) :
  exists b, Sorting.isSorted arr = Done b /\ (b = true <-> Sorted Z.le arr).
Proof. apply isSorted_spec. Qed.

(** X14: the four sorting functions compute the same array on every
    input, and [isSorted] accepts it, as [main] prints. *)
Theorem sorts_agree_and_pass_isSorted (arr : list Z) :
  exists s,
    Sorting.BubbleSort arr = Done s /\ Sorting.QuickSort arr = Done s /\
    Sorting.InsertionSort arr = Done s /\ Sorting.MergeSort arr = Done s /\
    Sorting.isSorted s = Done true.
Proof.
  destruct (BubbleSort_sorts arr) as (s & Eb & Sb & Pb).
  destruct (QuickSort_sorts arr) as (sq & Eq & Sq & Pq).
  destruct (InsertionSort_sorts arr) as (si & Ei & Si & Pi).
  destruct (MergeSort_sorts arr) as (sm & Em & Sm & Pm).
  assert (sq = s) as -> by (apply sorted_perm_unique; [done..|by rewrite Pq, Pb]).
  assert (si = s) as -> by (apply sorted_perm_unique; [done..|by rewrite Pi, Pb]).
  assert (sm = s) as -> by (apply sorted_perm_unique; [done..|by rewrite Pm, Pb]).
  exists s. repeat (split; [done|]).
  destruct (isSorted_spec s) as (b & E & Hb). rewrite E. f_equal. by apply Hb.
Qed.

(** A sorting function leaves an array that is already in order as
    it is. *)
Lemma sorting_keeps_sorted_input (arr : list Z) :
  Sorted Z.le arr ->
  Sorting.BubbleSort arr = Done arr /\ Sorting.QuickSort arr = Done arr /\
  Sorting.InsertionSort arr = Done arr /\ Sorting.MergeSort arr = Done arr.
Proof.
  intros Hs.
  destruct (BubbleSort_sorts arr) as (s & Eb & Sb & Pb).
  destruct (QuickSort_sorts arr) as (sq & Eq & Sq & Pq).
  destruct (InsertionSort_sorts arr) as (si & Ei & Si & Pi).
  destruct (MergeSort_sorts arr) as (sm & Em & Sm & Pm).
  rewrite Eb, Eq, Ei, Em.
  repeat split; f_equal; by apply sorted_perm_unique.
Qed.

Lemma sorting_keeps_sorted_input_witness :
  Sorted Z.le [1; 2; 2; 5] /\
  Sorting.BubbleSort [1; 2; 2; 5] = Done [1; 2; 2; 5] /\
  Sorting.QuickSort [1; 2; 2; 5] = Done [1; 2; 2; 5] /\
  Sorting.InsertionSort [1; 2; 2; 5] = Done [1; 2; 2; 5] /\
  Sorting.MergeSort [1; 2; 2; 5] = Done [1; 2; 2; 5].
Proof.
  assert (H : Sorted Z.le [1; 2; 2; 5])
    by (repeat (constructor; [|constructor; lia]); constructor).
  split; [exact H | exact (sorting_keeps_sorted_input [1; 2; 2; 5] H)].
Defined.

(** X15: on a window [low..high] inside the array, [partition] returns an
    index [pi] of the window and a rearrangement of the window in which no
    element before [pi] is larger, and none after it smaller, than the one
    at [pi]; the rest of the array is untouched. *)
Theorem partition_splits_window (arr : list Z) (low high : Z) :
  0 <= low -> low <= high -> high < len arr ->
  exists arr' pi,
    Sorting.partition arr low high = Done (arr', pi) /\
    low <= pi <= high /\
    arr' ≡ₚ arr /\
    (forall k, 0 <= k < len arr -> k < low \/ high < k -> arr' !! Z.to_nat k = arr !! Z.to_nat k) /\
    (forall k, low <= k < pi -> zget arr' k <= zget arr' pi) /\
    (forall k, pi < k <= high -> zget arr' pi <= zget arr' k).
Proof.
  intros H0 H1 H2.
  destruct (partition_spec arr low high) as (arr' & pi & E & Hpi & St & A & B); [done..|].
  exists arr', pi. repeat (split; [done|]). split; [apply St|]. split; [|done].
  intros k Hk Hout. pose proof (step_outside _ _ _ _ St k Hk Hout) as Hz.
  pose proof (step_len _ _ _ _ St) as Hl.
  destruct (lookup_lt_is_Some_2 arr (Z.to_nat k)) as [a Ha]; [unfold len in *; lia|].
  destruct (lookup_lt_is_Some_2 arr' (Z.to_nat k)) as [a' Ha']; [unfold len in *; lia|].
  unfold zget in Hz. rewrite Ha, Ha' in Hz. cbn in Hz. by rewrite Ha, Ha', Hz.
Qed.

Lemma partition_splits_window_witness :
  exists arr' pi,
    Sorting.partition [9; 4; 7; 1; 5; 8] 1 4 = Done (arr', pi) /\
    1 <= pi <= 4 /\
    arr' ≡ₚ [9; 4; 7; 1; 5; 8] /\
    (forall k, 0 <= k < len [9; 4; 7; 1; 5; 8] -> k < 1 \/ 4 < k ->
               arr' !! Z.to_nat k = [9; 4; 7; 1; 5; 8] !! Z.to_nat k) /\
    (forall k, 1 <= k < pi -> zget arr' k <= zget arr' pi) /\
    (forall k, pi < k <= 4 -> zget arr' pi <= zget arr' k).
Proof.
  apply (partition_splits_window [9; 4; 7; 1; 5; 8] 1 4); [lia | lia | reflexivity].
Defined.

(** X16: [merge] of two slices that are each in order returns a slice in
    order that holds the elements of both. *)
Theorem merge_sorted_slices (left' right' : list Z) :
  Sorted Z.le left' -> Sorted Z.le right' ->
  exists res, Sorting.merge left' right' = Done res /\
    Sorted Z.le res /\ res ≡ₚ left' ++ right'.
Proof.
  intros Hl Hr. exists (list_merge Z.le left' right'). split; [apply merge_spec|].
  split; [by apply (Sorted_list_merge Z.le) | apply merge_Permutation].
Qed.

Lemma merge_sorted_slices_witness :
  exists res, Sorting.merge [1; 4; 6] [2; 4; 9] = Done res /\
    Sorted Z.le res /\ res ≡ₚ [1; 4; 6] ++ [2; 4; 9].
Proof.
  apply (merge_sorted_slices [1; 4; 6] [2; 4; 9]);
    repeat (constructor; [|constructor; lia]); constructor.
Defined.


(** * More on the graph *)

Section GraphMore.
Import Graph.
Implicit Types (g : Graph) (start : Z) (visited : gmap Z bool).

(** The traversals only ever append to the result. *)
Lemma bfs_loop_extends g (fuel : nat) : forall visited queue result l,
  bfs_loop fuel g visited queue result = Done l -> exists rest, l = result ++ rest.
Proof.
  induction fuel as [|fuel IH]; intros visited queue result l; [done|].
  cbn [bfs_loop]. destruct (len queue >? 0); [|intros [= <-]; exists []; by rewrite app_nil_r].
  destruct (index queue 0) as [vertex| |]; [|done..]. cbn [obind].
  destruct (slice_from queue 1) as [queue'| |]; [|done..]. cbn [obind]. cbv zeta.
  destruct (bfs_range _ _ _) as [visited' queue''].
  intros (rest & ->)%IH. exists (vertex :: rest). by rewrite <- app_assoc.
Qed.

Lemma BFS_head g start l : BFS g start = Done l -> head l = Some start.
Proof.
  unfold BFS. cbv zeta. cbn [bfs_loop].
  change (len [start] >? 0) with true. cbv iota.
  change (index [start] 0) with (Done start).
  change (slice_from [start] 1) with (Done (@nil Z)). cbn [obind]. cbv zeta.
  destruct (bfs_range _ _ _) as [visited' queue'].
  by intros (rest & ->)%bfs_loop_extends.
Qed.

Lemma dfs_range_extends
    (rec : Z -> gmap Z bool * list Z -> outcome (gmap Z bool * list Z)) :
  (forall n st st', rec n st = Done st' -> exists new, st'.2 = st.2 ++ new) ->
  forall ns st st', dfs_range rec ns st = Done st' -> exists new, st'.2 = st.2 ++ new.
Proof.
  intros Hrec. induction ns as [|n ns IH]; intros st st'; cbn [dfs_range].
  - intros [= <-]. exists []. by rewrite app_nil_r.
  - destruct (negb (is_visited st.1 n)); [|apply IH].
    destruct (rec n st) as [st1| |] eqn:E; [|done..]. cbn [obind].
    apply Hrec in E as (new1 & E1). intros (new2 & ->)%IH.
    exists (new1 ++ new2). by rewrite E1, app_assoc.
Qed.

Lemma dfsUtil_extends g (fuel : nat) : forall vertex st st',
  dfsUtil fuel g vertex st = Done st' -> exists new, st'.2 = st.2 ++ vertex :: new.
Proof.
  induction fuel as [|fuel IH]; intros vertex st st'; [done|].
  cbn [dfsUtil]. cbv zeta. intros (new & ->)%dfs_range_extends.
  - exists new. cbn [snd]. by rewrite <- app_assoc.
  - intros n st0 st0' (new & ->)%IH. by eexists.
Qed.

Lemma DFS_head g start l : DFS g start = Done l -> head l = Some start.
Proof.
  unfold DFS. cbv zeta.
  destruct (dfsUtil _ g start (∅, [])) as [st| |] eqn:E; [|done..]. cbn [obind].
  intros [= <-]. apply dfsUtil_extends in E as (new & ->). done.
Qed.

Lemma adjacent_AddEdge g v1 v2 a :
  adjacent (AddEdge g v1 v2) a
  = adjacent g a ++ (if decide (a = v1) then [v2] else [])
                 ++ (if decide (a = v2) then [v1] else []).
Proof.
  unfold AddEdge, adjacent. cbn [vertices].
  destruct (decide (a = v2)) as [->|Hn2].
  - rewrite lookup_insert_eq. cbn [default from_option id].
    destruct (decide (v2 = v1)) as [->|Hn1].
    + rewrite lookup_insert_eq. cbn [default from_option id]. by rewrite <- app_assoc.
    + rewrite lookup_insert_ne by done. done.
  - rewrite lookup_insert_ne by done. rewrite app_nil_r.
    destruct (decide (a = v1)) as [->|Hn1].
    + by rewrite lookup_insert_eq.
    + rewrite lookup_insert_ne by done. by rewrite app_nil_r.
Qed.

End GraphMore.

(** X17: from any start vertex of any graph, [BFS] and [DFS] both return
    a list that begins with the start vertex, and the two lists hold the
    same vertices, each once. *)
Theorem BFS_DFS_same_vertices (g : Graph.Graph) (start : Z) :
  exists lb ld,
    Graph.BFS g start = Done lb /\ Graph.DFS g start = Done ld /\
    head lb = Some start /\ head ld = Some start /\ lb ≡ₚ ld.
Proof.
  destruct (BFS_spec g start) as (lb & Eb & Nb & Hb).
  destruct (DFS_spec g start) as (ld & Ed & Nd & Hd).
  exists lb, ld. split; [done|]. split; [done|].
  split; [by apply (BFS_head g)|]. split; [by apply (DFS_head g)|].
  apply NoDup_Permutation; [done..|]. intros v. by rewrite Hb, Hd.
Qed.

(** X18: [GetNeighbors] of a vertex the graph does not know is empty;
    [AddVertex] changes no neighbour list; [AddEdge v1 v2] appends [v2] to
    the neighbours of [v1] and [v1] to those of [v2] (both to the same list,
    in this order, when [v1 = v2]) and changes no other list. *)
Theorem GetNeighbors_after_updates (g : Graph.Graph) (v1 v2 a : Z) :
  Graph.GetNeighbors Graph.NewGraph a = [] /\
  Graph.GetNeighbors (Graph.AddVertex g v1) a = Graph.GetNeighbors g a /\
  Graph.GetNeighbors (Graph.AddEdge g v1 v2) a
  = Graph.GetNeighbors g a ++ (if decide (a = v1) then [v2] else [])
                           ++ (if decide (a = v2) then [v1] else []).
Proof.
  split; [done|]. split; [apply adjacent_AddVertex | apply adjacent_AddEdge].
Qed.


(** * Fibonacci numbers *)

Section FibonacciFacts.
Import DP.

Lemma fib_step (k : nat) : fib (S (S k)) = fib (S k) + fib k.
Proof. done. Qed.

(** 64-bit addition of wrapped values is the wrapped sum. *)
Lemma wrap_add a b : Int64.add (Int64.wrap a) (Int64.wrap b) = Int64.wrap (a + b).
Proof.
  unfold Int64.add, Int64.wrap. f_equal.
  replace ((a + 2 ^ 63) mod 2 ^ 64 - 2 ^ 63 + ((b + 2 ^ 63) mod 2 ^ 64 - 2 ^ 63) + 2 ^ 63)
    with ((a + 2 ^ 63) mod 2 ^ 64 + ((b + 2 ^ 63) mod 2 ^ 64 - 2 ^ 63)) by lia.
  rewrite Z.add_mod_idemp_l by lia.
  replace (a + 2 ^ 63 + ((b + 2 ^ 63) mod 2 ^ 64 - 2 ^ 63))
    with ((b + 2 ^ 63) mod 2 ^ 64 + a) by lia.
  rewrite Z.add_mod_idemp_l by lia. f_equal. lia.
Qed.

Lemma fib_small_wrap (k : nat) : (k <= 1)%nat -> Int64.wrap (fib k) = Z.of_nat k.
Proof. destruct k as [|[|k]]; [done | done | lia]. Qed.

Lemma fib_rec_spec (fuel : nat) : forall n,
  0 <= n < 2 ^ 62 -> n < Z.of_nat fuel ->
  fib_rec fuel n = Done (Int64.wrap (fib (Z.to_nat n))).
Proof.
  induction fuel as [|fuel IH]; intros n Hn Hf; [lia|].
  cbn [fib_rec]. destruct (Z.leb_spec n 1) as [Hle|Hgt].
  - rewrite fib_small_wrap by lia. f_equal. lia.
  - unfold Int64.sub. rewrite !wrap_small by lia.
    rewrite !IH by lia. cbn [obind]. rewrite wrap_add.
    replace (Z.to_nat n) with (S (S (Z.to_nat (n - 2)))) by lia.
    rewrite fib_step. replace (Z.to_nat (n - 1)) with (S (Z.to_nat (n - 2))) by lia.
    done.
Qed.

Lemma fib_loop_spec n (fuel : nat) : forall dp i,
  2 <= i <= n + 1 -> n < 2 ^ 62 -> len dp = n + 1 -> n + 1 - i < Z.of_nat fuel ->
  (forall k, 0 <= k < i -> zget dp k = Int64.wrap (fib (Z.to_nat k))) ->
  exists dp', fib_loop fuel dp n i = Done dp' /\ len dp' = n + 1 /\
    forall k, 0 <= k <= n -> zget dp' k = Int64.wrap (fib (Z.to_nat k)).
Proof.
  induction fuel as [|fuel IH]; intros dp i Hi Hn Hlen Hf Hdp; [lia|].
  cbn [fib_loop]. destruct (Z.leb_spec i n) as [Hle|Hgt].
  - unfold Int64.sub. rewrite !wrap_small by lia.
    rewrite (index_zget dp (i - 1)), (index_zget dp (i - 2)) by lia. cbn [obind].
    rewrite store_zset by lia. cbn [obind].
    unfold Int64.add at 2. rewrite wrap_small by lia.
    apply IH; [lia | lia | by rewrite len_zset | lia |].
    intros k Hk. destruct (decide (k = i)) as [->|Hne].
    + rewrite zget_zset_eq by lia. rewrite !Hdp by lia. rewrite wrap_add.
      replace (Z.to_nat i) with (S (S (Z.to_nat (i - 2)))) by lia.
      rewrite fib_step. replace (Z.to_nat (i - 1)) with (S (Z.to_nat (i - 2))) by lia.
      done.
    + rewrite zget_zset_ne by lia. apply Hdp. lia.
  - exists dp. split; [done|]. split; [done|]. intros k Hk. apply Hdp. lia.
Qed.

Lemma FibonacciDP_spec n :
  2 <= n < 2 ^ 62 -> FibonacciDP n = Done (Int64.wrap (fib (Z.to_nat n))).
Proof.
  intros Hn. unfold FibonacciDP. destruct (Z.leb_spec n 1); [lia|].
  unfold Int64.add, make_ints. rewrite wrap_small by lia.
  destruct (Z.ltb_spec (n + 1) 0); [lia|]. cbn [obind].
  set (dp0 := replicate (Z.to_nat (n + 1)) 0).
  assert (Hl0 : len dp0 = n + 1) by (unfold len, dp0; rewrite length_replicate; lia).
  rewrite store_zset by lia. cbn [obind].
  rewrite store_zset by (rewrite len_zset; lia). cbn [obind].
  destruct (fib_loop_spec n (S (Z.to_nat n)) (zset (zset dp0 0 0) 1 1) 2)
    as (dp' & -> & Hl & Hdp); [lia | lia | by rewrite !len_zset | lia | |].
  { intros k Hk. destruct (decide (k = 1)) as [->|Hne].
    - rewrite zget_zset_eq by (rewrite len_zset; lia). done.
    - assert (k = 0) as -> by lia. rewrite zget_zset_ne by lia.
      rewrite zget_zset_eq by lia. done. }
  cbn [obind]. rewrite index_zget by lia. f_equal. apply Hdp. lia.
Qed.

End FibonacciFacts.

(** X19: [FibonacciDP] and [FibonacciRecursive] return the same value:
    [n] itself when [n <= 1] (negative numbers included), and otherwise
    the [n]-th Fibonacci number reduced to a 64-bit signed integer. *)
Theorem Fibonacci_functions_agree (n : Z) :
  n < 2 ^ 31 ->
  DP.FibonacciDP n = DP.FibonacciRecursive n /\
  DP.FibonacciDP n
  = Done (if n <=? 1 then n else Int64.wrap (DP.fib (Z.to_nat n))).
Proof.
  intros Hn. destruct (Z.leb_spec n 1) as [Hle|Hgt].
  - unfold DP.FibonacciDP, DP.FibonacciRecursive. cbn [DP.fib_rec].
    destruct (Z.leb_spec n 1); [done|lia].
  - unfold DP.FibonacciRecursive.
    rewrite fib_rec_spec, FibonacciDP_spec by lia. done.
Qed.

Lemma Fibonacci_functions_agree_witness :
  DP.FibonacciDP 10 = DP.FibonacciRecursive 10 /\ DP.FibonacciDP 10 = Done 55.
Proof. apply (Fibonacci_functions_agree 10). reflexivity. Defined.

(** * The linked list *)

Section LinkedListFacts.
Import LinkedList.

Lemma insert_after_last_elements d next newNode :
  elements_from (insert_after_last d next newNode)
  = d :: elements_from next ++ elements_from newNode.
Proof.
  revert d. induction next as [|d' next IH]; intros d; cbn; [done|].
  by rewrite IH.
Qed.

Lemma delete_loop_found cdata cnext data :
  data ∈ elements_from cnext ->
  exists l1 l2,
    elements_from cnext = l1 ++ data :: l2 /\ (data ∉ l1) /\
    (delete_loop cdata cnext data).2 = true /\
    elements_from (delete_loop cdata cnext data).1 = cdata :: l1 ++ l2.
Proof.
  revert cdata. induction cnext as [|ndata nnext IH]; intros cdata Hin; cbn in *.
  - by apply elem_of_nil in Hin.
  - destruct (Z.eqb_spec ndata data) as [->|Hne].
    + exists [], (elements_from nnext). split; [done|].
      split; [apply not_elem_of_nil | done].
    + apply elem_of_cons in Hin as [?|Hin]; [congruence|].
      destruct (IH ndata Hin) as (l1 & l2 & E & Hn & Hf & Hr).
      destruct (delete_loop ndata nnext data) as [rest found]. cbn in *.
      exists (ndata :: l1), l2. split; [by rewrite E|].
      split; [|by rewrite Hr].
      intros [?|?]%elem_of_cons; [congruence | done].
Qed.

Lemma delete_loop_missing cdata cnext data :
  data ∉ elements_from cnext ->
  delete_loop cdata cnext data = (mkNode cdata cnext, false).
Proof.
  revert cdata. induction cnext as [|ndata nnext IH]; intros cdata Hin; cbn in *; [done|].
  apply not_elem_of_cons in Hin as [Hne Hin].
  destruct (Z.eqb_spec ndata data) as [->|_]; [done|].
  by rewrite IH.
Qed.

End LinkedListFacts.

(** [Insert] puts the new value at the end of the list and leaves the
    values before it as they were. *)
Lemma Insert_appends (l : LinkedList.LinkedList) (data : Z) :
  LinkedList.elements (LinkedList.Insert l data) = LinkedList.elements l ++ [data].
Proof.
  destruct l as [[|d next]]; unfold LinkedList.Insert, LinkedList.elements; cbn; [done|].
  apply insert_after_last_elements.
Qed.

(** [Delete] removes the first node that holds the value and returns
    true, the values before and after it staying in place; when no node
    holds the value it returns false and the list is unchanged. *)
Lemma Delete_removes_first_occurrence (l : LinkedList.LinkedList) (data : Z) :
  (data ∈ LinkedList.elements l /\
   exists l1 l2,
     LinkedList.elements l = l1 ++ data :: l2 /\ (data ∉ l1) /\
     (LinkedList.Delete l data).2 = true /\
     LinkedList.elements (LinkedList.Delete l data).1 = l1 ++ l2) \/
  ((data ∉ LinkedList.elements l) /\ LinkedList.Delete l data = (l, false)).
Proof.
  destruct (decide (data ∈ LinkedList.elements l)) as [Hin|Hout]; [left | right];
    (split; [done|]); destruct l as [[|hdata hnext]];
    unfold LinkedList.Delete, LinkedList.elements in *; cbn in *.
  - by apply elem_of_nil in Hin.
  - destruct (Z.eqb_spec hdata data) as [->|Hne].
    + exists [], (LinkedList.elements_from hnext). split; [done|].
      split; [apply not_elem_of_nil | done].
    + apply elem_of_cons in Hin as [?|Hin]; [congruence|].
      destruct (delete_loop_found hdata hnext data Hin) as (l1 & l2 & E & Hn & Hf & Hr).
      destruct (LinkedList.delete_loop hdata hnext data) as [chain found]. cbn in *.
      exists (hdata :: l1), l2. split; [by rewrite E|]. split; [|done].
      intros [?|?]%elem_of_cons; [congruence | done].
  - done.
  - apply not_elem_of_cons in Hout as [Hne Hout].
    destruct (Z.eqb_spec hdata data) as [->|_]; [done|].
    by rewrite delete_loop_missing.
Qed.

(** X20: on the linked list, [Insert] appends the value at the end, and
    [Delete] removes the first node that holds the value and returns true,
    or returns false and changes nothing when no node holds it; the other
    values keep their order. *)
Theorem LinkedList_Insert_Delete (l : LinkedList.LinkedList) (data : Z) :
  LinkedList.elements (LinkedList.Insert l data) = LinkedList.elements l ++ [data] /\
  ((data ∈ LinkedList.elements l /\
    exists l1 l2,
      LinkedList.elements l = l1 ++ data :: l2 /\ (data ∉ l1) /\
      (LinkedList.Delete l data).2 = true /\
      LinkedList.elements (LinkedList.Delete l data).1 = l1 ++ l2) \/
   ((data ∉ LinkedList.elements l) /\ LinkedList.Delete l data = (l, false))).
Proof.
  split; [apply Insert_appends | apply Delete_removes_first_occurrence].
Qed.


(** * The chain of loggers *)

Section LoggingFacts.
Import Logging.

Lemma index_app_r {A : Type} (st l : list A) k :
  0 <= k -> index (st ++ l) (len st + k) = index l k.
Proof.
  intros Hk. unfold index, len.
  destruct (Z.leb_spec 0 (Z.of_nat (length st) + k)); [|lia].
  destruct (Z.leb_spec 0 k); [|lia].
  rewrite lookup_app_r by lia.
  by replace (Z.to_nat (Z.of_nat (length st) + k) - length st)%nat with (Z.to_nat k) by lia.
Qed.

Lemma store_app_r {A : Type} (st l : list A) k v :
  0 <= k < len l ->
  store (st ++ l) (len st + k) v = Done (st ++ <[Z.to_nat k := v]> l).
Proof.
  intros Hk. unfold store, len in *. rewrite length_app.
  destruct (Z.leb_spec 0 (Z.of_nat (length st) + k)); [|lia].
  destruct (Z.ltb_spec (Z.of_nat (length st) + k) (Z.of_nat (length st + length l)));
    [|lia].
  cbn [andb]. f_equal.
  replace (Z.to_nat (Z.of_nat (length st) + k)) with (length st + Z.to_nat k)%nat by lia.
  apply insert_app_r.
Qed.

(** What a logger answers is empty or made for the level of the entry. *)
Lemma Log_rec_answer (fuel : nat) st : forall l entry s,
  Log_rec fuel st l entry = Done s ->
  s = EmptyString \/
  exists t, handled_level t = Level entry /\ s = prefix_of t +:+ Message entry.
Proof.
  induction fuel as [|fuel IH]; intros l entry s; [done|].
  cbn [Log_rec]. destruct (index st l) as [o| |]; [|done..]. cbn [obind].
  destruct (Z.eqb_spec (Level entry) (handled_level (type_of o))) as [E|_].
  - intros [= <-]. right. by exists (type_of o).
  - destruct (next o) as [n|]; [apply IH|]. intros [= <-]. by left.
Qed.

Lemma NewLoggerChain_store st :
  NewLoggerChain st
  = Done (mkChain (Some (len st)),
          st ++ [mkLogger InfoLogger (Some (len st + 1));
                 mkLogger DebugLogger (Some (len st + 2));
                 mkLogger ErrorLogger None]).
Proof.
  unfold NewLoggerChain, NewInfoLogger, NewDebugLogger, NewErrorLogger, new_logger.
  cbv zeta. rewrite !len_app. change (len [_]) with 1.
  rewrite <- !app_assoc. cbn [app]. unfold SetNext.
  set (a := mkLogger InfoLogger None). set (b := mkLogger DebugLogger None).
  set (c := mkLogger ErrorLogger None).
  pose proof (index_app_r st [a; b; c] 0) as I0. rewrite Z.add_0_r in I0.
  rewrite I0 by lia. change (index [a; b; c] 0) with (Done a). cbn [obind].
  pose proof (store_app_r st [a; b; c] 0) as S0. rewrite Z.add_0_r in S0.
  rewrite S0 by (unfold len; cbn [length]; lia). cbn [obind].
  change (<[Z.to_nat 0 := ?x]> [a; b; c]) with [x; b; c].
  rewrite index_app_r by lia.
  match goal with |- context [index ?l 1] => change (index l 1) with (Done b) end.
  cbn [obind].
  rewrite store_app_r by (unfold len; cbn [length]; lia). cbn [obind].
  replace (len st + 1 + 1) with (len st + 2) by lia. done.
Qed.

End LoggingFacts.

(** X21: the chain that [NewLoggerChain] builds, in any store, answers an
    entry of level INFO, DEBUG or ERROR with the message behind the prefix
    of that level, and an entry of any other level with the empty string;
    building it leaves the objects already in the store as they were. *)
Theorem LoggerChain_answers_by_level (st : Logging.store_t) :
  exists c st',
    Logging.NewLoggerChain st = Done (c, st') /\
    take (length st) st' = st /\
    forall entry,
      Logging.LoggerChain_Log st' c entry
      = Done (if Logging.Level entry =? Logging.INFO
              then "Info: " +:+ Logging.Message entry
              else if Logging.Level entry =? Logging.DEBUG
              then "Debug: " +:+ Logging.Message entry
              else if Logging.Level entry =? Logging.ERROR
              then "Error: " +:+ Logging.Message entry
              else EmptyString).
Proof.
  eexists _, _. split; [apply NewLoggerChain_store|]. split; [by rewrite take_app_length|].
  intros entry. unfold Logging.LoggerChain_Log, Logging.Log. cbn [Logging.firstLogger].
  rewrite length_app. cbn [length].
  replace (length st + 3)%nat with (S (S (S (length st)))) by lia.
  cbn [Logging.Log_rec].
  pose proof (index_app_r st) as I.
  pose proof (I [Logging.mkLogger Logging.InfoLogger (Some (len st + 1));
                 Logging.mkLogger Logging.DebugLogger (Some (len st + 2));
                 Logging.mkLogger Logging.ErrorLogger None] 0) as I0.
  rewrite Z.add_0_r in I0. rewrite I0 by lia.
  match goal with |- context [index ?l 0] =>
    change (index l 0) with (Done (Logging.mkLogger Logging.InfoLogger (Some (len st + 1)))) end.
  cbn [obind Logging.type_of Logging.next Logging.handled_level Logging.prefix_of].
  destruct (Logging.Level entry =? Logging.INFO); [done|].
  rewrite I by lia.
  match goal with |- context [index ?l 1] =>
    change (index l 1) with (Done (Logging.mkLogger Logging.DebugLogger (Some (len st + 2)))) end.
  cbn [obind Logging.type_of Logging.next Logging.handled_level Logging.prefix_of].
  destruct (Logging.Level entry =? Logging.DEBUG); [done|].
  rewrite I by lia.
  match goal with |- context [index ?l 2] =>
    change (index l 2) with (Done (Logging.mkLogger Logging.ErrorLogger None)) end.
  cbn [obind Logging.type_of Logging.next Logging.handled_level Logging.prefix_of].
  by destruct (Logging.Level entry =? Logging.ERROR).
Qed.

(** Whatever the store and the logger, an answer of [Log] is the
    empty string, or the message of the entry behind the prefix of a logger
    that handles the level of the entry. *)
Lemma Log_answer_matches_level (st : Logging.store_t) (l : Z)
    (entry : Logging.LogEntry) (s : string) :
  Logging.Log st l entry = Done s ->
  s = EmptyString \/
  exists t, Logging.handled_level t = Logging.Level entry /\
            s = Logging.prefix_of t +:+ Logging.Message entry.
Proof. apply Log_rec_answer. Qed.

Lemma Log_answer_matches_level_witness :
  let st := [Logging.mkLogger Logging.InfoLogger (Some 1);
             Logging.mkLogger Logging.ErrorLogger None] in
  let entry := Logging.mkLogEntry "disk full" Logging.ERROR in
  "Error: disk full"%string = EmptyString \/
  exists t, Logging.handled_level t = Logging.Level entry /\
            "Error: disk full"%string = Logging.prefix_of t +:+ Logging.Message entry.
Proof.
  intros st entry. apply (Log_answer_matches_level st 0 entry). reflexivity.
Defined.

(** * The weather station *)

Section ObserverFacts.
Context {float64 : Type}.

Lemma remove_range_spec (observers : list Z) o : forall rest pre,
  observers = pre ++ rest -> o ∉ pre ->
  (o ∈ rest /\ exists l1 l2,
      observers = l1 ++ o :: l2 /\ (o ∉ l1) /\
      Observer.remove_range observers rest (len pre) o = Done (l1 ++ l2)) \/
  ((o ∉ rest) /\ Observer.remove_range observers rest (len pre) o = Done observers).
Proof.
  induction rest as [|x rest IH]; intros pre Hobs Hpre; cbn [Observer.remove_range].
  - right. split; [apply not_elem_of_nil | done].
  - destruct (Z.eqb_spec x o) as [->|Hne].
    + left. split; [by left|]. exists pre, rest. split; [done|]. split; [done|].
      rewrite slice_to_in_range, slice_from_in_range
        by (rewrite Hobs, len_app; unfold len; cbn [length]; lia).
      cbn [obind]. f_equal. rewrite Hobs. unfold len.
      rewrite Nat2Z.id, take_app_length.
      replace (Z.to_nat (Z.of_nat (length pre) + 1)) with (length pre + 1)%nat by lia.
      rewrite drop_app_add'; done.
    + destruct (IH (pre ++ [x])) as [(Hin & l1 & l2 & E & Hn & R)|(Hout & R)].
      * by rewrite <- app_assoc.
      * rewrite not_elem_of_app, list_elem_of_singleton. split; [done|congruence].
      * left. split; [by right|]. exists l1, l2. repeat (split; [done|]).
        rewrite len_app in R. done.
      * right. split; [|by rewrite len_app in R].
        rewrite not_elem_of_cons. split; [congruence|done].
Qed.

End ObserverFacts.


(** A station notifies its observers once per registration, in the
    order of registration, with the temperature just set; an observer
    registered and then removed again is not notified any more than
    before. *)
Lemma SetTemperature_notifies_registered (float64 : Type)
    (w : Observer.WeatherStation float64) (os : list Z) (o : Z) (temp : float64) :
  let w' := foldl (Observer.RegisterObserver float64) w os in
  (Observer.SetTemperature float64 w' temp).2
  = map (fun x => (x, temp)) (Observer.observers float64 w ++ os) /\
  ((o ∉ Observer.observers float64 w') ->
   exists w'', Observer.RemoveObserver float64 (Observer.RegisterObserver float64 w' o) o
               = Done w'' /\
     (Observer.SetTemperature float64 w'' temp).2
     = (Observer.SetTemperature float64 w' temp).2).
Proof.
  intros w'.
  assert (Hobs : Observer.observers float64 w' = Observer.observers float64 w ++ os).
  { subst w'. revert w. induction os as [|x os IH]; intros w; cbn [foldl].
    - by rewrite app_nil_r.
    - rewrite IH. cbn. by rewrite <- app_assoc. }
  split.
  - unfold Observer.SetTemperature, Observer.NotifyObservers. cbn. by rewrite Hobs.
  - intros Hout. unfold Observer.RemoveObserver, Observer.RegisterObserver.
    cbn [Observer.observers Observer.temperature].
    destruct (remove_range_spec (Observer.observers float64 w' ++ [o]) o
                (Observer.observers float64 w' ++ [o]) [])
      as [(Hin & l1 & l2 & E & Hn & R)|(Hno & R)]; [done | apply not_elem_of_nil | |].
    + change (len []) with 0 in R. rewrite R. cbn [obind]. eexists. split; [done|].
      unfold Observer.SetTemperature, Observer.NotifyObservers. cbn. f_equal.
      destruct l2 as [|y l2 _] using rev_ind.
      * apply app_inj_tail in E as [E _]. by rewrite app_nil_r, E.
      * rewrite app_comm_cons, app_assoc in E. apply app_inj_tail in E as [E ->].
        exfalso. apply Hout. rewrite E. apply elem_of_app. right. by left.
    + exfalso. apply Hno. apply elem_of_app. right. by left.
Qed.

Lemma SetTemperature_notifies_registered_witness :
  let w := Observer.NewWeatherStation Z 0 in
  let w' := foldl (Observer.RegisterObserver Z) w [7; 8] in
  (Observer.SetTemperature Z w' 21).2 = [(7, 21); (8, 21)] /\
  exists w'', Observer.RemoveObserver Z (Observer.RegisterObserver Z w' 9) 9 = Done w'' /\
    (Observer.SetTemperature Z w'' 21).2 = (Observer.SetTemperature Z w' 21).2.
Proof.
  intros w w'.
  destruct (SetTemperature_notifies_registered Z w [7; 8] 9 21) as [H1 H2].
  split; [exact H1|]. apply H2. cbn.
  intros H. repeat (apply elem_of_cons in H as [H|H]; [lia|]). by apply elem_of_nil in H.
Defined.

(** * Knuth-Morris-Pratt with an empty pattern *)

(** X23: with the empty pattern, [KMPSearch] returns no match on the
    empty text and panics on every other text, at the read of
    [pattern[0]]. *)
Theorem KMPSearch_empty_pattern (text : string) :
  KMP.KMPSearch text "" = match text with EmptyString => Done [] | String _ _ => Panic end.
Proof.
  unfold KMP.KMPSearch. change (KMP.computeLPSArray (KMP.bytes "")) with (Done (@nil Z)).
  cbn [obind]. destruct text as [|c text]; [done|].
  cbn [KMP.kmp_loop]. unfold KMP.bytes. cbn [String.list_ascii_of_string].
  destruct (Z.ltb_spec 0 (len (c :: String.list_ascii_of_string text))) as [_|H].
  - done.
  - unfold len in H. cbn [length] in H. lia.
Qed.


(** * Coin change *)

Section CoinChangeFacts.
Import DP.

Lemma min_cases a b : (min a b = a /\ a <= b) \/ (min a b = b /\ b < a).
Proof. unfold min. destruct (Z.ltb_spec a b); lia. Qed.

Lemma fill_range_spec v : forall (n : nat) dp i,
  0 <= i -> i + Z.of_nat n = len dp ->
  exists dp', fill_range n dp i v = Done dp' /\ len dp' = len dp /\
    (forall k, i <= k < len dp -> zget dp' k = v) /\
    (forall k, 0 <= k < i -> zget dp' k = zget dp k).
Proof.
  induction n as [|n IH]; intros dp i Hi Hn; cbn [fill_range].
  - exists dp. split; [done|]. split; [done|]. split; [intros; lia | done].
  - rewrite store_zset by lia. cbn [obind].
    destruct (IH (zset dp i v) (i + 1)) as (dp' & E & Hl & Hv & Hk);
      [lia | rewrite len_zset; lia |].
    rewrite len_zset in Hl, Hv. exists dp'. split; [done|]. split; [done|]. split.
    + intros k Hk'. destruct (decide (k = i)) as [->|Hne]; [|apply Hv; lia].
      rewrite Hk by lia. apply zget_zset_eq. lia.
    + intros k Hk'. rewrite Hk by lia. apply zget_zset_ne; lia.
Qed.

(** With coins of at least 1, a payment has at most as many coins as
    the amount it pays. *)
Lemma pays_length coins cs k :
  Forall (fun c => 1 <= c) coins -> pays coins cs k -> len cs <= k.
Proof.
  intros Hpos [Hcs Hsum]. revert k Hsum.
  induction Hcs as [|c cs Hc Hcs IH]; intros k Hsum; cbn in Hsum.
  - unfold len. cbn. lia.
  - rewrite Forall_forall in Hpos. specialize (Hpos c Hc). cbn beta in Hpos.
    specialize (IH _ eq_refl). unfold len in *. cbn [length]. lia.
Qed.

Lemma pays_cons coins cs c k :
  c ∈ coins -> pays coins cs (k - c) -> pays coins (c :: cs) k.
Proof.
  intros Hc [Hcs Hsum]. split; [by constructor|]. cbn. lia.
Qed.

(** The inner loop lowers [dp[i]] to the least of its old value and
    [dp[i - coin] + 1] over the coins that fit. *)
Lemma coin_range_spec amount i (dp0 : list Z) : forall coins dp,
  Forall (fun c => 1 <= c) coins -> 1 <= i <= amount -> amount < 2 ^ 31 ->
  len dp = amount + 1 ->
  (forall k, 0 <= k <= amount -> k <> i -> zget dp k = zget dp0 k) ->
  (forall k, 0 <= k < i -> 0 <= zget dp0 k <= amount + 1) ->
  0 <= zget dp i <= amount + 1 ->
  exists dp', coin_range coins dp i = Done dp' /\ len dp' = amount + 1 /\
    (forall k, 0 <= k <= amount -> k <> i -> zget dp' k = zget dp0 k) /\
    0 <= zget dp' i <= zget dp i /\
    (zget dp' i = zget dp i \/
     exists c, c ∈ coins /\ c <= i /\ zget dp' i = zget dp0 (i - c) + 1) /\
    (forall c, c ∈ coins -> c <= i -> zget dp' i <= zget dp0 (i - c) + 1).
Proof.
  induction coins as [|coin rest IH]; intros dp Hpos Hi Ham Hlen Hsame Hold Hcur;
    cbn [coin_range].
  - exists dp. split; [done|]. split; [done|]. split; [done|]. split; [lia|].
    split; [by left|]. intros c Hc. by apply elem_of_nil in Hc.
  - apply Forall_cons in Hpos as [Hcoin Hpos].
    destruct (Z.leb_spec coin i) as [Hfit|Hbig].
    + unfold Int64.sub. rewrite wrap_small by lia.
      rewrite (index_zget dp i), (index_zget dp (i - coin)) by lia. cbn [obind].
      rewrite (Hsame (i - coin)) by lia.
      pose proof (Hold (i - coin) ltac:(lia)) as Hb.
      unfold Int64.add. rewrite wrap_small by lia.
      rewrite store_zset by lia. cbn [obind].
      set (new := min (zget dp i) (zget dp0 (i - coin) + 1)).
      assert (Hnew : (new = zget dp i /\ zget dp i <= zget dp0 (i - coin) + 1) \/
                     (new = zget dp0 (i - coin) + 1 /\ new < zget dp i))
        by (subst new; destruct (min_cases (zget dp i) (zget dp0 (i - coin) + 1)); lia).
      destruct (IH (zset dp i new)) as (dp' & E & Hl & Hs & Hle & Hwhich & Hall);
        [done | done | done | by rewrite len_zset | | done | |].
      { intros k Hk Hne. rewrite zget_zset_ne by lia. by apply Hsame. }
      { rewrite zget_zset_eq by lia. lia. }
      rewrite zget_zset_eq in Hle, Hwhich by lia.
      exists dp'. split; [done|]. split; [done|]. split; [done|]. split; [lia|]. split.
      * destruct Hwhich as [Hw|(c & Hc & Hci & Hw)].
        -- destruct Hnew as [[Hn _]|[Hn _]]; [left; lia|].
           right. exists coin. split; [by left|]. split; [done|]. lia.
        -- right. exists c. split; [by right|]. done.
      * intros c Hc Hci. apply elem_of_cons in Hc as [->|Hc]; [lia|]. by apply Hall.
    + destruct (IH dp) as (dp' & E & Hl & Hs & Hle & Hwhich & Hall); [done..|].
      exists dp'. split; [done|]. split; [done|]. split; [done|]. split; [done|]. split.
      * destruct Hwhich as [Hw|(c & Hc & Hci & Hw)]; [by left|].
        right. exists c. split; [by right|]. done.
      * intros c Hc Hci. apply elem_of_cons in Hc as [->|Hc]; [lia|]. by apply Hall.
Qed.

Lemma coin_loop_spec coins amount :
  Forall (fun c => 1 <= c) coins -> 0 <= amount < 2 ^ 31 ->
  forall (fuel : nat) dp i,
    1 <= i <= amount + 1 -> amount + 1 - i < Z.of_nat fuel -> len dp = amount + 1 ->
    (forall k, i <= k <= amount -> zget dp k = amount + 1) ->
    (forall k, 0 <= k < i -> table_entry coins amount k (zget dp k)) ->
    exists dp', coin_loop fuel coins dp amount i = Done dp' /\ len dp' = amount + 1 /\
      forall k, 0 <= k <= amount -> table_entry coins amount k (zget dp' k).
Proof.
  intros Hpos Ham. induction fuel as [|fuel IH]; intros dp i Hi Hf Hlen Hrest Hdone; [lia|].
  cbn [coin_loop]. destruct (Z.leb_spec i amount) as [Hle|Hgt].
  - destruct (coin_range_spec amount i dp coins dp)
      as (dp' & -> & Hl & Hs & Hcur & Hwhich & Hall);
      [done | lia | lia | done | done | | |].
    { intros k Hk. apply Hdone. lia. }
    { rewrite Hrest by lia. lia. }
    cbn [obind]. unfold Int64.add. rewrite wrap_small by lia.
    apply IH; [lia | lia | done | |].
    + intros k Hk. rewrite Hs by lia. apply Hrest. lia.
    + intros k Hk. destruct (decide (k = i)) as [->|Hne];
        [|rewrite Hs by lia; apply Hdone; lia].
      rewrite Hrest in Hcur, Hwhich by lia. split; [lia|]. split.
      * intros Hsmall. destruct Hwhich as [Hw|(c & Hc & Hci & Hw)]; [lia|].
        rewrite Forall_forall in Hpos. pose proof (Hpos c Hc) as Hc1. cbn beta in Hc1.
        destruct (Hdone (i - c)) as (_ & Hex & _); [lia|].
        destruct Hex as (cs & Hcs & Hn); [lia|].
        exists (c :: cs). split; [by apply pays_cons|].
        unfold len in *. cbn [length]. lia.
      * intros cs [Hcs Hsum]. destruct Hcs as [|c cs Hc Hcs]; cbn in Hsum; [lia|].
        pose proof Hpos as Hpos'. rewrite Forall_forall in Hpos'.
        pose proof (Hpos' c Hc) as Hc1. cbn beta in Hc1.
        assert (Hrest' : pays coins cs (i - c)) by (split; [done|lia]).
        pose proof (pays_length _ _ _ Hpos Hrest') as Hlen'.
        pose proof (len_nonneg cs).
        destruct (Hdone (i - c)) as (_ & _ & Hmin); [lia|].
        specialize (Hmin cs Hrest'). specialize (Hall c Hc ltac:(lia)).
        unfold len in *. cbn [length]. lia.
  - exists dp. split; [done|]. split; [done|]. intros k Hk. apply Hdone. lia.
Qed.

Lemma CoinChange_spec coins amount :
  Forall (fun c => 1 <= c) coins -> 0 <= amount < 2 ^ 31 ->
  exists d, table_entry coins amount amount d /\
    CoinChange coins amount = Done (if d >? amount then -1 else d).
Proof.
  intros Hpos Ham. unfold CoinChange, make_ints, Int64.add.
  rewrite !wrap_small by lia. destruct (Z.ltb_spec (amount + 1) 0); [lia|]. cbn [obind].
  set (dp0 := replicate (Z.to_nat (amount + 1)) 0).
  assert (Hl0 : len dp0 = amount + 1) by (unfold len, dp0; rewrite length_replicate; lia).
  destruct (fill_range_spec (amount + 1) (length dp0) dp0 0)
    as (dp1 & -> & Hl1 & Hv1 & _); [lia | unfold len in *; lia |].
  cbn [obind]. rewrite store_zset by lia. cbn [obind].
  destruct (coin_loop_spec coins amount Hpos Ham (S (Z.to_nat amount)) (zset dp1 0 0) 1)
    as (dp' & -> & Hl & Hdp); [lia | lia | rewrite len_zset; lia | | |].
  { intros k Hk. rewrite zget_zset_ne by lia. apply Hv1. lia. }
  { intros k Hk. assert (k = 0) as -> by lia. rewrite zget_zset_eq by lia.
    split; [lia|]. split.
    - intros _. exists []. split; [|done]. split; [constructor | done].
    - intros cs _. apply len_nonneg. }
  cbn [obind]. rewrite index_zget by lia. cbn [obind].
  exists (zget dp' amount). split; [apply Hdp; lia|].
  by destruct (zget dp' amount >? amount).
Qed.

End CoinChangeFacts.

(** X24: for coins of at least 1 and an amount from 0 to below [2^31],
    [CoinChange] does not panic; it returns [-1] when no multiset of the
    coins adds up to the amount, and otherwise the least number of coins
    that does. *)
Theorem CoinChange_least_number_of_coins (coins : list Z) (amount : Z) :
  Forall (fun c => 1 <= c) coins -> 0 <= amount < 2 ^ 31 ->
  exists r, DP.CoinChange coins amount = Done r /\
    ((r = -1 /\ forall cs, ~ DP.pays coins cs amount) \/
     (exists cs, DP.pays coins cs amount /\ len cs = r /\
                 forall cs', DP.pays coins cs' amount -> r <= len cs')).
Proof.
  intros Hpos Ham.
  destruct (CoinChange_spec coins amount Hpos Ham) as (d & (Hd & Hex & Hmin) & ->).
  eexists. split; [done|]. destruct (Z.gtb_spec d amount) as [Hbig|Hsmall].
  - left. split; [done|]. intros cs Hcs.
    pose proof (pays_length _ _ _ Hpos Hcs). specialize (Hmin cs Hcs). lia.
  - right. destruct (Hex Hsmall) as (cs & Hcs & Hlen). by exists cs.
Qed.

Lemma CoinChange_least_number_of_coins_witness :
  exists r, DP.CoinChange [1; 2; 5] 11 = Done r /\
    ((r = -1 /\ forall cs, ~ DP.pays [1; 2; 5] cs 11) \/
     (exists cs, DP.pays [1; 2; 5] cs 11 /\ len cs = r /\
                 forall cs', DP.pays [1; 2; 5] cs' 11 -> r <= len cs')).
Proof.
  apply (CoinChange_least_number_of_coins [1; 2; 5] 11).
  - repeat (constructor; [lia|]). constructor.
  - lia.
Defined.

(** X25: [CoinChange] panics on every negative amount, at [make] or at
    the write of [dp[0]], whatever the coins. *)
Theorem CoinChange_negative_amount_panics (coins : list Z) (amount : Z) :
  - 2 ^ 63 <= amount < 0 -> DP.CoinChange coins amount = Panic.
Proof.
  intros Ham. unfold DP.CoinChange, DP.make_ints, Int64.add.
  rewrite !wrap_small by lia. destruct (Z.ltb_spec (amount + 1) 0) as [|Hz]; [done|].
  assert (amount = -1) as -> by lia. done.
Qed.

Lemma CoinChange_negative_amount_panics_witness : DP.CoinChange [1; 2] (-3) = Panic.
Proof. apply (CoinChange_negative_amount_panics [1; 2] (-3)). lia. Defined.


(** * Knuth-Morris-Pratt: all occurrences *)

Section KMPFacts.
Import KMP.
Implicit Types (text p : list ascii) (lps matches : list Z).

Lemma index_bget (l : list ascii) k : 0 <= k < len l -> index l k = Done (bget l k).
Proof.
  intros Hk. destruct (index_in_range l k Hk) as (v & -> & Hv).
  unfold bget. by rewrite Hv.
Qed.

Lemma zget_replicate (n : nat) q : zget (replicate n 0) q = 0.
Proof.
  unfold zget. destruct (replicate n 0 !! Z.to_nat q) as [x|] eqn:E; [|done].
  by apply lookup_replicate in E as [-> _].
Qed.

(** ** Borders *)

Lemma border_zero p n : 0 <= n -> border p n 0.
Proof. intros Hn. split; [lia|]. intros t Ht. lia. Qed.

Lemma border_trans p n k b : border p n k -> border p k b -> border p n b.
Proof.
  intros [Hk Hb1] [Hb Hb2]. split; [lia|]. intros t Ht.
  rewrite Hb2 by lia. rewrite Hb1 by lia. f_equal. lia.
Qed.

Lemma border_shorter p n k k' :
  border p n k -> border p n k' -> k' <= k -> border p k k'.
Proof.
  intros [Hk Hb1] [Hk' Hb2] Hle. split; [lia|]. intros t Ht.
  rewrite Hb2 by lia. rewrite (Hb1 (k - k' + t)) by lia. f_equal. lia.
Qed.

Lemma border_pred p n k :
  0 <= k -> border p (n + 1) (k + 1) -> border p n k /\ bget p k = bget p n.
Proof.
  intros Hk [Hkn Hb]. split; [split; [lia|]|].
  - intros t Ht. rewrite Hb by lia. f_equal. lia.
  - rewrite Hb by lia. f_equal. lia.
Qed.

Lemma border_succ p n k :
  border p n k -> bget p k = bget p n -> border p (n + 1) (k + 1).
Proof.
  intros [Hk Hb] Heq. split; [lia|]. intros t Ht.
  destruct (decide (t = k)) as [->|Hne].
  - rewrite Heq. f_equal. lia.
  - rewrite Hb by lia. f_equal. lia.
Qed.

Lemma prefix_at_border text p s k b :
  prefix_at text p s k -> border p k b -> prefix_at text p (s + k - b) b.
Proof.
  intros Hp [Hb Hbb] t Ht. rewrite Hbb by lia. rewrite <- Hp by lia. f_equal. lia.
Qed.

(** Two prefixes of the pattern that end at the same place in the text:
    the shorter is a border of the longer. *)
Lemma prefix_at_overlap text p s k s' k' :
  prefix_at text p s k -> prefix_at text p s' k' ->
  s <= s' -> s' + k' = s + k -> 0 <= k' -> border p k k'.
Proof.
  intros Hp Hp' Hs He Hk'. split; [lia|]. intros t Ht.
  rewrite <- Hp' by lia. rewrite <- Hp by lia. f_equal. lia.
Qed.

Lemma prefix_at_shorter text p s k k' :
  prefix_at text p s k -> k' <= k -> prefix_at text p s k'.
Proof. intros Hp Hle t Ht. apply Hp. lia. Qed.

(** ** The table *)

Lemma lps_loop_spec p (fuel : nat) : forall lps length_ i,
  lps_inv p lps length_ i -> i <= len p ->
  2 * len p - (2 * i - length_) < Z.of_nat fuel ->
  exists lps', lps_loop fuel p lps length_ i = Done lps' /\
               len lps' = len p /\ lps_upto p lps' (len p).
Proof.
  induction fuel as [|fuel IH];
    intros lps length_ i (Hi & Hlen & Hl & Hbord & Hupto & Hmax) Him Hf; [lia|].
  cbn [lps_loop]. destruct (Z.ltb_spec i (len p)) as [Hlt|Hge].
  - specialize (Hmax Hlt).
    rewrite (index_bget p i), (index_bget p length_) by lia. cbn [obind].
    unfold byte_eqb. destruct (Ascii.eqb_spec (bget p i) (bget p length_)) as [Heq|Hne].
    + cbv zeta. rewrite store_zset by lia. cbn [obind].
      assert (Hnew : is_lps p (i + 1) (length_ + 1)).
      { split; [lia|]. split; [by apply border_succ|]. intros k Hk. apply Hmax. lia. }
      apply IH; [|lia|lia].
      split; [lia|]. split; [lia|]. split; [by rewrite len_zset|].
      split; [apply Hnew|]. split.
      * intros q Hq. destruct (decide (q = i)) as [->|Hqi].
        -- by rewrite zget_zset_eq by lia.
        -- rewrite zget_zset_ne by lia. apply Hupto. lia.
      * intros _ k Hk Hbk. destruct (decide (k = 0)) as [->|Hk0]; [lia|].
        replace k with (k - 1 + 1) in Hbk by lia.
        replace (i + 1 + 1) with ((i + 1) + 1) in Hbk by lia.
        apply border_pred in Hbk as [Hbk _]; [|lia].
        destruct Hnew as (_ & _ & Hm). specialize (Hm (k - 1) ltac:(lia) Hbk). lia.
    + destruct (Z.eqb_spec length_ 0) as [Hz|Hnz]; cbn [negb].
      * subst length_. rewrite store_zset by lia. cbn [obind].
        assert (Hnew : is_lps p (i + 1) 0).
        { split; [lia|]. split; [apply border_zero; lia|]. intros k Hk Hbk.
          destruct (decide (k = 0)) as [->|Hk0]; [lia|].
          pose proof (Hmax k ltac:(lia) Hbk) as Hk1. assert (k = 1) as -> by lia.
          apply (border_pred p i 0) in Hbk as [_ Hbk]; [congruence | lia]. }
        apply IH; [|lia|lia].
        split; [lia|]. split; [lia|]. split; [by rewrite len_zset|].
        split; [apply Hnew|]. split.
        -- intros q Hq. destruct (decide (q = i)) as [->|Hqi].
           ++ by rewrite zget_zset_eq by lia.
           ++ rewrite zget_zset_ne by lia. apply Hupto. lia.
        -- intros _ k Hk Hbk. destruct (decide (k = 0)) as [->|Hk0]; [lia|].
           replace k with (k - 1 + 1) in Hbk by lia.
           apply border_pred in Hbk as [Hbk _]; [|lia].
           destruct Hnew as (_ & _ & Hm). specialize (Hm (k - 1) ltac:(lia) Hbk). lia.
      * rewrite (index_zget lps (length_ - 1)) by lia. cbn [obind].
        pose proof (Hupto (length_ - 1) ltac:(lia)) as Hb.
        replace (length_ - 1 + 1) with length_ in Hb by lia.
        destruct Hb as (Hb0 & Hbb & Hbmax).
        apply IH; [|lia|lia].
        split; [lia|]. split; [lia|]. split; [done|].
        split; [by apply (border_trans p i length_)|]. split; [done|].
        intros _ k Hk Hbk. destruct (decide (k = 0)) as [->|Hk0]; [lia|].
        pose proof (Hmax k Hk Hbk) as Hk1.
        replace k with (k - 1 + 1) in Hbk by lia.
        apply border_pred in Hbk as [Hbk Hch]; [|lia].
        destruct (decide (k - 1 = length_)) as [Hkl|Hkl]; [rewrite Hkl in Hch; congruence|].
        specialize (Hbmax (k - 1) ltac:(lia)).
        assert (k - 1 <= zget lps (length_ - 1)); [|lia].
        apply Hbmax. apply (border_shorter p i); [done | done | lia].
  - exists lps. split; [done|]. split; [done|]. by replace (len p) with i by lia.
Qed.

Lemma computeLPSArray_spec p :
  1 <= len p ->
  exists lps, computeLPSArray p = Done lps /\ len lps = len p /\ lps_upto p lps (len p).
Proof.
  intros Hp. unfold computeLPSArray. cbv zeta. apply lps_loop_spec; [|lia|unfold len; lia].
  split; [lia|]. split; [lia|]. split; [unfold len; by rewrite length_replicate|].
  split; [apply border_zero; lia|]. split.
  - intros q Hq. assert (q = 0) as -> by lia. rewrite zget_replicate.
    split; [lia|]. split; [apply border_zero; lia|]. intros k Hk _. lia.
  - intros _ k Hk _. lia.
Qed.

(** ** The search *)

Lemma kinv_advance text p matches i j :
  kmp_inv text p matches i j -> i < len text -> bget p j = bget text i ->
  j + 1 < len p -> kmp_inv text p matches (i + 1) (j + 1).
Proof.
  intros (Hj & Hi & Hpre & Hs & Hrec & Hmiss) Hin Heq Hjm.
  split; [lia|]. split; [lia|]. split; [|split; [done|split]].
  - intros t Ht. destruct (decide (t = j)) as [->|Hne].
    + rewrite Heq. f_equal. lia.
    + rewrite <- Hpre by lia. f_equal. lia.
  - intros s Hin'. destruct (Hrec s Hin'). split; [done|lia].
  - intros s Hs'. apply Hmiss. lia.
Qed.

Lemma kinv_record text p matches i j b :
  kmp_inv text p matches i j -> i < len text -> bget p j = bget text i ->
  j + 1 = len p -> is_lps p (len p) b ->
  kmp_inv text p (matches ++ [i + 1 - len p]) (i + 1) b.
Proof.
  intros (Hj & Hi & Hpre & Hs & Hrec & Hmiss) Hin Heq Hjm (Hb & Hbb & Hbmax).
  assert (Hocc : occurs text p (i + 1 - len p)).
  { split; [lia|]. split; [lia|]. intros t Ht. destruct (decide (t = j)) as [->|Hne].
    - rewrite Heq. f_equal. lia.
    - rewrite <- Hpre by lia. f_equal. lia. }
  split; [lia|]. split; [lia|]. split; [|split; [|split]].
  - replace (i + 1 - b) with (i + 1 - len p + len p - b) by lia.
    apply prefix_at_border; [apply Hocc | done].
  - apply Sorted_lt_snoc; [done|]. apply Forall_forall. intros s Hin'.
    destruct (Hrec s Hin'). lia.
  - intros s [Hin'| ->%list_elem_of_singleton]%elem_of_app.
    + destruct (Hrec s Hin'). split; [done|lia].
    + split; [done|lia].
  - intros s Hs' Ho. apply elem_of_app.
    destruct (Z.lt_trichotomy s (i + 1 - len p)) as [Hlt|[->|Hgt]].
    + left. apply Hmiss; [lia|done].
    + right. by left.
    + exfalso. destruct Ho as (_ & _ & Hps).
      assert (Hbk : border p (len p) (i + 1 - s)).
      { apply (prefix_at_overlap text p (i + 1 - len p) (len p) s);
          [apply Hocc | by apply (prefix_at_shorter text p s (len p)); [|lia] | lia..]. }
      specialize (Hbmax (i + 1 - s) ltac:(lia) Hbk). lia.
Qed.

Lemma kinv_fallback text p matches i j b :
  kmp_inv text p matches i j -> i < len text -> bget p j <> bget text i ->
  j <> 0 -> is_lps p j b -> kmp_inv text p matches i b.
Proof.
  intros (Hj & Hi & Hpre & Hs & Hrec & Hmiss) Hin Hne Hj0 (Hb & Hbb & Hbmax).
  split; [lia|]. split; [lia|]. split; [|split; [done|split; [done|]]].
  - replace (i - b) with (i - j + j - b) by lia. by apply prefix_at_border.
  - intros s Hs' Ho.
    destruct (Z.lt_trichotomy s (i - j)) as [Hlt|[->|Hgt]].
    + apply Hmiss; [lia|done].
    + exfalso. destruct Ho as (_ & _ & Hps). apply Hne.
      rewrite <- Hps by lia. f_equal. lia.
    + exfalso. destruct Ho as (_ & _ & Hps).
      assert (Hbk : border p j (i - s)).
      { apply (prefix_at_overlap text p (i - j) j s);
          [done | by apply (prefix_at_shorter text p s (len p)); [|lia] | lia..]. }
      specialize (Hbmax (i - s) ltac:(lia) Hbk). lia.
Qed.

Lemma kinv_skip text p matches i :
  kmp_inv text p matches i 0 -> i < len text -> bget p 0 <> bget text i ->
  kmp_inv text p matches (i + 1) 0.
Proof.
  intros (Hj & Hi & Hpre & Hs & Hrec & Hmiss) Hin Hne.
  split; [lia|]. split; [lia|]. split; [|split; [done|split]].
  - intros t Ht. lia.
  - intros s Hin'. destruct (Hrec s Hin'). split; [done|lia].
  - intros s Hs' Ho. destruct (decide (s = i)) as [->|Hsi].
    + exfalso. destruct Ho as (_ & _ & Hps). apply Hne.
      rewrite <- Hps by lia. f_equal. lia.
    + apply Hmiss; [lia|done].
Qed.

Lemma kmp_loop_spec text p lps :
  len lps = len p -> lps_upto p lps (len p) ->
  forall (fuel : nat) matches i j,
    kmp_inv text p matches i j ->
    2 * len text - (2 * i - j) < Z.of_nat fuel ->
    exists l, kmp_loop fuel text p lps matches i j = Done l /\
              Sorted Z.lt l /\ forall s, s ∈ l <-> occurs text p s.
Proof.
  intros Hl Hlps. induction fuel as [|fuel IH]; intros matches i j Hinv Hf.
  { destruct Hinv as (? & ? & _). lia. }
  pose proof Hinv as (Hj & Hi & Hpre & Hs & Hrec & Hmiss).
  cbn [kmp_loop]. destruct (Z.ltb_spec i (len text)) as [Hlt|Hge].
  - rewrite (index_bget p j), (index_bget text i) by lia. cbn [obind].
    unfold byte_eqb. destruct (Ascii.eqb_spec (bget p j) (bget text i)) as [Heq|Hne].
    + cbv iota beta. destruct (Z.eqb_spec (j + 1) (len p)) as [Hfull|Hpart].
      * cbv zeta. rewrite (index_zget lps (j + 1 - 1)) by lia. cbn [obind].
        pose proof (Hlps (j + 1 - 1) ltac:(lia)) as Hb.
        replace (j + 1 - 1 + 1) with (len p) in Hb by lia.
        replace (i + 1 - (j + 1)) with (i + 1 - len p) by lia.
        apply IH; [exact (kinv_record text p matches i j _ Hinv Hlt Heq Hfull Hb)|].
        destruct Hb as (Hb & _). lia.
      * pose proof (kinv_advance text p matches i j Hinv Hlt Heq ltac:(lia)) as Hinv'.
        destruct (Z.ltb_spec (i + 1) (len text)) as [Hlt'|Hge'].
        -- rewrite (index_bget p (j + 1)), (index_bget text (i + 1)) by lia. cbn [obind].
           destruct (Ascii.eqb_spec (bget p (j + 1)) (bget text (i + 1))) as [Heq'|Hne'];
             cbn [negb].
           ++ apply IH; [done|lia].
           ++ destruct (Z.eqb_spec (j + 1) 0) as [?|_]; [lia|]. cbn [negb].
              rewrite (index_zget lps (j + 1 - 1)) by lia. cbn [obind].
              pose proof (Hlps (j + 1 - 1) ltac:(lia)) as Hb.
              replace (j + 1 - 1 + 1) with (j + 1) in Hb by lia.
              apply IH;
                [exact (kinv_fallback text p matches (i + 1) (j + 1) _ Hinv' Hlt' Hne'
                          ltac:(lia) Hb)|].
              destruct Hb as (Hb & _). lia.
        -- apply IH; [done|lia].
    + cbv iota beta. destruct (Z.eqb_spec j (len p)) as [?|_]; [lia|].
      destruct (Z.ltb_spec i (len text)) as [_|?]; [|lia].
      rewrite (index_bget p j), (index_bget text i) by lia. cbn [obind].
      destruct (Ascii.eqb_spec (bget p j) (bget text i)) as [?|_]; [done|]. cbn [negb].
      destruct (Z.eqb_spec j 0) as [->|Hj0]; cbn [negb].
      * apply IH; [by apply kinv_skip|lia].
      * rewrite (index_zget lps (j - 1)) by lia. cbn [obind].
        pose proof (Hlps (j - 1) ltac:(lia)) as Hb.
        replace (j - 1 + 1) with j in Hb by lia.
        apply IH; [exact (kinv_fallback text p matches i j _ Hinv Hlt Hne Hj0 Hb)|].
        destruct Hb as (Hb & _). lia.
  - exists matches. split; [done|]. split; [done|]. intros s. split.
    + intros Hin. by destruct (Hrec s Hin).
    + intros Ho. apply Hmiss; [|done]. destruct Ho as (? & ? & _). lia.
Qed.

(** Occurrence by position and occurrence as a sublist agree, for a
    pattern that is not empty. *)
Lemma occurs_iff text p s :
  1 <= len p -> occurs text p s <-> RabinKarp.occurs_at text p s.
Proof.
  intros Hp. unfold occurs, RabinKarp.occurs_at, prefix_at, len in *. split.
  - intros (Hs & Hfit & Hpre). split; [done|]. apply list_eq. intros t.
    destruct (decide (t < length p)%nat) as [Hlt|Hge].
    + rewrite lookup_take_lt, lookup_drop by done.
      specialize (Hpre (Z.of_nat t) ltac:(lia)). unfold bget in Hpre.
      replace (Z.to_nat (s + Z.of_nat t)) with (Z.to_nat s + t)%nat in Hpre by lia.
      rewrite Nat2Z.id in Hpre.
      destruct (lookup_lt_is_Some_2 text (Z.to_nat s + t)) as [a Ha]; [lia|].
      destruct (lookup_lt_is_Some_2 p t) as [b Hb]; [lia|].
      rewrite Ha, Hb in Hpre. rewrite Ha, Hb. cbn in Hpre. by rewrite Hpre.
    + rewrite lookup_take_ge by lia. symmetry. apply lookup_ge_None. lia.
  - intros (Hs & Ht). split; [done|].
    assert (Hfit : (Z.to_nat s + length p <= length text)%nat).
    { apply (f_equal length) in Ht. rewrite length_take, length_drop in Ht. lia. }
    split; [lia|]. intros t Htm. unfold bget.
    replace (Z.to_nat (s + t)) with (Z.to_nat s + Z.to_nat t)%nat by lia.
    rewrite <- Ht at 1. rewrite lookup_take_lt, lookup_drop by lia. done.
Qed.

End KMPFacts.

Lemma sorted_lt_NoDup (l : list Z) : Sorted Z.lt l -> NoDup l.
Proof.
  intros H%(Sorted_StronglySorted Z.lt). induction H as [|x l Hl IH Hx].
  - apply NoDup_nil_2.
  - apply NoDup_cons. split; [|done]. intros Hin.
    rewrite Forall_forall in Hx. specialize (Hx x Hin). lia.
Qed.

(** Two strictly increasing lists with the same members are equal. *)
Lemma sorted_lt_same_members (l1 l2 : list Z) :
  Sorted Z.lt l1 -> Sorted Z.lt l2 -> (forall i, i ∈ l1 <-> i ∈ l2) -> l1 = l2.
Proof.
  intros H1 H2 Hm. apply (Sorted_unique_strong Z.lt); [|done|done|].
  - intros x y _ _ ? ?. lia.
  - apply NoDup_Permutation; [by apply sorted_lt_NoDup..|done].
Qed.

(** Helper behind the statement below. *)
Lemma KMPSearch_spec (text pattern : string) :
  pattern <> EmptyString ->
  exists l, KMP.KMPSearch text pattern = Done l /\
    Sorted Z.lt l /\
    forall i, i ∈ l <-> RabinKarp.occurs_at (KMP.bytes text) (KMP.bytes pattern) i.
Proof.
  intros Hne. unfold KMP.KMPSearch.
  set (t := KMP.bytes text). set (p := KMP.bytes pattern).
  assert (1 <= len p) as Hp.
  { subst p. unfold KMP.bytes, len. destruct pattern; [done|].
    cbn [String.list_ascii_of_string length]. lia. }
  destruct (computeLPSArray_spec p Hp) as (lps & -> & Hl & Hlps). cbn [obind].
  destruct (kmp_loop_spec t p lps Hl Hlps (S (2 * length t)) [] 0 0) as (l & E & Hs & Hall).
  - split; [lia|]. split; [pose proof (len_nonneg t); lia|]. split; [intros k Hk; lia|].
    split; [constructor|]. split.
    + by intros s ?%elem_of_nil.
    + intros s Hs. lia.
  - unfold len. lia.
  - exists l. split; [done|]. split; [done|]. intros i. rewrite Hall. by apply occurs_iff.
Qed.

(** X26: for a non-empty pattern, [KMPSearch] does not panic and returns,
    in increasing order, exactly the byte offsets at which the pattern
    occurs in the text; [RabinKarp] returns the same list. *)
Theorem KMPSearch_finds_all_occurrences (text pattern : string) :
  pattern <> EmptyString ->
  exists l, KMP.KMPSearch text pattern = Done l /\
    RabinKarp.RabinKarp text pattern = Done l /\
    Sorted Z.lt l /\
    forall i, i ∈ l <-> RabinKarp.occurs_at (KMP.bytes text) (KMP.bytes pattern) i.
Proof.
  intros Hne.
  destruct (KMPSearch_spec text pattern Hne) as (l & E & Hs & Hall).
  destruct (RabinKarp_spec text pattern Hne) as (l' & E' & Hs' & Hall').
  exists l. split; [done|]. split; [|done].
  rewrite E'. f_equal. apply sorted_lt_same_members; [done..|].
  intros i. by rewrite Hall, Hall'.
Qed.

Lemma KMPSearch_finds_all_occurrences_witness :
  exists l, KMP.KMPSearch "ABABABA" "ABA" = Done l /\
    RabinKarp.RabinKarp "ABABABA" "ABA" = Done l /\
    Sorted Z.lt l /\
    forall i, i ∈ l <-> RabinKarp.occurs_at (KMP.bytes "ABABABA") (KMP.bytes "ABA") i.
Proof. apply (KMPSearch_finds_all_occurrences "ABABABA" "ABA"). discriminate. Defined.


(** * Two-dimensional tables *)

Section TableFacts.
Import DP.
Implicit Types (dp : list (list Z)).

Lemma index_row dp i : 0 <= i < len dp -> index dp i = Done (row dp i).
Proof.
  intros Hi. destruct (index_in_range dp i Hi) as (v & -> & Hv).
  unfold row. by rewrite Hv.
Qed.

Lemma index2_tget dp rows cols i j :
  shaped dp rows cols -> 0 <= i < rows -> 0 <= j < cols ->
  index2 dp i j = Done (tget dp i j).
Proof.
  intros [Hr Hc] Hi Hj. unfold index2. rewrite index_row by lia. cbn [obind].
  apply index_zget. rewrite Hc by lia. lia.
Qed.

Lemma store2_tset dp rows cols i j v :
  shaped dp rows cols -> 0 <= i < rows -> 0 <= j < cols ->
  store2 dp i j v = Done (tset dp i j v).
Proof.
  intros [Hr Hc] Hi Hj. unfold store2. rewrite index_row by lia. cbn [obind].
  rewrite store_zset by (rewrite Hc by lia; lia). cbn [obind].
  unfold tset. apply store_in_range. lia.
Qed.

Lemma row_tset dp i j v i' :
  0 <= i < len dp -> 0 <= i' ->
  row (tset dp i j v) i' = if decide (i' = i) then zset (row dp i) j v else row dp i'.
Proof.
  intros Hi Hi'. unfold row at 1, tset. destruct (decide (i' = i)) as [->|Hne].
  - rewrite list_lookup_insert_eq by (unfold len in *; lia). done.
  - rewrite list_lookup_insert_ne by lia. done.
Qed.

Lemma shaped_tset dp rows cols i j v :
  shaped dp rows cols -> 0 <= i < rows -> shaped (tset dp i j v) rows cols.
Proof.
  intros [Hr Hc] Hi. split.
  - unfold tset, len in *. by rewrite length_insert.
  - intros i' Hi'. rewrite row_tset by lia.
    destruct (decide (i' = i)); [rewrite len_zset|]; apply Hc; lia.
Qed.

Lemma tget_tset_eq dp rows cols i j v :
  shaped dp rows cols -> 0 <= i < rows -> 0 <= j < cols ->
  tget (tset dp i j v) i j = v.
Proof.
  intros [Hr Hc] Hi Hj. unfold tget. rewrite row_tset by lia.
  destruct (decide (i = i)); [|done]. apply zget_zset_eq. rewrite Hc by lia. lia.
Qed.

Lemma tget_tset_ne dp rows cols i j v i' j' :
  shaped dp rows cols -> 0 <= i < rows -> 0 <= j -> 0 <= i' -> 0 <= j' ->
  i' <> i \/ j' <> j ->
  tget (tset dp i j v) i' j' = tget dp i' j'.
Proof.
  intros [Hr Hc] Hi Hj Hi' Hj' Hne. unfold tget. rewrite row_tset by lia.
  destruct (decide (i' = i)) as [->|]; [|done]. apply zget_zset_ne; lia.
Qed.

Lemma fill_rows_spec cols : 0 <= cols -> forall (k : nat) dp i,
  0 <= i -> i + Z.of_nat k = len dp ->
  exists dp', fill_rows k dp i cols = Done dp' /\ len dp' = len dp /\
    (forall i', i <= i' < len dp -> row dp' i' = replicate (Z.to_nat cols) 0) /\
    (forall i', 0 <= i' < i -> row dp' i' = row dp i').
Proof.
  intros Hcols. induction k as [|k IH]; intros dp i Hi Hk; cbn [fill_rows].
  - exists dp. split; [done|]. split; [done|]. split; [intros; lia | done].
  - unfold make_ints. destruct (Z.ltb_spec cols 0); [lia|]. cbn [obind].
    rewrite store_in_range by lia. cbn [obind].
    set (dp1 := <[Z.to_nat i := replicate (Z.to_nat cols) 0]> dp).
    assert (Hl1 : len dp1 = len dp) by (unfold dp1, len; by rewrite length_insert).
    destruct (IH dp1 (i + 1)) as (dp' & E & Hl & Hnew & Hold); [lia | lia |].
    exists dp'. split; [done|]. split; [lia|]. split.
    + intros i' Hi'. destruct (decide (i' = i)) as [->|Hne]; [|apply Hnew; lia].
      rewrite Hold by lia. unfold row, dp1.
      rewrite list_lookup_insert_eq by (unfold len in *; lia). done.
    + intros i' Hi'. rewrite Hold by lia. unfold row, dp1.
      rewrite list_lookup_insert_ne by lia. done.
Qed.

(** The table that the two [make] loops build: all zero. *)
Lemma make_table rows cols :
  0 <= rows -> 0 <= cols ->
  exists dp,
    (do dp <- make_slices rows; fill_rows (length dp) dp 0 cols) = Done dp /\
    shaped dp rows cols /\ forall i j, 0 <= i < rows -> tget dp i j = 0.
Proof.
  intros Hr Hc. unfold make_slices. destruct (Z.ltb_spec rows 0); [lia|]. cbn [obind].
  set (dp0 := replicate (Z.to_nat rows) (@nil Z)).
  assert (Hl0 : len dp0 = rows) by (unfold len, dp0; rewrite length_replicate; lia).
  destruct (fill_rows_spec cols Hc (length dp0) dp0 0) as (dp & E & Hl & Hnew & _);
    [lia | unfold len in *; lia |].
  exists dp. split; [done|]. split; [split|].
  - lia.
  - intros i Hi. rewrite Hnew by lia. unfold len. rewrite length_replicate. lia.
  - intros i j Hi. unfold tget. rewrite Hnew by lia. apply zget_replicate.
Qed.

End TableFacts.

(** * Longest common subsequence *)

Section LCSFacts.
Import DP.
Implicit Types (a b s : list ascii) (dp : list (list Z)).

Lemma max_spec x y : max x y = Z.max x y.
Proof. unfold max. destruct (Z.gtb_spec x y); lia. Qed.

(** A subsequence of [a ++ [x]] is one of [a], or one of [a] followed
    by [x]. *)
Lemma sublist_snoc_inv s a x :
  sublist s (a ++ [x]) -> sublist s a \/ exists s', s = s' ++ [x] /\ sublist s' a.
Proof.
  intros (k1 & k2 & -> & H1 & H2)%sublist_app_r.
  apply sublist_cons_r in H2 as [H2%sublist_nil_r|(l' & -> & ->%sublist_nil_r)].
  - subst k2. left. by rewrite app_nil_r.
  - right. by exists k1.
Qed.

Lemma sublist_drop_last s a z : sublist (s ++ [z]) a -> sublist s a.
Proof.
  intros H. transitivity (s ++ [z]); [|done]. apply sublist_inserts_r. done.
Qed.

Lemma is_lcs_nil_l b : is_lcs [] b 0.
Proof.
  split.
  - exists []. split; [constructor|]. split; [apply sublist_nil_l | done].
  - intros s ->%sublist_nil_r _. done.
Qed.

Lemma is_lcs_nil_r a : is_lcs a [] 0.
Proof.
  split.
  - exists []. split; [apply sublist_nil_l|]. split; [constructor | done].
  - intros s _ ->%sublist_nil_r. done.
Qed.

Lemma is_lcs_bounds a b d : is_lcs a b d -> 0 <= d <= len a.
Proof.
  intros [(s & Ha & _ & <-) _]. apply sublist_length in Ha. unfold len. lia.
Qed.

Lemma is_lcs_match a b x d :
  is_lcs a b d -> is_lcs (a ++ [x]) (b ++ [x]) (d + 1).
Proof.
  intros [(s & Ha & Hb & Hs) Hmax]. split.
  - exists (s ++ [x]). split; [by apply sublist_app|]. split; [by apply sublist_app|].
    rewrite len_app. unfold len in *. cbn [length]. lia.
  - intros s' Ha' Hb'. destruct s' as [|z s' _] using rev_ind.
    { destruct (is_lcs_bounds a b d); [by split; [exists s|]|]. unfold len. cbn. lia. }
    assert (Hsa : sublist s' a).
    { apply sublist_snoc_inv in Ha' as [H|(s0 & E & H)].
      - by apply sublist_drop_last in H.
      - by apply app_inj_tail in E as [-> _]. }
    assert (Hsb : sublist s' b).
    { apply sublist_snoc_inv in Hb' as [H'|(s0 & E & H')].
      - by apply sublist_drop_last in H'.
      - by apply app_inj_tail in E as [-> _]. }
    specialize (Hmax s' Hsa Hsb). rewrite len_app. unfold len in *. cbn [length]. lia.
Qed.

Lemma is_lcs_mismatch a b x y d1 d2 :
  x <> y -> is_lcs a (b ++ [y]) d1 -> is_lcs (a ++ [x]) b d2 ->
  is_lcs (a ++ [x]) (b ++ [y]) (max d1 d2).
Proof.
  intros Hne [(s1 & Ha1 & Hb1 & Hs1) Hmax1] [(s2 & Ha2 & Hb2 & Hs2) Hmax2].
  rewrite max_spec. split.
  - destruct (Z.max_spec d1 d2) as [[_ ->]|[_ ->]].
    + exists s2. split; [done|]. split; [by apply sublist_inserts_r | done].
    + exists s1. split; [by apply sublist_inserts_r|]. done.
  - intros s Ha Hb.
    apply sublist_snoc_inv in Ha as [Ha|(sa & Ea & Ha)].
    { specialize (Hmax1 s Ha Hb). lia. }
    apply sublist_snoc_inv in Hb as [Hb|(sb & Eb & Hb)].
    { assert (Hsx : sublist s (a ++ [x])) by (rewrite Ea; by apply sublist_app).
      specialize (Hmax2 s Hsx Hb). lia. }
    rewrite Ea in Eb. by apply app_inj_tail in Eb as [_ ?].
Qed.

Lemma take_snoc_bget a i :
  1 <= i <= len a ->
  take (Z.to_nat i) a = take (Z.to_nat (i - 1)) a ++ [bget a (i - 1)].
Proof.
  intros Hi. unfold bget.
  destruct (lookup_lt_is_Some_2 a (Z.to_nat (i - 1))) as [x Hx]; [unfold len in *; lia|].
  rewrite Hx. cbn [default from_option id].
  replace (Z.to_nat i) with (S (Z.to_nat (i - 1))) by lia. by apply take_S_r.
Qed.

Lemma lcs_inner_spec a b i (fuel : nat) : forall dp j,
  1 <= i <= len a -> len a < 2 ^ 62 -> 1 <= j <= len b + 1 ->
  len b + 1 - j < Z.of_nat fuel ->
  lcs_inv a b dp i j ->
  exists dp', lcs_inner fuel a b dp i j = Done dp' /\ lcs_inv a b dp' (i + 1) 1.
Proof.
  induction fuel as [|fuel IH]; intros dp j Hi Hsmall Hj Hf [Hsh Hcells]; [lia|].
  cbn [lcs_inner]. destruct (Z.leb_spec j (len b)) as [Hle|Hgt].
  - rewrite (index_bget a (i - 1)), (index_bget b (j - 1)) by lia. cbn [obind].
    assert (Hstep : forall v,
              is_lcs (take (Z.to_nat i) a) (take (Z.to_nat j) b) v ->
              lcs_inv a b (tset dp i j v) i (j + 1)).
    { intros v Hv. split; [apply (shaped_tset _ _ _ _ _ _ Hsh); lia|].
      intros i' j' Hi' Hj' Hwhich.
      destruct (decide (i' = i /\ j' = j)) as [[-> ->]|Hne].
      - by rewrite (tget_tset_eq _ _ _ _ _ _ Hsh) by lia.
      - rewrite (tget_tset_ne _ _ _ _ _ _ _ _ Hsh) by lia. apply Hcells; lia. }
    unfold KMP.byte_eqb.
    destruct (Ascii.eqb_spec (bget a (i - 1)) (bget b (j - 1))) as [Heq|Hne].
    + rewrite (index2_tget _ _ _ _ _ Hsh) by lia. cbn [obind].
      pose proof (Hcells (i - 1) (j - 1) ltac:(lia) ltac:(lia) ltac:(lia)) as Hd.
      pose proof (is_lcs_bounds _ _ _ Hd) as Hb.
      assert (len (take (Z.to_nat (i - 1)) a) <= len a)
        by (unfold len; rewrite length_take; lia).
      unfold Int64.add. rewrite wrap_small by lia.
      rewrite (store2_tset _ _ _ _ _ _ Hsh) by lia. cbn [obind].
      apply IH; [lia..|]. apply Hstep.
      rewrite (take_snoc_bget a i), (take_snoc_bget b j) by lia.
      rewrite Heq. by apply is_lcs_match.
    + rewrite (index2_tget _ _ _ _ _ Hsh) by lia. cbn [obind].
      rewrite (index2_tget _ _ _ _ _ Hsh) by lia. cbn [obind].
      rewrite (store2_tset _ _ _ _ _ _ Hsh) by lia. cbn [obind].
      apply IH; [lia..|]. apply Hstep.
      pose proof (Hcells (i - 1) j ltac:(lia) ltac:(lia) ltac:(lia)) as Hx.
      pose proof (Hcells i (j - 1) ltac:(lia) ltac:(lia) ltac:(lia)) as Hy.
      rewrite (take_snoc_bget b j) in Hx |- * by lia.
      rewrite (take_snoc_bget a i) in Hy |- * by lia.
      by apply is_lcs_mismatch.
  - exists dp. split; [done|]. split; [done|]. intros i' j' Hi' Hj' Hwhich.
    apply Hcells; lia.
Qed.

Lemma lcs_outer_spec a b (fuel : nat) : forall dp i,
  1 <= i <= len a + 1 -> len a < 2 ^ 62 -> len a + 1 - i < Z.of_nat fuel ->
  lcs_inv a b dp i 1 ->
  exists dp', lcs_outer fuel a b dp i = Done dp' /\ lcs_inv a b dp' (len a + 1) 1.
Proof.
  induction fuel as [|fuel IH]; intros dp i Hi Hsmall Hf Hinv; [lia|].
  cbn [lcs_outer]. destruct (Z.leb_spec i (len a)) as [Hle|Hgt].
  - destruct (lcs_inner_spec a b i (S (length b)) dp 1) as (dp1 & -> & Hinv1);
      [lia | done | pose proof (len_nonneg b); lia | unfold len; lia | done |].
    cbn [obind]. apply IH; [lia | done | lia | done].
  - exists dp. split; [done|]. by replace (len a + 1) with i by lia.
Qed.

End LCSFacts.

(** X27: for texts of fewer than [2^31] bytes each,
    [LongestCommonSubsequence] does not panic and returns the length of a
    longest common subsequence of the two byte strings: some sequence of
    that length is a subsequence of both, and no common subsequence is
    longer. *)
Theorem LongestCommonSubsequence_is_longest (text1 text2 : string) :
  len (KMP.bytes text1) < 2 ^ 31 -> len (KMP.bytes text2) < 2 ^ 31 ->
  exists r, DP.LongestCommonSubsequence text1 text2 = Done r /\
    (exists s, sublist s (KMP.bytes text1) /\ sublist s (KMP.bytes text2) /\ len s = r) /\
    (forall s, sublist s (KMP.bytes text1) -> sublist s (KMP.bytes text2) -> len s <= r).
Proof.
  intros H1 H2. unfold DP.LongestCommonSubsequence. cbv zeta.
  set (a := KMP.bytes text1) in *. set (b := KMP.bytes text2) in *.
  pose proof (len_nonneg a). pose proof (len_nonneg b).
  destruct (make_table (len a + 1) (len b + 1)) as (dp0 & E0 & Hsh0 & Hz0); [lia..|].
  unfold DP.make_slices in *.
  destruct (Z.ltb_spec (len a + 1) 0); [lia|]. cbn [obind] in *. rewrite E0. cbn [obind].
  destruct (lcs_outer_spec a b (S (length a)) dp0 1) as (dp & -> & Hsh & Hcells);
    [lia | lia | unfold len; lia | |].
  { split; [done|]. intros i' j' Hi' Hj' Hwhich. rewrite Hz0 by lia.
    destruct (decide (i' = 0)) as [->|]; [apply is_lcs_nil_l|].
    assert (j' = 0) as -> by lia. apply is_lcs_nil_r. }
  cbn [obind]. rewrite (index2_tget _ _ _ _ _ Hsh) by lia.
  eexists. split; [done|].
  pose proof (Hcells (len a) (len b) ltac:(lia) ltac:(lia) ltac:(lia)) as Hr.
  replace (take (Z.to_nat (len a)) a) with a in Hr
    by (unfold len; by rewrite Nat2Z.id, firstn_all).
  replace (take (Z.to_nat (len b)) b) with b in Hr
    by (unfold len; by rewrite Nat2Z.id, firstn_all).
  exact Hr.
Qed.

Lemma LongestCommonSubsequence_is_longest_witness :
  exists r, DP.LongestCommonSubsequence "abcde" "ace" = Done r /\
    (exists s, sublist s (KMP.bytes "abcde") /\ sublist s (KMP.bytes "ace") /\ len s = r) /\
    (forall s, sublist s (KMP.bytes "abcde") -> sublist s (KMP.bytes "ace") -> len s <= r).
Proof.
  apply (LongestCommonSubsequence_is_longest "abcde" "ace"); reflexivity.
Defined.


(** * 0/1 knapsack *)

Section KnapsackFacts.
Import DP.
Implicit Types (sel : list bool) (xs values weights : list Z) (dp : list (list Z)).

Lemma total_snoc sel xs b x :
  length sel = length xs ->
  total (sel ++ [b]) (xs ++ [x]) = total sel xs + (if b then x else 0).
Proof.
  revert xs. induction sel as [|c sel IH]; intros [|y xs] Hl; try done; cbn in *.
  - lia.
  - rewrite IH by lia. lia.
Qed.

Lemma total_nonneg sel xs : Forall (fun x => 0 <= x) xs -> 0 <= total sel xs.
Proof.
  intros Hxs. revert sel. induction Hxs as [|x xs Hx Hxs IH]; intros [|b sel]; cbn; try lia.
  specialize (IH sel). destruct b; lia.
Qed.

Lemma total_bound B sel xs :
  0 <= B -> Forall (fun x => - B <= x <= B) xs ->
  - (len xs * B) <= total sel xs <= len xs * B.
Proof.
  intros HB Hxs. revert sel. unfold len.
  induction Hxs as [|x xs Hx Hxs IH]; intros [|b sel]; cbn [total length]; try nia.
  specialize (IH sel). destruct b; nia.
Qed.

Lemma sel_snoc_inv sel (n : nat) :
  length sel = S n -> exists sel0 b, sel = sel0 ++ [b] /\ length sel0 = n.
Proof.
  destruct sel as [|b sel0 _] using rev_ind; [done|].
  rewrite length_app. cbn. intros H. exists sel0, b. split; [done|lia].
Qed.

Lemma best_value_nil w : 0 <= w -> best_value [] [] w 0.
Proof.
  intros Hw. split.
  - exists []. cbn. repeat split; [lia..].
  - intros sel Hl _. destruct sel; [cbn; lia | done].
Qed.

Lemma best_value_skip values weights v wt w d :
  length values = length weights -> Forall (fun x => 0 <= x) weights -> w < wt ->
  best_value values weights w d ->
  best_value (values ++ [v]) (weights ++ [wt]) w d.
Proof.
  intros Hl Hpos Hbig [(sel & Hsl & Hsw & Hsv) Hmax]. split.
  - exists (sel ++ [false]). rewrite !length_app. cbn [length].
    rewrite !total_snoc by lia. split; [lia|]. split; lia.
  - intros sel' Hl'. rewrite length_app in Hl'. cbn [length] in Hl'.
    destruct (sel_snoc_inv sel' (length values)) as (sel0 & b & -> & Hl0); [lia|].
    rewrite !total_snoc by lia. pose proof (total_nonneg sel0 weights Hpos).
    destruct b; [lia|]. intros Hw. specialize (Hmax sel0 Hl0). lia.
Qed.

Lemma best_value_choose values weights v wt w d1 d2 :
  length values = length weights ->
  best_value values weights (w - wt) d1 -> best_value values weights w d2 ->
  best_value (values ++ [v]) (weights ++ [wt]) w (max (v + d1) d2).
Proof.
  intros Hl [(s1 & Hs1l & Hs1w & Hs1v) Hmax1] [(s2 & Hs2l & Hs2w & Hs2v) Hmax2].
  rewrite max_spec. split.
  - destruct (Z.max_spec (v + d1) d2) as [[_ ->]|[_ ->]].
    + exists (s2 ++ [false]). rewrite !length_app. cbn [length].
      rewrite !total_snoc by lia. split; [lia|]. split; lia.
    + exists (s1 ++ [true]). rewrite !length_app. cbn [length].
      rewrite !total_snoc by lia. split; [lia|]. split; lia.
  - intros sel' Hl'. rewrite length_app in Hl'. cbn [length] in Hl'.
    destruct (sel_snoc_inv sel' (length values)) as (sel0 & b & -> & Hl0); [lia|].
    rewrite !total_snoc by lia. intros Hw. destruct b.
    + specialize (Hmax1 sel0 Hl0 ltac:(lia)). lia.
    + specialize (Hmax2 sel0 Hl0 ltac:(lia)). lia.
Qed.

Lemma take_snoc_zget xs i :
  1 <= i <= len xs ->
  take (Z.to_nat i) xs = take (Z.to_nat (i - 1)) xs ++ [zget xs (i - 1)].
Proof.
  intros Hi. unfold zget.
  destruct (lookup_lt_is_Some_2 xs (Z.to_nat (i - 1))) as [x Hx]; [unfold len in *; lia|].
  rewrite Hx. cbn [default from_option id].
  replace (Z.to_nat i) with (S (Z.to_nat (i - 1))) by lia. by apply take_S_r.
Qed.

Lemma zget_Forall (P : Z -> Prop) xs k :
  Forall P xs -> 0 <= k < len xs -> P (zget xs k).
Proof.
  intros HP Hk. unfold zget.
  destruct (lookup_lt_is_Some_2 xs (Z.to_nat k)) as [x Hx]; [unfold len in *; lia|].
  rewrite Hx. cbn. by apply (Forall_lookup_1 P xs (Z.to_nat k)).
Qed.

(** The values a cell can hold stay far from the 64-bit limits. *)
Lemma best_value_bound values weights w d :
  Forall (fun x => - 2 ^ 31 <= x <= 2 ^ 31) values -> len values < 2 ^ 31 ->
  best_value values weights w d -> - 2 ^ 62 <= d <= 2 ^ 62.
Proof.
  intros Hv Hn [(sel & _ & _ & <-) _].
  pose proof (total_bound (2 ^ 31) sel values ltac:(lia) Hv).
  pose proof (len_nonneg values). nia.
Qed.

End KnapsackFacts.

Section KnapsackLoops.
Import DP.
Implicit Types (sel : list bool) (xs : list Z) (dp : list (list Z)).
Variables (values weights : list Z) (capacity : Z).
Hypothesis Hlen : len weights = len values.
Hypothesis Hw : Forall (fun x => 0 <= x) weights.
Hypothesis Hv : Forall (fun x => - 2 ^ 31 <= x <= 2 ^ 31) values.
Hypothesis Hn : len values < 2 ^ 31.
Hypothesis Hc : 0 <= capacity < 2 ^ 31.

Lemma knapsack_cell_bound dp i w i' w' :
  knapsack_inv values weights capacity dp i w ->
  0 <= i' <= len values -> 0 <= w' <= capacity -> i' < i \/ (i' = i /\ w' < w) ->
  - 2 ^ 62 <= tget dp i' w' <= 2 ^ 62.
Proof using Hv Hn.
  intros [_ Hcells] Hi' Hw' Hwhich.
  apply (best_value_bound (take (Z.to_nat i') values) (take (Z.to_nat i') weights) w').
  - by apply Forall_take.
  - unfold len in *. rewrite length_take. lia.
  - by apply Hcells.
Qed.

Lemma knapsack_inner_spec i (fuel : nat) : forall dp w,
  1 <= i <= len values -> 0 <= w <= capacity + 1 ->
  capacity + 1 - w < Z.of_nat fuel ->
  knapsack_inv values weights capacity dp i w ->
  exists dp', knapsack_inner fuel values weights dp capacity i w = Done dp' /\
              knapsack_inv values weights capacity dp' (i + 1) 0.
Proof using Hlen Hw Hv Hn Hc.
  induction fuel as [|fuel IH]; intros dp w Hi Hww Hf Hinv; [lia|].
  pose proof Hinv as [Hsh Hcells].
  cbn [knapsack_inner]. destruct (Z.leb_spec w capacity) as [Hle|Hgt].
  - rewrite (index_zget weights (i - 1)) by lia. cbn [obind].
    assert (Hstep : forall d,
              best_value (take (Z.to_nat i) values) (take (Z.to_nat i) weights) w d ->
              knapsack_inv values weights capacity (tset dp i w d) i (w + 1)).
    { intros d Hd. split; [apply (shaped_tset _ _ _ _ _ _ Hsh); lia|].
      intros i' w' Hi' Hw' Hwhich.
      destruct (decide (i' = i /\ w' = w)) as [[-> ->]|Hne].
      - by rewrite (tget_tset_eq _ _ _ _ _ _ Hsh) by lia.
      - rewrite (tget_tset_ne _ _ _ _ _ _ _ _ Hsh) by lia. apply Hcells; lia. }
    assert (Hlt : length (take (Z.to_nat (i - 1)) values)
                  = length (take (Z.to_nat (i - 1)) weights))
      by (unfold len in *; rewrite !length_take; lia).
    pose proof (zget_Forall _ weights (i - 1) Hw ltac:(lia)) as Hwt. cbn beta in Hwt.
    pose proof (zget_Forall _ values (i - 1) Hv ltac:(lia)) as Hvi. cbn beta in Hvi.
    destruct (Z.leb_spec (zget weights (i - 1)) w) as [Hfit|Hbig].
    + rewrite (index_zget values (i - 1)) by lia.
      cbn [obind]. unfold Int64.sub. rewrite wrap_small by lia.
      rewrite !(index2_tget _ _ _ _ _ Hsh) by lia. cbn [obind].
      pose proof (knapsack_cell_bound dp i w (i - 1) (w - zget weights (i - 1)) Hinv
                    ltac:(lia) ltac:(lia) ltac:(lia)) as Hb1.
      unfold Int64.add. rewrite !wrap_small by lia.
      rewrite (store2_tset _ _ _ _ _ _ Hsh) by lia. cbn [obind].
      apply IH; [lia..|]. apply Hstep.
      rewrite (take_snoc_zget values i), (take_snoc_zget weights i) by lia.
      apply best_value_choose; [done | apply Hcells; lia..].
    + rewrite (index2_tget _ _ _ _ _ Hsh) by lia. cbn [obind].
      rewrite (store2_tset _ _ _ _ _ _ Hsh) by lia. cbn [obind].
      unfold Int64.add. rewrite wrap_small by lia.
      apply IH; [lia..|]. apply Hstep.
      rewrite (take_snoc_zget values i), (take_snoc_zget weights i) by lia.
      apply best_value_skip; [done | by apply Forall_take | lia | apply Hcells; lia].
  - exists dp. split; [done|]. split; [done|]. intros i' w' Hi' Hw' Hwhich.
    apply Hcells; lia.
Qed.

Lemma knapsack_outer_spec (fuel : nat) : forall dp i,
  1 <= i <= len values + 1 -> len values + 1 - i < Z.of_nat fuel ->
  knapsack_inv values weights capacity dp i 0 ->
  exists dp', knapsack_outer fuel values weights dp capacity i = Done dp' /\
              knapsack_inv values weights capacity dp' (len values + 1) 0.
Proof using Hlen Hw Hv Hn Hc.
  induction fuel as [|fuel IH]; intros dp i Hi Hf Hinv; [lia|].
  cbn [knapsack_outer]. destruct (Z.leb_spec i (len values)) as [Hle|Hgt].
  - destruct (knapsack_inner_spec i (S (Z.to_nat (capacity + 1))) dp 0)
      as (dp1 & -> & Hinv1); [lia | lia | lia | done |].
    cbn [obind]. apply IH; [lia | lia | done].
  - exists dp. split; [done|]. by replace (len values + 1) with i by lia.
Qed.

End KnapsackLoops.

(** X28: with as many weights as values, weights of at least 0, values
    between [-2^31] and [2^31], fewer than [2^31] items and a capacity from
    0 to below [2^31], [KnapsackProblem] does not panic and returns the
    largest total value of a selection of the items whose total weight is at
    most the capacity. *)
Theorem KnapsackProblem_is_best (values weights : list Z) (capacity : Z) :
  len weights = len values ->
  Forall (fun x => 0 <= x) weights ->
  Forall (fun x => - 2 ^ 31 <= x <= 2 ^ 31) values ->
  len values < 2 ^ 31 -> 0 <= capacity < 2 ^ 31 ->
  exists r, DP.KnapsackProblem values weights capacity = Done r /\
    (exists sel, length sel = length values /\
                 DP.total sel weights <= capacity /\ DP.total sel values = r) /\
    (forall sel, length sel = length values -> DP.total sel weights <= capacity ->
                 DP.total sel values <= r).
Proof.
  intros Hlen Hw Hv Hn Hc. unfold DP.KnapsackProblem. cbv zeta.
  pose proof (len_nonneg values).
  unfold Int64.add. rewrite wrap_small by lia.
  destruct (make_table (len values + 1) (capacity + 1)) as (dp0 & E0 & Hsh0 & Hz0); [lia..|].
  unfold DP.make_slices in *.
  destruct (Z.ltb_spec (len values + 1) 0); [lia|]. cbn [obind] in *. rewrite E0. cbn [obind].
  destruct (knapsack_outer_spec values weights capacity Hlen Hw Hv Hn Hc
              (S (length values)) dp0 1) as (dp & -> & Hsh & Hcells);
    [lia | unfold len; lia | |].
  { split; [done|]. intros i' w' Hi' Hw' Hwhich. rewrite Hz0 by lia.
    assert (i' = 0) as -> by lia. change (Z.to_nat 0) with 0%nat.
    rewrite !take_0. apply best_value_nil. lia. }
  cbn [obind]. rewrite (index2_tget _ _ _ _ _ Hsh) by lia.
  eexists. split; [done|].
  pose proof (Hcells (len values) capacity ltac:(lia) ltac:(lia) ltac:(lia)) as Hr.
  replace (take (Z.to_nat (len values)) values) with values in Hr
    by (unfold len; by rewrite Nat2Z.id, firstn_all).
  replace (take (Z.to_nat (len values)) weights) with weights in Hr
    by (rewrite <- Hlen; unfold len; by rewrite Nat2Z.id, firstn_all).
  exact Hr.
Qed.

Lemma KnapsackProblem_is_best_witness :
  exists r, DP.KnapsackProblem [60; 100; 120] [10; 20; 30] 50 = Done r /\
    (exists sel, length sel = length [60; 100; 120] /\
                 DP.total sel [10; 20; 30] <= 50 /\ DP.total sel [60; 100; 120] = r) /\
    (forall sel, length sel = length [60; 100; 120] -> DP.total sel [10; 20; 30] <= 50 ->
                 DP.total sel [60; 100; 120] <= r).
Proof.
  apply (KnapsackProblem_is_best [60; 100; 120] [10; 20; 30] 50).
  - reflexivity.
  - repeat (constructor; [lia|]). constructor.
  - repeat (constructor; [lia|]). constructor.
  - reflexivity.
  - lia.
Defined.


(** * Levenshtein distance *)

Section LevenshteinFacts.
Import DP Levenshtein.
Implicit Types (a b : list ascii) (dp : list (list Z)).

Lemma len_cons {A : Type} (x : A) (l : list A) : len (x :: l) = len l + 1.
Proof. unfold len. cbn [length]. lia. Qed.

Lemma min_spec3 x y z : Levenshtein.min x y z = Z.min x (Z.min y z).
Proof.
  unfold Levenshtein.min.
  destruct (Z.ltb_spec x y), (Z.ltb_spec x z), (Z.ltb_spec y z); lia.
Qed.

(** ** Edit scripts *)

Lemma edits_nonneg a b n : edits a b n -> 0 <= n.
Proof. induction 1; lia. Qed.

Lemma edits_length a b n : edits a b n -> len a - len b <= n /\ len b - len a <= n.
Proof. induction 1; rewrite ?len_cons; unfold len in *; cbn [length] in *; lia. Qed.

Lemma edits_sym a b n : edits a b n -> edits b a n.
Proof. induction 1; by constructor. Qed.

Lemma edits_delete_all a : edits a [] (len a).
Proof.
  induction a as [|x a IH]; [constructor|]. rewrite len_cons. by constructor.
Qed.

Lemma edits_any a b : edits a b (len a + len b).
Proof.
  induction a as [|x a IH].
  - change (len [] + len b) with (len b). apply edits_sym, edits_delete_all.
  - rewrite len_cons. replace (len a + 1 + len b) with (len a + len b + 1) by lia.
    by constructor.
Qed.

Lemma edits_keep_snoc a b n x : edits a b n -> edits (a ++ [x]) (b ++ [x]) n.
Proof. induction 1; cbn [app]; by repeat constructor. Qed.

Lemma edits_replace_snoc a b n x y :
  edits a b n -> edits (a ++ [x]) (b ++ [y]) (n + 1).
Proof. induction 1; cbn [app]; by repeat constructor. Qed.

Lemma edits_delete_snoc a b n x : edits a b n -> edits (a ++ [x]) b (n + 1).
Proof. induction 1; cbn [app]; by repeat constructor. Qed.

Lemma edits_insert_snoc a b n y : edits a b n -> edits a (b ++ [y]) (n + 1).
Proof. intros H. by apply edits_sym, edits_delete_snoc, edits_sym. Qed.

Lemma edits_rev a b n : edits a b n -> edits (rev a) (rev b) n.
Proof.
  induction 1; cbn [rev].
  - constructor.
  - by apply edits_keep_snoc.
  - by apply edits_replace_snoc.
  - by apply edits_delete_snoc.
  - by apply edits_insert_snoc.
Qed.

(** A script that also produces one more character at the front gives a
    script without it that is at most one edit longer. *)
Lemma edits_less_target a b y k :
  edits a (y :: b) k -> exists k', k' <= k + 1 /\ edits a b k'.
Proof.
  intros H. remember (y :: b) as c eqn:Ec. revert y b Ec.
  induction H as [|x a b n H IH|x y a b n H IH|x a b n H IH|y a b n H IH];
    intros y0 b0 Ec.
  - done.
  - injection Ec as -> ->. exists (n + 1). split; [lia|]. by constructor.
  - injection Ec as -> ->. exists (n + 1). split; [lia|]. by constructor.
  - destruct (IH y0 b0 Ec) as (k' & Hk' & H'). exists (k' + 1). split; [lia|].
    by constructor.
  - injection Ec as -> ->. exists n. split; [lia|done].
Qed.

Lemma edits_less_target_snoc a b y k :
  edits a (b ++ [y]) k -> exists k', k' <= k + 1 /\ edits a b k'.
Proof.
  intros H%edits_rev. rewrite rev_app_distr in H. cbn [rev app] in H.
  apply edits_less_target in H as (k' & Hk' & H%edits_rev).
  rewrite !rev_involutive in H. by exists k'.
Qed.

Lemma edits_less_source_snoc a b x k :
  edits (a ++ [x]) b k -> exists k', k' <= k + 1 /\ edits a b k'.
Proof.
  intros H%edits_sym. apply edits_less_target_snoc in H as (k' & Hk' & H%edits_sym).
  by exists k'.
Qed.

(** The last step of a script between two non-empty strings. *)
Lemma edits_snoc_inv a b x y n :
  edits (a ++ [x]) (b ++ [y]) n ->
  (x = y /\ edits a b n) \/ edits a b (n - 1) \/
  edits a (b ++ [y]) (n - 1) \/ edits (a ++ [x]) b (n - 1).
Proof.
  intros H%edits_rev. rewrite !rev_app_distr in H. cbn [rev app] in H.
  inversion H as [|x' a' b' n' H'|x' y' a' b' n' H'|x' a' b' n' H'|y' a' b' n' H']; subst.
  - left. split; [done|]. apply edits_rev in H'. by rewrite !rev_involutive in H'.
  - right. left. apply edits_rev in H'. rewrite !rev_involutive in H'.
    by replace (n' + 1 - 1) with n' by lia.
  - right. right. left. apply edits_rev in H'. cbn [rev] in H'.
    rewrite !rev_involutive in H'. by replace (n' + 1 - 1) with n' by lia.
  - right. right. right. apply edits_rev in H'. cbn [rev] in H'.
    rewrite !rev_involutive in H'. by replace (n' + 1 - 1) with n' by lia.
Qed.

(** ** Distances *)

Lemma is_distance_bounds a b d : is_distance a b d -> 0 <= d <= len a + len b.
Proof.
  intros [He Hmin]. split; [by apply (edits_nonneg a b)|]. apply Hmin, edits_any.
Qed.

Lemma is_distance_nil_r a : is_distance a [] (len a).
Proof.
  split; [apply edits_delete_all|]. intros n [H _]%edits_length.
  change (len []) with 0 in H. lia.
Qed.

Lemma is_distance_nil_l b : is_distance [] b (len b).
Proof.
  split; [apply edits_sym, edits_delete_all|]. intros n [_ H]%edits_length.
  change (len []) with 0 in H. lia.
Qed.

Lemma is_distance_match a b x d :
  is_distance a b d -> is_distance (a ++ [x]) (b ++ [x]) d.
Proof.
  intros [He Hmin]. split; [by apply edits_keep_snoc|].
  intros n [[_ H]|[H|[H|H]]]%edits_snoc_inv.
  - by apply Hmin.
  - specialize (Hmin _ H). lia.
  - apply edits_less_target_snoc in H as (k' & Hk' & H). specialize (Hmin _ H). lia.
  - apply edits_less_source_snoc in H as (k' & Hk' & H). specialize (Hmin _ H). lia.
Qed.

Lemma is_distance_mismatch a b x y d1 d2 d3 :
  x <> y -> is_distance a (b ++ [y]) d1 -> is_distance (a ++ [x]) b d2 ->
  is_distance a b d3 ->
  is_distance (a ++ [x]) (b ++ [y]) (1 + Levenshtein.min d1 d2 d3).
Proof.
  intros Hne [He1 Hmin1] [He2 Hmin2] [He3 Hmin3]. rewrite min_spec3. split.
  - destruct (Z.min_spec d1 (Z.min d2 d3)) as [[_ ->]|[_ ->]].
    + rewrite Z.add_comm. by apply edits_delete_snoc.
    + destruct (Z.min_spec d2 d3) as [[_ ->]|[_ ->]]; rewrite Z.add_comm.
      * by apply edits_insert_snoc.
      * by apply edits_replace_snoc.
  - intros n [[? _]|[H|[H|H]]]%edits_snoc_inv; [done | | |].
    + specialize (Hmin3 _ H). lia.
    + specialize (Hmin1 _ H). lia.
    + specialize (Hmin2 _ H). lia.
Qed.

(** ** The loops *)

Lemma first_column_spec m cols (fuel : nat) : forall dp i,
  shaped dp (m + 1) cols -> 1 <= cols -> 0 <= i <= m + 1 ->
  m + 1 - i < Z.of_nat fuel ->
  exists dp', first_column fuel dp m i = Done dp' /\ shaped dp' (m + 1) cols /\
    (forall i', i <= i' <= m -> tget dp' i' 0 = i') /\
    (forall i' j', 0 <= i' -> 0 <= j' -> i' < i \/ j' <> 0 ->
                   tget dp' i' j' = tget dp i' j').
Proof.
  induction fuel as [|fuel IH]; intros dp i Hsh Hcols Hi Hf; [lia|].
  cbn [first_column]. destruct (Z.leb_spec i m) as [Hle|Hgt].
  - rewrite (store2_tset _ _ _ _ _ _ Hsh) by lia. cbn [obind].
    destruct (IH (tset dp i 0 i) (i + 1)) as (dp' & E & Hsh' & Hnew & Hold);
      [apply (shaped_tset _ _ _ _ _ _ Hsh); lia | lia..|].
    exists dp'. split; [done|]. split; [done|]. split.
    + intros i' Hi'. destruct (decide (i' = i)) as [->|Hne]; [|apply Hnew; lia].
      rewrite Hold by lia. apply (tget_tset_eq _ _ _ _ _ _ Hsh); lia.
    + intros i' j' Hi' Hj' Hwhich. rewrite Hold by lia.
      apply (tget_tset_ne _ _ _ _ _ _ _ _ Hsh); lia.
  - exists dp. split; [done|]. split; [done|]. split; [intros; lia | done].
Qed.

Lemma first_row_spec rows n (fuel : nat) : forall dp j,
  shaped dp rows (n + 1) -> 1 <= rows -> 0 <= j <= n + 1 ->
  n + 1 - j < Z.of_nat fuel ->
  exists dp', first_row fuel dp n j = Done dp' /\ shaped dp' rows (n + 1) /\
    (forall j', j <= j' <= n -> tget dp' 0 j' = j') /\
    (forall i' j', 0 <= i' -> 0 <= j' -> i' <> 0 \/ j' < j ->
                   tget dp' i' j' = tget dp i' j').
Proof.
  induction fuel as [|fuel IH]; intros dp j Hsh Hrows Hj Hf; [lia|].
  cbn [first_row]. destruct (Z.leb_spec j n) as [Hle|Hgt].
  - rewrite (store2_tset _ _ _ _ _ _ Hsh) by lia. cbn [obind].
    destruct (IH (tset dp 0 j j) (j + 1)) as (dp' & E & Hsh' & Hnew & Hold);
      [apply (shaped_tset _ _ _ _ _ _ Hsh); lia | lia..|].
    exists dp'. split; [done|]. split; [done|]. split.
    + intros j' Hj'. destruct (decide (j' = j)) as [->|Hne]; [|apply Hnew; lia].
      rewrite Hold by lia. apply (tget_tset_eq _ _ _ _ _ _ Hsh); lia.
    + intros i' j' Hi' Hj' Hwhich. rewrite Hold by lia.
      apply (tget_tset_ne _ _ _ _ _ _ _ _ Hsh); lia.
  - exists dp. split; [done|]. split; [done|]. split; [intros; lia | done].
Qed.

Lemma len_take_le {A : Type} (l : list A) (k : nat) : len (take k l) <= len l.
Proof. unfold len. rewrite length_take. lia. Qed.

Lemma lev_inner_spec a b i (fuel : nat) : forall dp j,
  1 <= i <= len a -> len a < 2 ^ 31 -> len b < 2 ^ 31 -> 1 <= j <= len b + 1 ->
  len b + 1 - j < Z.of_nat fuel ->
  inv a b dp i j ->
  exists dp', inner fuel a b dp i j = Done dp' /\ inv a b dp' (i + 1) 1.
Proof.
  induction fuel as [|fuel IH]; intros dp j Hi Ha Hb Hj Hf [Hsh Hcells]; [lia|].
  cbn [inner]. destruct (Z.leb_spec j (len b)) as [Hle|Hgt].
  - rewrite (index_bget a (i - 1)), (index_bget b (j - 1)) by lia. cbn [obind].
    assert (Hstep : forall v,
              is_distance (take (Z.to_nat i) a) (take (Z.to_nat j) b) v ->
              inv a b (tset dp i j v) i (j + 1)).
    { intros v Hv. split; [apply (shaped_tset _ _ _ _ _ _ Hsh); lia|].
      intros i' j' Hi' Hj' Hwhich.
      destruct (decide (i' = i /\ j' = j)) as [[-> ->]|Hne].
      - by rewrite (tget_tset_eq _ _ _ _ _ _ Hsh) by lia.
      - rewrite (tget_tset_ne _ _ _ _ _ _ _ _ Hsh) by lia. apply Hcells; lia. }
    pose proof (Hcells (i - 1) j ltac:(lia) ltac:(lia) ltac:(lia)) as Hx.
    pose proof (Hcells i (j - 1) ltac:(lia) ltac:(lia) ltac:(lia)) as Hy.
    pose proof (Hcells (i - 1) (j - 1) ltac:(lia) ltac:(lia) ltac:(lia)) as Hz.
    unfold KMP.byte_eqb.
    destruct (Ascii.eqb_spec (bget a (i - 1)) (bget b (j - 1))) as [Heq|Hne].
    + rewrite (index2_tget _ _ _ _ _ Hsh) by lia. cbn [obind].
      rewrite (store2_tset _ _ _ _ _ _ Hsh) by lia. cbn [obind].
      apply IH; [lia..|]. apply Hstep.
      rewrite (take_snoc_bget a i), (take_snoc_bget b j) by lia.
      rewrite Heq. by apply is_distance_match.
    + rewrite !(index2_tget _ _ _ _ _ Hsh) by lia. cbn [obind].
      pose proof (is_distance_bounds _ _ _ Hx) as Bx.
      pose proof (is_distance_bounds _ _ _ Hy) as By.
      pose proof (is_distance_bounds _ _ _ Hz) as Bz.
      pose proof (len_take_le a (Z.to_nat (i - 1))).
      pose proof (len_take_le a (Z.to_nat i)).
      pose proof (len_take_le b (Z.to_nat (j - 1))).
      pose proof (len_take_le b (Z.to_nat j)).
      unfold Int64.add. rewrite wrap_small by (rewrite min_spec3; lia).
      rewrite (store2_tset _ _ _ _ _ _ Hsh) by lia. cbn [obind].
      apply IH; [lia..|]. apply Hstep.
      rewrite (take_snoc_bget b j) in Hx |- * by lia.
      rewrite (take_snoc_bget a i) in Hy |- * by lia.
      by apply is_distance_mismatch.
  - exists dp. split; [done|]. split; [done|]. intros i' j' Hi' Hj' Hwhich.
    apply Hcells; lia.
Qed.

Lemma lev_outer_spec a b (fuel : nat) : forall dp i,
  1 <= i <= len a + 1 -> len a < 2 ^ 31 -> len b < 2 ^ 31 ->
  len a + 1 - i < Z.of_nat fuel ->
  inv a b dp i 1 ->
  exists dp', outer fuel a b dp i = Done dp' /\ inv a b dp' (len a + 1) 1.
Proof.
  induction fuel as [|fuel IH]; intros dp i Hi Ha Hb Hf Hinv; [lia|].
  cbn [outer]. destruct (Z.leb_spec i (len a)) as [Hle|Hgt].
  - destruct (lev_inner_spec a b i (S (length b)) dp 1) as (dp1 & -> & Hinv1);
      [lia | done | done | pose proof (len_nonneg b); lia | unfold len; lia | done |].
    cbn [obind]. apply IH; [lia | done | done | lia | done].
  - exists dp. split; [done|]. by replace (len a + 1) with i by lia.
Qed.

End LevenshteinFacts.

(** X29: for strings of fewer than [2^31] bytes each,
    [LevenshteinDistance] does not panic and returns the least number of
    single-byte edits (a byte replaced, deleted or inserted) that change
    the first string into the second. *)
Theorem LevenshteinDistance_is_least (s1 s2 : string) :
  len (KMP.bytes s1) < 2 ^ 31 -> len (KMP.bytes s2) < 2 ^ 31 ->
  exists d, Levenshtein.LevenshteinDistance s1 s2 = Done d /\
    Levenshtein.edits (KMP.bytes s1) (KMP.bytes s2) d /\
    forall n, Levenshtein.edits (KMP.bytes s1) (KMP.bytes s2) n -> d <= n.
Proof.
  intros H1 H2. unfold Levenshtein.LevenshteinDistance. cbv zeta.
  set (a := KMP.bytes s1) in *. set (b := KMP.bytes s2) in *.
  pose proof (len_nonneg a). pose proof (len_nonneg b).
  destruct (make_table (len a + 1) (len b + 1)) as (dp0 & E0 & Hsh0 & Hz0); [lia..|].
  unfold DP.make_slices in *.
  destruct (Z.ltb_spec (len a + 1) 0); [lia|]. cbn [obind] in *. rewrite E0. cbn [obind].
  destruct (first_column_spec (len a) (len b + 1) (S (S (length a))) dp0 0)
    as (dp1 & -> & Hsh1 & Hcol1 & _); [done | lia | lia | unfold len; lia |].
  cbn [obind].
  destruct (first_row_spec (len a + 1) (len b) (S (S (length b))) dp1 0)
    as (dp2 & -> & Hsh2 & Hrow2 & Hold2); [done | lia | lia | unfold len; lia |].
  cbn [obind].
  destruct (lev_outer_spec a b (S (length a)) dp2 1) as (dp & -> & Hsh & Hcells);
    [lia | done | done | unfold len; lia | |].
  { split; [done|]. intros i' j' Hi' Hj' Hwhich.
    destruct (decide (i' = 0)) as [->|Hi0].
    - rewrite Hrow2 by lia. change (Z.to_nat 0) with 0%nat. rewrite take_0.
      replace j' with (len (take (Z.to_nat j') b)) at 2
        by (unfold len in *; rewrite length_take; lia).
      apply is_distance_nil_l.
    - assert (j' = 0) as -> by lia. rewrite Hold2 by lia. rewrite Hcol1 by lia.
      change (Z.to_nat 0) with 0%nat. rewrite take_0.
      replace i' with (len (take (Z.to_nat i') a)) at 2
        by (unfold len in *; rewrite length_take; lia).
      apply is_distance_nil_r. }
  cbn [obind]. rewrite (index2_tget _ _ _ _ _ Hsh) by lia.
  eexists. split; [done|].
  pose proof (Hcells (len a) (len b) ltac:(lia) ltac:(lia) ltac:(lia)) as Hr.
  replace (take (Z.to_nat (len a)) a) with a in Hr
    by (unfold len; by rewrite Nat2Z.id, firstn_all).
  replace (take (Z.to_nat (len b)) b) with b in Hr
    by (unfold len; by rewrite Nat2Z.id, firstn_all).
  exact Hr.
Qed.

Lemma LevenshteinDistance_is_least_witness :
  exists d, Levenshtein.LevenshteinDistance "kitten" "sitting" = Done d /\
    Levenshtein.edits (KMP.bytes "kitten") (KMP.bytes "sitting") d /\
    forall n, Levenshtein.edits (KMP.bytes "kitten") (KMP.bytes "sitting") n -> d <= n.
Proof.
  apply (LevenshteinDistance_is_least "kitten" "sitting"); reflexivity.
Defined.


(** * Longest palindromic substring *)

Section PalindromeFacts.
Import Palindrome.
Implicit Types (s : list ascii) (table : list (list bool)).

(** ** The table *)

Lemma pal_index_row table i :
  0 <= i < len table -> index table i = Done (row table i).
Proof.
  intros Hi. destruct (index_in_range table i Hi) as (v & -> & Hv).
  unfold row. by rewrite Hv.
Qed.

Lemma pal_index2 table n i j :
  shaped table n -> 0 <= i < n -> 0 <= j < n ->
  index2 table i j = Done (tget table i j).
Proof.
  intros [Hr Hc] Hi Hj. unfold index2. rewrite pal_index_row by lia. cbn [obind].
  destruct (index_in_range (row table i) j) as (v & -> & Hv); [rewrite Hc; lia|].
  unfold tget. by rewrite Hv.
Qed.

Lemma pal_store2 table n i j v :
  shaped table n -> 0 <= i < n -> 0 <= j < n ->
  store2 table i j v = Done (tset table i j v).
Proof.
  intros [Hr Hc] Hi Hj. unfold store2. rewrite pal_index_row by lia. cbn [obind].
  rewrite store_in_range by (rewrite Hc; lia). cbn [obind].
  unfold tset. apply store_in_range. lia.
Qed.

Lemma pal_row_tset table i j v i' :
  0 <= i < len table -> 0 <= i' ->
  row (tset table i j v) i'
  = if decide (i' = i) then <[Z.to_nat j := v]> (row table i) else row table i'.
Proof.
  intros Hi Hi'. unfold row at 1, tset. destruct (decide (i' = i)) as [->|Hne].
  - rewrite list_lookup_insert_eq by (unfold len in *; lia). done.
  - rewrite list_lookup_insert_ne by lia. done.
Qed.

Lemma pal_shaped_tset table n i j v :
  shaped table n -> 0 <= i < n -> shaped (tset table i j v) n.
Proof.
  intros [Hr Hc] Hi. split.
  - unfold tset, len in *. by rewrite length_insert.
  - intros i' Hi'. rewrite pal_row_tset by lia.
    destruct (decide (i' = i)); [unfold len; rewrite length_insert|]; apply Hc; lia.
Qed.

Lemma pal_tget_tset_eq table n i j v :
  shaped table n -> 0 <= i < n -> 0 <= j < n -> tget (tset table i j v) i j = v.
Proof.
  intros [Hr Hc] Hi Hj. unfold tget. rewrite pal_row_tset by lia.
  destruct (decide (i = i)); [|done].
  rewrite list_lookup_insert_eq; [done|]. specialize (Hc i Hi). unfold len in Hc. lia.
Qed.

Lemma pal_tget_tset_ne table n i j v i' j' :
  shaped table n -> 0 <= i < n -> 0 <= j -> 0 <= i' -> 0 <= j' ->
  i' <> i \/ j' <> j ->
  tget (tset table i j v) i' j' = tget table i' j'.
Proof.
  intros [Hr Hc] Hi Hj Hi' Hj' Hne. unfold tget. rewrite pal_row_tset by lia.
  destruct (decide (i' = i)) as [->|]; [|done].
  rewrite list_lookup_insert_ne by lia. done.
Qed.

(** After the first loop the table has its shape and marks the diagonal
    only. *)
Lemma init_rows_spec n : forall (k : nat) table i,
  0 <= i -> i + Z.of_nat k = n -> len table = n ->
  (forall i', 0 <= i' < i ->
     len (row table i') = n /\
     forall j', 0 <= j' < n -> tget table i' j' = true <-> j' = i') ->
  exists table', init_rows k table i n = Done table' /\ shaped table' n /\
    forall i' j', 0 <= i' < n -> 0 <= j' < n -> tget table' i' j' = true <-> j' = i'.
Proof.
  induction k as [|k IH]; intros table i Hi Hk Hl Hdone; cbn [init_rows].
  - exists table. split; [done|]. split; [split; [done|]|].
    + intros i' Hi'. destruct (Hdone i') as [Hrow _]; [lia|done].
    + intros i' j' Hi' Hj'. destruct (Hdone i') as [_ Hcell]; [lia|]. by apply Hcell.
  - unfold make_bools. destruct (Z.ltb_spec n 0); [lia|]. cbn [obind].
    rewrite store_in_range by lia. cbn [obind].
    set (fresh := replicate (Z.to_nat n) false).
    set (table1 := <[Z.to_nat i := fresh]> table).
    assert (Hl1 : len table1 = n) by (unfold table1, len in *; by rewrite length_insert).
    assert (Hrow1 : row table1 i = fresh).
    { unfold row, table1. rewrite list_lookup_insert_eq by (unfold len in *; lia). done. }
    assert (Hlf : len fresh = n) by (unfold len, fresh; rewrite length_replicate; lia).
    unfold store2. rewrite pal_index_row by lia. cbn [obind]. rewrite Hrow1.
    rewrite store_in_range by lia. cbn [obind].
    rewrite store_in_range by lia. cbn [obind].
    set (table2 := <[Z.to_nat i := <[Z.to_nat i := true]> fresh]> table1).
    assert (Hrow2 : forall i', 0 <= i' ->
              row table2 i' = if decide (i' = i) then <[Z.to_nat i := true]> fresh
                              else row table i').
    { intros i' Hi'. unfold row, table2, table1. destruct (decide (i' = i)) as [->|Hne].
      - rewrite list_lookup_insert_eq; [done|].
        rewrite length_insert. unfold len in *. lia.
      - rewrite !list_lookup_insert_ne by lia. done. }
    apply IH; [lia | lia | unfold table2, len in *; by rewrite length_insert |].
    intros i' Hi'. unfold tget. rewrite Hrow2 by lia.
    destruct (decide (i' = i)) as [->|Hne].
    + split; [unfold len in *; rewrite length_insert; lia|]. intros j' Hj'.
      destruct (decide (j' = i)) as [->|Hji].
      * rewrite list_lookup_insert_eq by (unfold len in *; lia). done.
      * rewrite list_lookup_insert_ne by lia. unfold fresh.
        rewrite lookup_replicate_2 by lia. done.
    + destruct (Hdone i') as [Hrow Hcell]; [lia|]. split; [done|].
      intros j' Hj'. by apply Hcell.
Qed.

(** ** Palindromes by position *)

Lemma pal_refl s i : pal s i i.
Proof. intros t Ht. f_equal. lia. Qed.

Lemma pal_pair s i : pal s i (i + 1) <-> bget s i = bget s (i + 1).
Proof.
  split.
  - intros H. specialize (H 0 ltac:(lia)).
    by rewrite Z.add_0_r, Z.sub_0_r in H.
  - intros H t Ht. assert (t = 0 \/ t = 1) as [-> | ->] by lia.
    + by rewrite Z.add_0_r, Z.sub_0_r.
    + replace (i + 1 - 1) with i by lia. done.
Qed.

Lemma pal_step s i j :
  i + 2 <= j -> pal s i j <-> bget s i = bget s j /\ pal s (i + 1) (j - 1).
Proof.
  intros Hij. split.
  - intros H. split.
    + specialize (H 0 ltac:(lia)). by rewrite Z.add_0_r, Z.sub_0_r in H.
    + intros t Ht. specialize (H (t + 1) ltac:(lia)).
      by replace (i + (t + 1)) with (i + 1 + t) in H by lia;
         replace (j - (t + 1)) with (j - 1 - t) in H by lia.
  - intros [Hends Hin] t Ht.
    destruct (decide (t = 0)) as [->|Ht0]; [by rewrite Z.add_0_r, Z.sub_0_r|].
    destruct (decide (t = j - i)) as [->|Htl].
    + replace (i + (j - i)) with j by lia. replace (j - (j - i)) with i by lia. done.
    + specialize (Hin (t - 1) ltac:(lia)).
      by replace (i + 1 + (t - 1)) with (i + t) in Hin by lia;
         replace (j - 1 - (t - 1)) with (j - t) in Hin by lia.
Qed.

(** Palindromes by position and palindromes as lists agree. *)
Lemma pal_reverse s (i k : nat) :
  (1 <= k)%nat -> (i + k <= length s)%nat ->
  pal s (Z.of_nat i) (Z.of_nat i + Z.of_nat k - 1)
  <-> reverse (take k (drop i s)) = take k (drop i s).
Proof.
  intros Hk Hfit. set (sub := take k (drop i s)).
  assert (Hlen : length sub = k) by (unfold sub; rewrite length_take, length_drop; lia).
  assert (Hsub : forall t, (t < k)%nat -> sub !! t = s !! (i + t)%nat).
  { intros t Ht. unfold sub. by rewrite lookup_take_lt, lookup_drop. }
  assert (Hget : forall t, (t < k)%nat ->
            exists c, s !! (i + t)%nat = Some c /\ bget s (Z.of_nat i + Z.of_nat t) = c).
  { intros t Ht. destruct (lookup_lt_is_Some_2 s (i + t)) as [c Hc]; [lia|].
    exists c. split; [done|]. unfold bget.
    replace (Z.to_nat (Z.of_nat i + Z.of_nat t)) with (i + t)%nat by lia.
    by rewrite Hc. }
  split.
  - intros Hpal. apply list_eq. intros t.
    destruct (decide (t < k)%nat) as [Ht|Ht].
    + rewrite reverse_lookup by lia. rewrite Hlen, !Hsub by lia.
      destruct (Hget t Ht) as (c & Hc & Hbc).
      destruct (Hget (k - S t)%nat ltac:(lia)) as (c' & Hc' & Hbc').
      rewrite Hc, Hc'. f_equal.
      specialize (Hpal (Z.of_nat t) ltac:(lia)).
      replace (Z.of_nat i + Z.of_nat k - 1 - Z.of_nat t)
        with (Z.of_nat i + Z.of_nat (k - S t)) in Hpal by lia.
      congruence.
    + rewrite !lookup_ge_None_2; [done | lia | rewrite length_reverse; lia].
  - intros Heq t Ht.
    assert (Ht' : (Z.to_nat t < k)%nat) by lia.
    apply (f_equal (fun l => l !! Z.to_nat t)) in Heq.
    rewrite reverse_lookup in Heq by lia. rewrite Hlen, !Hsub in Heq by lia.
    destruct (Hget (Z.to_nat t) Ht') as (c & Hc & Hbc).
    destruct (Hget (k - S (Z.to_nat t))%nat ltac:(lia)) as (c' & Hc' & Hbc').
    rewrite Hc, Hc' in Heq.
    replace (Z.of_nat i + Z.of_nat (Z.to_nat t)) with (Z.of_nat i + t) in Hbc by lia.
    replace (Z.of_nat i + Z.of_nat (k - S (Z.to_nat t)))
      with (Z.of_nat i + Z.of_nat k - 1 - t) in Hbc' by lia.
    congruence.
Qed.

(** ** The loops *)

(** One more substring looked at, and it is no palindrome. *)
Lemma inv_pass s table start maxLength length_ i :
  inv s table start maxLength length_ i ->
  ~ pal s i (i + length_ - 1) ->
  inv s table start maxLength length_ (i + 1).
Proof.
  intros (Hsh & Htab & Hs & Hm & Hfit & Hbest & Hmax) Hno.
  split; [done|]. split; [|split; [done|split; [done|split; [done|split; [done|]]]]].
  - intros i' j' Hi' Hij' Hj'. rewrite (Htab i' j') by lia. unfold seen. split.
    + intros [Hp Hseen]. split; [done|lia].
    + intros [Hp Hseen]. split; [done|].
      destruct (decide (i' = i /\ j' = i + length_ - 1)) as [[-> ->]|Hne]; [done|lia].
  - intros i' j' Hi' Hij' Hj' Hp Hseen. apply Hmax; [lia..|done|].
    unfold seen in *.
    destruct (decide (i' = i /\ j' = i + length_ - 1)) as [[-> ->]|Hne]; [done|lia].
Qed.

(** One more substring looked at, a palindrome: it is marked, and the
    longest so far may be replaced by one at least as long. *)
Lemma inv_mark s table start maxLength length_ i start' maxLength' :
  inv s table start maxLength length_ i ->
  0 <= i -> 1 <= length_ -> i + length_ <= len s ->
  pal s i (i + length_ - 1) ->
  0 <= start' -> start' + maxLength' <= len s ->
  pal s start' (start' + maxLength' - 1) ->
  maxLength <= maxLength' -> length_ <= maxLength' ->
  inv s (tset table i (i + length_ - 1) true) start' maxLength' length_ (i + 1).
Proof.
  intros (Hsh & Htab & Hs & Hm & Hfit & Hbest & Hmax) Hi Hl Hin Hp Hs' Hfit' Hp' Hge HgeL.
  split; [apply (pal_shaped_tset _ _ _ _ _ Hsh); lia|].
  split; [|split; [done|split; [lia|split; [done|split; [done|]]]]].
  - intros i' j' Hi' Hij' Hj'.
    destruct (decide (i' = i /\ j' = i + length_ - 1)) as [[-> ->]|Hne].
    + rewrite (pal_tget_tset_eq _ _ _ _ _ Hsh) by lia. unfold seen.
      split; [intros _; split; [done|lia] | done].
    + rewrite (pal_tget_tset_ne _ _ _ _ _ _ _ Hsh) by lia.
      rewrite (Htab i' j') by lia. unfold seen. split.
      * intros [Hq Hseen]. split; [done|lia].
      * intros [Hq Hseen]. split; [done|lia].
  - intros i' j' Hi' Hij' Hj' Hq Hseen.
    destruct (decide (i' = i /\ j' = i + length_ - 1)) as [[-> ->]|Hne]; [lia|].
    assert (j' - i' + 1 <= maxLength); [|lia].
    apply Hmax; [lia..|done|]. unfold seen in *. lia.
Qed.

(** When a length is done, the next one starts. *)
Lemma inv_next s table start maxLength length_ i :
  inv s table start maxLength length_ i -> len s - length_ + 1 <= i ->
  inv s table start maxLength (length_ + 1) 0.
Proof.
  intros (Hsh & Htab & Hs & Hm & Hfit & Hbest & Hmax) Hi.
  split; [done|]. split; [|split; [done|split; [done|split; [done|split; [done|]]]]].
  - intros i' j' Hi' Hij' Hj'. rewrite (Htab i' j') by lia. unfold seen. split.
    + intros [Hp Hseen]. split; [done|lia].
    + intros [Hp Hseen]. split; [done|lia].
  - intros i' j' Hi' Hij' Hj' Hp Hseen. apply Hmax; [lia..|done|].
    unfold seen in *. lia.
Qed.

Lemma pal_pairs_spec s (fuel : nat) : forall table start maxLength i,
  inv s table start maxLength 2 i -> maxLength <= 2 -> 0 <= i <= len s ->
  len s - i < Z.of_nat fuel ->
  exists table' start' maxLength',
    pairs fuel s table start maxLength i = Done (table', start', maxLength') /\
    inv s table' start' maxLength' 3 0.
Proof.
  induction fuel as [|fuel IH]; intros table start maxLength i Hinv Hm2 Hi Hf.
  { lia. }
  cbn [pairs]. destruct (Z.ltb_spec i (len s - 1)) as [Hlt|Hge].
  - rewrite (index_bget s i), (index_bget s (i + 1)) by lia. cbn [obind].
    unfold KMP.byte_eqb.
    destruct (Ascii.eqb_spec (bget s i) (bget s (i + 1))) as [Heq|Hne].
    + pose proof Hinv as (Hsh & _).
      rewrite (pal_store2 _ _ _ _ _ Hsh) by lia. cbn [obind].
      apply IH; [|lia..].
      replace (i + 1) with (i + 2 - 1) at 1 by lia.
      apply (inv_mark s table start maxLength 2 i i 2); try lia; try done.
      * replace (i + 2 - 1) with (i + 1) by lia. by apply pal_pair.
      * replace (i + 2 - 1) with (i + 1) by lia. by apply pal_pair.
    + apply IH; [|lia..]. apply inv_pass; [done|].
      replace (i + 2 - 1) with (i + 1) by lia. by rewrite pal_pair.
  - eexists _, _, _. split; [done|]. apply (inv_next s table start maxLength 2 i); [done|lia].
Qed.

Lemma pal_inner_spec s length_ (fuel : nat) : forall table start maxLength i,
  inv s table start maxLength length_ i -> 3 <= length_ -> 0 <= i <= len s ->
  len s - i < Z.of_nat fuel ->
  exists table' start' maxLength',
    inner fuel s table start maxLength length_ i = Done (table', start', maxLength') /\
    inv s table' start' maxLength' (length_ + 1) 0.
Proof.
  induction fuel as [|fuel IH]; intros table start maxLength i Hinv HL Hi Hf.
  { lia. }
  cbn [inner]. destruct (Z.ltb_spec i (len s - length_ + 1)) as [Hlt|Hge].
  - cbv zeta. pose proof Hinv as (Hsh & Htab & Hs & Hm & Hfit & Hbest & Hmax).
    rewrite (pal_index2 _ _ _ _ Hsh) by lia. cbn [obind].
    pose proof (Htab (i + 1) (i + length_ - 1 - 1) ltac:(lia) ltac:(lia) ltac:(lia))
      as Hcell.
    pose proof (pal_step s i (i + length_ - 1) ltac:(lia)) as Hstep.
    replace (i + length_ - 1 - 1) with (i + length_ - 1 - 1) in * by lia.
    destruct (tget table (i + 1) (i + length_ - 1 - 1)) eqn:Et.
    + destruct Hcell as [[Hpin _] _]; [done|].
      rewrite (index_bget s i), (index_bget s (i + length_ - 1)) by lia. cbn [obind].
      unfold KMP.byte_eqb.
      destruct (Ascii.eqb_spec (bget s i) (bget s (i + length_ - 1))) as [Heq|Hne].
      * rewrite (pal_store2 _ _ _ _ _ Hsh) by lia. cbn [obind].
        assert (Hp : pal s i (i + length_ - 1)) by (apply Hstep; by split).
        destruct (Z.gtb_spec length_ maxLength) as [Hgt|Hle].
        -- apply IH; [|lia..].
           apply (inv_mark s table start maxLength length_ i i length_); try lia; done.
        -- apply IH; [|lia..].
           apply (inv_mark s table start maxLength length_ i start maxLength);
             try lia; done.
      * apply IH; [|lia..]. apply inv_pass; [done|]. rewrite Hstep. tauto.
    + apply IH; [|lia..]. apply inv_pass; [done|]. rewrite Hstep.
      intros [_ Hpin]. destruct Hcell as [_ Hcell].
      assert (false = true); [|done].
      apply Hcell. split; [done|]. unfold seen. lia.
  - eexists _, _, _. split; [done|]. by apply (inv_next s table start maxLength length_ i).
Qed.

Lemma pal_outer_spec s (fuel : nat) : forall table start maxLength length_,
  inv s table start maxLength length_ 0 -> 3 <= length_ <= len s + 1 ->
  len s + 1 - length_ < Z.of_nat fuel ->
  exists table' start' maxLength',
    outer fuel s table start maxLength length_ = Done (table', start', maxLength') /\
    inv s table' start' maxLength' (len s + 1) 0.
Proof.
  induction fuel as [|fuel IH]; intros table start maxLength length_ Hinv HL Hf; [lia|].
  cbn [outer]. destruct (Z.leb_spec length_ (len s)) as [Hle|Hgt].
  - destruct (pal_inner_spec s length_ (S (length s)) table start maxLength 0)
      as (t1 & s1 & m1 & -> & Hinv1); [done | lia | lia | unfold len; lia |].
    cbn [obind]. apply IH; [done | lia | lia].
  - eexists _, _, _. split; [done|]. by replace (len s + 1) with length_ by lia.
Qed.

End PalindromeFacts.

(** X30: [LongestPalindromicSubstring] does not panic and returns a
    substring of its argument that reads the same in both directions and is
    at least as long as every substring that does. *)
Theorem LongestPalindromicSubstring_is_longest (s : string) :
  exists r, Palindrome.LongestPalindromicSubstring s = Done r /\
    (exists start : nat,
        take (length (KMP.bytes r)) (drop start (KMP.bytes s)) = KMP.bytes r) /\
    reverse (KMP.bytes r) = KMP.bytes r /\
    forall i k : nat,
      (i + k <= length (KMP.bytes s))%nat ->
      reverse (take k (drop i (KMP.bytes s))) = take k (drop i (KMP.bytes s)) ->
      (k <= length (KMP.bytes r))%nat.
Proof.
  unfold Palindrome.LongestPalindromicSubstring. cbv zeta.
  set (bs := KMP.bytes s). destruct (Z.ltb_spec (len bs) 2) as [Hsmall|Hbig].
  - exists s. split; [done|]. fold bs. split; [|split].
    + exists 0%nat. by rewrite drop_0, firstn_all.
    + unfold len in Hsmall. destruct bs as [|c [|c' bs']]; [done | done |].
      cbn [length] in Hsmall. lia.
    + intros i k Hfit _. lia.
  - unfold Palindrome.make_slices. destruct (Z.ltb_spec (len bs) 0); [lia|]. cbn [obind].
    set (t0 := replicate (Z.to_nat (len bs)) (@nil bool)).
    assert (Hl0 : len t0 = len bs) by (unfold t0, len; rewrite length_replicate; lia).
    destruct (init_rows_spec (len bs) (length t0) t0 0) as (t1 & -> & Hsh1 & Hdiag);
      [lia | unfold len in *; lia | done | intros; lia |].
    cbn [obind].
    destruct (pal_pairs_spec bs (S (length bs)) t1 0 1 0) as (t2 & s2 & m2 & -> & Hinv2);
      [ | lia | lia | unfold len; lia |].
    { split; [done|]. split; [|split; [lia|split; [lia|split; [lia|split]]]].
      - intros i' j' Hi' Hij' Hj'. rewrite Hdiag by lia. unfold Palindrome.seen. split.
        + intros ->. split; [apply pal_refl | lia].
        + intros [_ ?]. lia.
      - apply pal_refl.
      - intros i' j' Hi' _ _ _ Hseen. unfold Palindrome.seen in Hseen. lia. }
    cbn [obind].
    destruct (pal_outer_spec bs (S (length bs)) t2 s2 m2 3) as (t3 & s3 & m3 & -> & Hinv3);
      [done | lia | unfold len; lia |].
    cbn [obind]. destruct Hinv3 as (_ & _ & Hs & Hm & Hfit & Hbest & Hmax).
    rewrite slice_in_range by lia. cbn [obind]. eexists. split; [done|].
    unfold KMP.bytes. rewrite !String.list_ascii_of_string_of_list_ascii.
    replace (Z.to_nat (s3 + m3 - s3)) with (Z.to_nat m3) by lia.
    assert (Hlen : length (take (Z.to_nat m3) (drop (Z.to_nat s3) bs)) = Z.to_nat m3)
      by (rewrite length_take, length_drop; unfold len in *; lia).
    rewrite Hlen. split; [|split].
    + by exists (Z.to_nat s3).
    + apply (pal_reverse bs (Z.to_nat s3) (Z.to_nat m3)); [lia | unfold len in *; lia |].
      by replace (Z.of_nat (Z.to_nat s3) + Z.of_nat (Z.to_nat m3) - 1)
        with (s3 + m3 - 1) by lia; rewrite Z2Nat.id by lia.
    + intros i k Hk Hrev. destruct (decide (k = 0)%nat) as [->|Hk0]; [lia|].
      apply (pal_reverse bs i k) in Hrev; [|lia..].
      specialize (Hmax (Z.of_nat i) (Z.of_nat i + Z.of_nat k - 1)
                    ltac:(lia) ltac:(lia) ltac:(unfold len; lia) Hrev).
      unfold Palindrome.seen in Hmax. unfold len in Hmax. lia.
Qed.
